(** * check-cx: the polling and health-aggregation core

    A shallow embedding of [lib/checks.ts], [lib/providers/openai.ts],
    [lib/core/group-data.ts] and of the SQL helpers
    [get_recent_check_history] / [prune_check_history], with the
    properties of the health-check core stated over it; and of the
    helpers of the dashboard that read its output (the tag lists and
    tag colours, the countdown to the next refresh).

    Conventions of the embedding.
    - A JavaScript string is a [string]: one [ascii] stands for one code
      unit.  The message constants of the source are kept as they are
      written there.  Where the code computes with the values of the
      code units (the hash of a tag), a string is the list of its
      UTF-16 code units.
    - A JavaScript number that the code only adds, subtracts and compares
      (timestamps, latencies, HTTP statuses) is a [Z].
    - [null]/[undefined] for an optional field is [None].
    - A [throw] is the [Throw] completion; [try]/[catch] is [try_catch].
    - The platform functions the code calls but does not define
      ([JSON.parse], [JSON.stringify], number conversion,
      [String.prototype.localeCompare]) are the fields of a [Runtime].
    - The functions of the repository that [group-data.ts] imports from
      modules outside these files (the database, [runProviderChecks] of
      [lib/providers]) are parameters. *)

From Stdlib Require Import ZArith Lia Ascii String List Sorted Permutation.
From stdpp Require Import base list strings gmap pretty sorting.

Set Warnings "-register-all".
Open Scope Z_scope.

(** ** JavaScript strings *)

Module JsString.

(** White space and line terminators, as [String.prototype.trim]
    strips them, among the code units below 256. *)
Definition is_white_space (c : ascii) : bool :=
  let n := nat_of_ascii c in
  ((9 <=? n)%nat && (n <=? 13)%nat) || (n =? 32)%nat || (n =? 160)%nat.

Fixpoint trimStart (s : string) : string :=
  match s with
  | EmptyString => EmptyString
  | String c s' => if is_white_space c then trimStart s' else s
  end.

Fixpoint trimEnd (s : string) : string :=
  match s with
  | EmptyString => EmptyString
  | String c s' =>
      match trimEnd s' with
      | EmptyString =>
          if is_white_space c then EmptyString else String c EmptyString
      | t => String c t
      end
  end.

Definition trim (s : string) : string := trimEnd (trimStart s).

(** Truthiness of a string: [""] is the only falsy one. *)
Definition nonempty (s : string) : bool :=
  match s with EmptyString => false | String _ _ => true end.

(** [s.split(sep)] for a one-character separator: never the empty
    array, [""] splits into [[""]]. *)
Fixpoint split (sep : ascii) (s : string) : list string :=
  match s with
  | EmptyString => [EmptyString]
  | String c s' =>
      if Ascii.eqb c sep then EmptyString :: split sep s'
      else match split sep s' with
           | [] => [String c EmptyString]
           | x :: xs => String c x :: xs
           end
  end.

Definition newline : ascii := ascii_of_nat 10.

Definition startsWith (s p : string) : bool := String.prefix p s.

(** [s.slice(n)] and [s.slice(0, n)] for a literal [n >= 0]. *)
Fixpoint slice_from (n : nat) (s : string) : string :=
  match n, s with
  | O, _ => s
  | S n', String _ s' => slice_from n' s'
  | S _, EmptyString => EmptyString
  end.

Fixpoint slice_to (n : nat) (s : string) : string :=
  match n, s with
  | S n', String c s' => String c (slice_to n' s')
  | _, _ => EmptyString
  end.

(** [parts.join(sep)]. *)
Fixpoint join (sep : string) (parts : list string) : string :=
  match parts with
  | [] => EmptyString
  | [x] => x
  | x :: rest => x +:+ sep +:+ join sep rest
  end.

Fixpoint includes (s sub : string) : bool :=
  String.prefix sub s ||
  match s with
  | EmptyString => false
  | String _ s' => includes s' sub
  end.

Definition endsWith (s suffix : string) : bool :=
  String.prefix (String.rev suffix) (String.rev s).

(** [s.replace(pattern, by)] for a string pattern: the first
    occurrence only. *)
Fixpoint replace (pattern by_ s : string) : string :=
  if String.prefix pattern s then by_ +:+ slice_from (String.length pattern) s
  else match s with
       | EmptyString => EmptyString
       | String c s' => String c (replace pattern by_ s')
       end.

(** [s.replace(/\/$/, "")] *)
Definition strip_trailing_slash (s : string) : string :=
  match String.rev s with
  | String "/" r => String.rev r
  | _ => s
  end.

(** Text written with ['] where the JSON has a double quote. *)
Fixpoint quoted (s : string) : string :=
  match s with
  | EmptyString => EmptyString
  | String c s' =>
      String (if Ascii.eqb c "'"%char then ascii_of_nat 34 else c) (quoted s')
  end.

(** [s.indexOf(sub)]: the index of the first occurrence of [sub], or
    [-1] when there is none. *)
Fixpoint indexOf_from (i : nat) (s sub : string) : Z :=
  if String.prefix sub s then Z.of_nat i
  else match s with
       | EmptyString => -1
       | String _ s' => indexOf_from (S i) s' sub
       end.

Definition indexOf (s sub : string) : Z := indexOf_from 0 s sub.

(** [s.slice(0, i)] for a computed index [i]. *)
Definition slice_to_index (i : Z) (s : string) : string :=
  if bool_decide (0 ≤ i) then slice_to (Z.to_nat i) s
  else slice_to (String.length s - Z.to_nat (- i)) s.

(** [s.slice(-n)] for a literal [n > 0]. *)
Definition slice_last (n : nat) (s : string) : string :=
  slice_from (String.length s - n) s.


End JsString.

(** ** Completions: a value or a thrown error *)

Record JSError := { err_name : string; err_message : string }.

Inductive Completion (A : Type) : Type :=
| Normal (a : A)
| Throw (e : JSError).
Arguments Normal {A} a.
Arguments Throw {A} e.

Definition bindC {A B} (c : Completion A) (k : A → Completion B) : Completion B :=
  match c with
  | Normal a => k a
  | Throw e => Throw e
  end.

Definition try_catch {A} (body : Completion A) (handler : JSError → Completion A)
  : Completion A :=
  match body with
  | Normal a => Normal a
  | Throw e => handler e
  end.

(** [try { x = body } catch { }]: the value of [x] afterwards. *)
Definition try_ignore {A} (body : Completion A) (before : A) : A :=
  match body with
  | Normal a => a
  | Throw _ => before
  end.

Global Instance completion_ret : MRet Completion := @Normal.
Global Instance completion_bind : MBind Completion := λ A B k c, bindC c k.

Definition TypeError (msg : string) : JSError :=
  {| err_name := "TypeError"; err_message := msg |}.
Definition SyntaxError (msg : string) : JSError :=
  {| err_name := "SyntaxError"; err_message := msg |}.

(** ** JSON values and the JavaScript operators the code applies to them *)

(** The value [JSON.parse] returns.  A number keeps its lexeme; an object
    keeps its members in source order, and a repeated key is read at its
    last occurrence. *)
Inductive JSON : Type :=
| JNull
| JBool (b : bool)
| JNum (lexeme : string)
| JStr (s : string)
| JArr (items : list JSON)
| JObj (members : list (string * JSON)).

(** A JavaScript value met by the code: [undefined] or a JSON value. *)
Definition JSValue := option JSON.
Definition undefined : JSValue := None.

Record Runtime := {
  JSON_parse : string → option JSON;       (* [None]: a SyntaxError *)
  JSON_stringify : JSON → string;
  number_truthy : string → bool;           (* the number is not [0] *)
  number_toString : string → string;       (* [String(n)] *)
  localeCompare : string → string → Z;
}.

Module Js.
Import JsString.

Fixpoint own_property (members : list (string * JSON)) (k : string) : JSValue :=
  match members with
  | [] => None
  | (k', v) :: rest =>
      match own_property rest k with
      | Some v' => Some v'
      | None => if String.eqb k' k then Some v else None
      end
  end.

(** [v.k] for one of the names the code reads ([choices], [delta],
    [content], [type], [text], [candidates], [parts], [error],
    [message]): none of them is on a prototype, so only an object's own
    member is found.  On [null] the read throws. *)
Definition get (v : JSON) (k : string) : Completion JSValue :=
  match v with
  | JNull => Throw (TypeError "Cannot read properties of null")
  | JObj members => Normal (own_property members k)
  | _ => Normal undefined
  end.

(** [v?.k] *)
Definition get_opt (v : JSValue) (k : string) : JSValue :=
  match v with
  | None | Some JNull => undefined
  | Some (JObj members) => own_property members k
  | Some _ => undefined
  end.

(** [v?.[0]]: the first element of an array, the first character of a
    string, the member ["0"] of an object. *)
Definition get_opt_0 (v : JSValue) : JSValue :=
  match v with
  | Some (JArr (x :: _)) => Some x
  | Some (JStr (String c _)) => Some (JStr (String c EmptyString))
  | Some (JObj members) => own_property members "0"
  | _ => undefined
  end.

(** [v === "literal"] *)
Definition strict_equals_string (v : JSValue) (literal : string) : bool :=
  match v with
  | Some (JStr s) => String.eqb s literal
  | _ => false
  end.

Section WithRuntime.
Context (rt : Runtime).

Definition truthy (v : JSValue) : bool :=
  match v with
  | None | Some JNull => false
  | Some (JBool b) => b
  | Some (JNum n) => number_truthy rt n
  | Some (JStr s) => nonempty s
  | Some (JArr _) | Some (JObj _) => true
  end.

(** [a || b] *)
Definition or_else (a b : JSValue) : JSValue := if truthy a then a else b.

(** [String(v)], as string concatenation applies it.  An array is
    its elements joined by commas ([null] prints as nothing); a plain
    object prints as ["[object Object]"] unless one of its members is
    named [toString], which is then read in place of the inherited
    method, is not callable, and makes the conversion throw. *)
Fixpoint toString (v : JSON) : Completion string :=
  match v with
  | JNull => Normal "null"
  | JBool true => Normal "true"
  | JBool false => Normal "false"
  | JNum n => Normal (number_toString rt n)
  | JStr s => Normal s
  | JArr items =>
      parts ← (fix elems (l : list JSON) : Completion (list string) :=
                 match l with
                 | [] => Normal []
                 | x :: l' =>
                     s ← match x with JNull => Normal "" | _ => toString x end ;
                     rest ← elems l' ;
                     Normal (s :: rest)
                 end) items ;
      Normal (join "," parts)
  | JObj members =>
      match own_property members "toString" with
      | Some _ => Throw (TypeError "Cannot convert object to primitive value")
      | None => Normal "[object Object]"
      end
  end.

(** [acc += v] for [v] the value of [e || ""]. *)
Definition append_value (acc : string) (v : JSValue) : Completion string :=
  match v with
  | None => Normal (acc +:+ "undefined")
  | Some j => s ← toString j ; Normal (acc +:+ s)
  end.

(** [JSON.parse(text)] as a completion. *)
Definition parse (text : string) : Completion JSON :=
  match JSON_parse rt text with
  | Some v => Normal v
  | None => Throw (SyntaxError "Unexpected token")
  end.
End WithRuntime.
End Js.

(** The order of strings by code units, which [sort()] without a
    comparator applies. *)
Definition compare_code_units (a b : string) : Z :=
  match String.compare a b with
  | Lt => -1
  | Eq => 0
  | Gt => 1
  end.

(** ** A reference runtime

    The concrete inputs below are evaluated with this instance of
    [Runtime]: a parser for the JSON grammar of ECMA-404 whose strings
    stay below code unit 256, the compact serialiser, and the comparison
    of strings by code units.  Numbers are kept as written, which is what
    [String(n)] prints for an integer literal in canonical form. *)

Module Reference.
Import JsString.

Definition is_json_space (c : ascii) : bool :=
  let n := nat_of_ascii c in
  (n =? 32)%nat || (n =? 9)%nat || (n =? 10)%nat || (n =? 13)%nat.

Fixpoint skip_space (s : string) : string :=
  match s with
  | String c s' => if is_json_space c then skip_space s' else s
  | EmptyString => EmptyString
  end.

Definition is_digit (c : ascii) : bool :=
  let n := nat_of_ascii c in (48 <=? n)%nat && (n <=? 57)%nat.

Fixpoint scan_digits (s : string) : string * string :=
  match s with
  | String c s' =>
      if is_digit c then let '(d, r) := scan_digits s' in (String c d, r)
      else (EmptyString, s)
  | EmptyString => (EmptyString, EmptyString)
  end.

Definition scan_int (s : string) : option (string * string) :=
  match s with
  | String "0" r => Some ("0"%string, r)
  | String c _ =>
      if is_digit c then Some (scan_digits s) else None
  | EmptyString => None
  end.

Definition scan_frac (s : string) : option (string * string) :=
  match s with
  | String "." r =>
      match scan_digits r with
      | (EmptyString, _) => None
      | (d, r') => Some (String "." d, r')
      end
  | _ => Some (EmptyString, s)
  end.

Definition scan_exp (s : string) : option (string * string) :=
  let digits (pre r : string) :=
    match scan_digits r with
    | (EmptyString, _) => None
    | (d, r') => Some (pre +:+ d, r')
    end in
  match s with
  | String e r =>
      if Ascii.eqb e "e" || Ascii.eqb e "E" then
        match r with
        | String sg r' =>
            if Ascii.eqb sg "+" || Ascii.eqb sg "-"
            then digits (String e (String sg EmptyString)) r'
            else digits (String e EmptyString) r
        | EmptyString => None
        end
      else Some (EmptyString, s)
  | EmptyString => Some (EmptyString, s)
  end.

Definition scan_number (s : string) : option (string * string) :=
  let '(sign, r0) :=
    match s with
    | String "-" r => ("-"%string, r)
    | _ => (EmptyString, s)
    end in
  '(i, r1) ← scan_int r0;
  '(f, r2) ← scan_frac r1;
  '(e, r3) ← scan_exp r2;
  Some (sign +:+ i +:+ f +:+ e, r3).

Definition hex_digit (c : ascii) : option nat :=
  let n := nat_of_ascii c in
  if (48 <=? n)%nat && (n <=? 57)%nat then Some (n - 48)%nat
  else if (65 <=? n)%nat && (n <=? 70)%nat then Some (n - 55)%nat
  else if (97 <=? n)%nat && (n <=? 102)%nat then Some (n - 87)%nat
  else None.

Definition simple_escape (c : ascii) : option ascii :=
  if Ascii.eqb c (ascii_of_nat 34) then Some (ascii_of_nat 34)
  else if Ascii.eqb c "\" then Some "\"%char
  else if Ascii.eqb c "/" then Some "/"%char
  else if Ascii.eqb c "b" then Some (ascii_of_nat 8)
  else if Ascii.eqb c "f" then Some (ascii_of_nat 12)
  else if Ascii.eqb c "n" then Some (ascii_of_nat 10)
  else if Ascii.eqb c "r" then Some (ascii_of_nat 13)
  else if Ascii.eqb c "t" then Some (ascii_of_nat 9)
  else None.

Definition cons_char (c : ascii) (r : option (string * string))
  : option (string * string) :=
  '(s, rest) ← r; Some (String c s, rest).

(** The characters of a string literal, after its opening quote. *)
Fixpoint scan_string (s : string) : option (string * string) :=
  match s with
  | EmptyString => None
  | String c s' =>
      if Ascii.eqb c (ascii_of_nat 34) then Some (EmptyString, s')
      else if Ascii.eqb c "\" then
        match s' with
        | String e s'' =>
            match simple_escape e with
            | Some ch => cons_char ch (scan_string s'')
            | None =>
                match e, s'' with
                | "u"%char, String h1 (String h2 (String h3 (String h4 rest))) =>
                    match hex_digit h1, hex_digit h2, hex_digit h3, hex_digit h4 with
                    | Some 0%nat, Some 0%nat, Some a, Some b =>
                        cons_char (ascii_of_nat (16 * a + b)) (scan_string rest)
                    | _, _, _, _ => None
                    end
                | _, _ => None
                end
            end
        | EmptyString => None
        end
      else if (nat_of_ascii c <? 32)%nat then None
      else cons_char c (scan_string s')
  end.

Definition expect (c : ascii) (s : string) : option string :=
  match s with
  | String c' r => if Ascii.eqb c c' then Some r else None
  | EmptyString => None
  end.

Definition literal (word : string) (v : JSON) (s : string) : option (JSON * string) :=
  if String.prefix word s then Some (v, slice_from (String.length word) s) else None.

(** The members an object ends up with: a repeated key keeps its first
    place and its last value. *)
Fixpoint distinct_members (seen : list string) (ms : list (string * JSON))
  : list (string * JSON) :=
  match ms with
  | [] => []
  | (k, v) :: rest =>
      if bool_decide (k ∈ seen) then distinct_members seen rest
      else (k, default v (Js.own_property rest k)) :: distinct_members (k :: seen) rest
  end.

Fixpoint parse_value (fuel : nat) (s : string) : option (JSON * string) :=
  match fuel with
  | O => None
  | S fuel' =>
      match skip_space s with
      | EmptyString => None
      | String c r as s0 =>
          if Ascii.eqb c "{" then
            match skip_space r with
            | String "}" r' => Some (JObj [], r')
            | r' => '(ms, r'') ← parse_members fuel' r'; Some (JObj (distinct_members [] ms), r'')
            end
          else if Ascii.eqb c "[" then
            match skip_space r with
            | String "]" r' => Some (JArr [], r')
            | r' => '(vs, r'') ← parse_elements fuel' r'; Some (JArr vs, r'')
            end
          else if Ascii.eqb c (ascii_of_nat 34) then
            '(str, r') ← scan_string r; Some (JStr str, r')
          else if Ascii.eqb c "t" then literal "true" (JBool true) s0
          else if Ascii.eqb c "f" then literal "false" (JBool false) s0
          else if Ascii.eqb c "n" then literal "null" JNull s0
          else '(n, r') ← scan_number s0; Some (JNum n, r')
      end
  end
with parse_elements (fuel : nat) (s : string) : option (list JSON * string) :=
  match fuel with
  | O => None
  | S fuel' =>
      '(v, r) ← parse_value fuel' s;
      match skip_space r with
      | String "," r' => '(vs, r'') ← parse_elements fuel' r'; Some (v :: vs, r'')
      | String "]" r' => Some ([v], r')
      | _ => None
      end
  end
with parse_members (fuel : nat) (s : string) : option (list (string * JSON) * string) :=
  match fuel with
  | O => None
  | S fuel' =>
      r0 ← expect (ascii_of_nat 34) (skip_space s);
      '(k, r1) ← scan_string r0;
      r2 ← expect ":" (skip_space r1);
      '(v, r3) ← parse_value fuel' r2;
      match skip_space r3 with
      | String "," r' => '(ms, r'') ← parse_members fuel' r'; Some ((k, v) :: ms, r'')
      | String "}" r' => Some ([(k, v)], r')
      | _ => None
      end
  end.

Definition JSON_parse (text : string) : option JSON :=
  '(v, rest) ← parse_value (S (String.length text)) text;
  match skip_space rest with
  | EmptyString => Some v
  | _ => None
  end.

Definition hex_char (n : nat) : ascii :=
  ascii_of_nat (if (n <? 10)%nat then 48 + n else 87 + n).

Fixpoint quote_chars (s : string) : string :=
  match s with
  | EmptyString => EmptyString
  | String c s' =>
      let n := nat_of_ascii c in
      (if (n =? 34)%nat then String "\" (String c EmptyString)
       else if (n =? 92)%nat then "\\"
       else if (n =? 8)%nat then "\b"
       else if (n =? 12)%nat then "\f"
       else if (n =? 10)%nat then "\n"
       else if (n =? 13)%nat then "\r"
       else if (n =? 9)%nat then "\t"
       else if (n <? 32)%nat then
         "\u00" +:+ String (hex_char (n / 16)) (String (hex_char (n mod 16)) EmptyString)
       else String c EmptyString) +:+ quote_chars s'
  end.

Definition quote (s : string) : string :=
  String (ascii_of_nat 34) (quote_chars s) +:+ String (ascii_of_nat 34) EmptyString.

Fixpoint JSON_stringify (v : JSON) : string :=
  match v with
  | JNull => "null"
  | JBool true => "true"
  | JBool false => "false"
  | JNum n => n
  | JStr s => quote s
  | JArr items => "[" +:+ join "," (map JSON_stringify items) +:+ "]"
  | JObj members =>
      "{" +:+ join ","
        ((fix each (ms : list (string * JSON)) : list string :=
            match ms with
            | [] => []
            | (k, v) :: rest => (quote k +:+ ":" +:+ JSON_stringify v) :: each rest
            end) members) +:+ "}"
  end.

(** A number literal is [0] when its mantissa has no other digit. *)
Fixpoint number_truthy (lexeme : string) : bool :=
  match lexeme with
  | EmptyString => false
  | String c r =>
      if Ascii.eqb c "e" || Ascii.eqb c "E" then false
      else if is_digit c && negb (Ascii.eqb c "0") then true
      else number_truthy r
  end.

Definition localeCompare : string → string → Z := compare_code_units.

Definition runtime : Runtime :=
  Build_Runtime JSON_parse JSON_stringify number_truthy (λ lexeme, lexeme) localeCompare.
End Reference.


(** ** [lib/checks.ts]: data model *)

Inductive ProviderType := openai | gemini | anthropic.

Inductive HealthStatus := operational | degraded | failed | maintenance.

Global Instance ProviderType_eq_dec : EqDecision ProviderType.
Proof. solve_decision. Defined.
Global Instance HealthStatus_eq_dec : EqDecision HealthStatus.
Proof. solve_decision. Defined.

(** A row of [check_configs] as the core reads it.  [groupName] and
    [is_maintenance] are read by [group-data.ts] only. *)
Record ProviderConfig := {
  id : string;
  name : string;
  type : ProviderType;
  endpoint : string;
  model : string;
  apiKey : string;
  groupName : option string;
  is_maintenance : bool;
}.

Global Instance ProviderConfig_eq_dec : EqDecision ProviderConfig.
Proof. solve_decision. Defined.

Record OfficialStatus := {
  official_status : string;
  official_message : string;
  official_checkedAt : Z;
}.

(** [message] is declared a string; at run time [extractMessage] can hand
    over any JSON value, so the field holds a [JSON].  [checkedAt] is the
    instant that [toISOString] prints, in milliseconds. *)
Record CheckResult := {
  r_id : string;
  r_name : string;
  r_type : ProviderType;
  r_endpoint : string;
  r_model : string;
  status : HealthStatus;
  latencyMs : option Z;
  pingLatencyMs : option Z;
  checkedAt : Z;
  message : JSON;
  r_groupName : option string;
  officialStatus : option OfficialStatus;
}.

Definition DEFAULT_ENDPOINTS (t : ProviderType) : string :=
  match t with
  | openai => "https://api.openai.com/v1/chat/completions"
  | gemini => "https://generativelanguage.googleapis.com/v1beta"
  | anthropic => "https://api.anthropic.com/v1/messages"
  end.

Definition DEFAULT_TIMEOUT_MS : Z := 15000.
Definition DEGRADED_THRESHOLD_MS : Z := 6000.

(** ** The network, as one probe sees it *)

(** What [reader.read()] delivers: the decoded chunks in order, then
    either [done] or a rejection.  [TextDecoder] in streaming mode is
    left out: a chunk is the text it decodes to. *)
Record ReaderStream := {
  chunks : list string;
  read_error : option JSError;
}.

Record Response := {
  http_status : Z;
  text : Completion string;            (* [await response.text()] *)
  body : option ReaderStream;          (* [response.body] *)
}.

Definition ok (r : Response) : bool :=
  bool_decide (200 ≤ http_status r ≤ 299).

Inductive FetchOutcome :=
| FetchRejects (e : JSError)
| FetchResolves (r : Response).

(** One run of a check: the three clock readings it takes and what
    [fetch] does.  [finishedAt] is the [Date.now()] read once the
    response is known to be an error, or once the stream is parsed;
    [stampedAt] is the [new Date()] of the result. *)
Record Exchange := {
  startedAt : Z;
  fetched : FetchOutcome;
  finishedAt : Z;
  stampedAt : Z;
}.

Definition AbortError : JSError :=
  {| err_name := "AbortError"; err_message := "This operation was aborted" |}.

(** ** [Array.prototype.sort] and [Promise.all] *)

Section Arrays.
Context {A : Type}.

Fixpoint insert_sorted (cmp : A → A → Z) (x : A) (l : list A) : list A :=
  match l with
  | [] => [x]
  | y :: l' =>
      if bool_decide (cmp x y ≤ 0) then x :: l else y :: insert_sorted cmp x l'
  end.

(** [l.sort(cmp)]: the stable sort, by insertion from the right. *)
Definition sort (cmp : A → A → Z) (l : list A) : list A :=
  foldr (insert_sorted cmp) [] l.

(** [Promise.all(promises)], where [order] lists the indices of the
    promises in the order in which they settle.  A fulfilled promise
    stores its value at its own index; the first rejection rejects the
    whole; the result is [None] while some promise has not settled. *)
Fixpoint Promise_all_go (promises : list (Completion A))
    (values : list (option A)) (order : list nat) : option (Completion (list A)) :=
  match mapM (λ v : option A, v) values with
  | Some vs => Some (Normal vs)
  | None =>
      match order with
      | [] => None
      | i :: rest =>
          match promises !! i with
          | Some (Normal v) => Promise_all_go promises (<[i := Some v]> values) rest
          | Some (Throw e) => Some (Throw e)
          | None => Promise_all_go promises values rest
          end
      end
  end.

Definition Promise_all (promises : list (Completion A)) (order : list nat)
  : option (Completion (list A)) :=
  Promise_all_go promises (replicate (length promises) None) order.
End Arrays.

(** ** [lib/checks.ts] *)

Module Checks.
Import JsString.

Section WithRuntime.
Context (rt : Runtime).

(** *** Stream parsers *)

(** The body of the [try] in [parseOpenAIStream]. *)
Definition openai_event (fullResponse data : string) : Completion string :=
  parsed ← Js.parse rt data;
  choices ← Js.get parsed "choices";
  let content :=
    Js.or_else rt
      (Js.get_opt (Js.get_opt (Js.get_opt_0 choices) "delta") "content")
      (Some (JStr "")) in
  Js.append_value rt fullResponse content.

(** The [for (const line of lines)] loop: [inr] is the
    [return fullResponse] at ["[DONE]"], [inl] the end of the loop. *)
Fixpoint openai_lines (lines : list string) (fullResponse : string)
  : string + string :=
  match lines with
  | [] => inl fullResponse
  | line :: rest =>
      if startsWith line "data: " then
        let data := slice_from 6 line in
        if String.eqb data "[DONE]" then inr fullResponse
        else openai_lines rest (try_ignore (openai_event fullResponse data) fullResponse)
      else openai_lines rest fullResponse
  end.

Definition nonblank (line : string) : bool := nonempty (trim line).

Fixpoint parseOpenAI_loop (cs : list string) (ending : option JSError)
    (fullResponse : string) : Completion string :=
  match cs with
  | [] =>
      match ending with
      | None => Normal fullResponse
      | Some e => Throw e
      end
  | chunk :: rest =>
      let lines := filter (λ line, nonblank line = true) (split newline chunk) in
      match openai_lines lines fullResponse with
      | inr full' => Normal full'
      | inl full' => parseOpenAI_loop rest ending full'
      end
  end.

Definition parseOpenAIStream (reader : ReaderStream) : Completion string :=
  parseOpenAI_loop (chunks reader) (read_error reader) "".

(** The body of the [try] in [parseAnthropicStream]. *)
Definition anthropic_event (fullResponse data : string) : Completion string :=
  parsed ← Js.parse rt data;
  type ← Js.get parsed "type";
  if Js.strict_equals_string type "content_block_delta" then
    delta ← Js.get parsed "delta";
    let content := Js.or_else rt (Js.get_opt delta "text") (Some (JStr "")) in
    Js.append_value rt fullResponse content
  else Normal fullResponse.

Fixpoint anthropic_lines (lines : list string) (fullResponse : string) : string :=
  match lines with
  | [] => fullResponse
  | line :: rest =>
      if startsWith line "data: " then
        anthropic_lines rest
          (try_ignore (anthropic_event fullResponse (slice_from 6 line)) fullResponse)
      else anthropic_lines rest fullResponse
  end.

(** [lines.pop() || ""] and what is left in [lines]. *)
Definition pop_or_empty (lines : list string) : list string * string :=
  match reverse lines with
  | [] => ([], "")
  | x :: before => (reverse before, x)
  end.

Fixpoint parseAnthropic_loop (cs : list string) (ending : option JSError)
    (fullResponse buffer : string) : Completion string :=
  match cs with
  | [] =>
      match ending with
      | None => Normal fullResponse
      | Some e => Throw e
      end
  | chunk :: rest =>
      let '(lines, buffer') := pop_or_empty (split newline (buffer +:+ chunk)) in
      parseAnthropic_loop rest ending (anthropic_lines lines fullResponse) buffer'
  end.

Definition parseAnthropicStream (reader : ReaderStream) : Completion string :=
  parseAnthropic_loop (chunks reader) (read_error reader) "" "".

(** The body of both [try] blocks in [parseGeminiStream]. *)
Definition gemini_event (fullResponse text : string) : Completion string :=
  parsed ← Js.parse rt text;
  candidates ← Js.get parsed "candidates";
  let parts := Js.get_opt (Js.get_opt (Js.get_opt_0 candidates) "content") "parts" in
  let content :=
    Js.or_else rt (Js.get_opt (Js.get_opt_0 parts) "text") (Some (JStr "")) in
  Js.append_value rt fullResponse content.

Definition gemini_object (fullResponse text : string) : string :=
  try_ignore (gemini_event fullResponse text) fullResponse.

(** [for (let i = 0; i < jsonObjects.length - 1; i++)] folded with
    [buffer = jsonObjects[jsonObjects.length - 1] || ""]. *)
Fixpoint gemini_objects (jsonObjects : list string) (fullResponse : string)
  : string * string :=
  match jsonObjects with
  | [] => (fullResponse, "")
  | [last] => (fullResponse, last)
  | object :: rest => gemini_objects rest (gemini_object fullResponse object)
  end.

Fixpoint parseGemini_loop (cs : list string) (ending : option JSError)
    (fullResponse buffer : string) : Completion string :=
  match cs with
  | [] =>
      match ending with
      | None =>
          Normal (if nonblank buffer then gemini_object fullResponse buffer
                  else fullResponse)
      | Some e => Throw e
      end
  | chunk :: rest =>
      let jsonObjects :=
        filter (λ s, nonblank s = true) (split newline (buffer +:+ chunk)) in
      let '(full', buffer') := gemini_objects jsonObjects fullResponse in
      parseGemini_loop rest ending full' buffer'
  end.

Definition parseGeminiStream (reader : ReaderStream) : Completion string :=
  parseGemini_loop (chunks reader) (read_error reader) "" "".

(** *** Endpoints *)

Definition ensurePath (endpoint fallbackPath : string) : string :=
  if negb (nonempty endpoint) then fallbackPath
  else if endsWith endpoint fallbackPath
          || includes endpoint "/v1/"
          || includes endpoint "/deployments/"
          || includes endpoint "?"
  then endpoint
  else strip_trailing_slash endpoint +:+ fallbackPath.

Definition appendQuery (url query : string) : string :=
  if includes url "?" then url +:+ "&" +:+ query else url +:+ "?" +:+ query.

Definition gemini_url (config : ProviderConfig) : string :=
  let normalized :=
    if endsWith (endpoint config) ":streamGenerateContent" then endpoint config
    else if endsWith (endpoint config) ":generateContent"
    then replace ":generateContent" ":streamGenerateContent" (endpoint config)
    else strip_trailing_slash (endpoint config) +:+ "/models/" +:+ model config
         +:+ ":streamGenerateContent" in
  appendQuery normalized ("key=" +:+ apiKey config).

(** *** [extractMessage] *)

Definition extractMessage (body : string) : JSValue :=
  if negb (nonempty body) then Some (JStr "")
  else
    match JSON_parse rt body with
    | Some parsed =>
        Js.or_else rt (Js.get_opt (Js.get_opt (Some parsed) "error") "message")
          (Js.or_else rt (Js.get_opt (Some parsed) "error")
             (Js.or_else rt (Js.get_opt (Some parsed) "message")
                (Some (JStr (JSON_stringify rt parsed)))))
    | None => Some (JStr (slice_to 280 body))
    end.

(** *** [runStreamCheck] *)

Definition StreamParser := ReaderStream → Completion string.

Record StreamParams := {
  url : string;
  displayEndpoint : string;
  parseStream : StreamParser;
}.

Definition shown_endpoint (params : StreamParams) : string :=
  if nonempty (displayEndpoint params) then displayEndpoint params else url params.

Definition result_of (config : ProviderConfig) (shown : string)
    (st : HealthStatus) (latency : option Z) (at_ : Z) (msg : JSON) : CheckResult :=
  {| r_id := id config; r_name := name config; r_type := type config;
     r_endpoint := shown; r_model := model config;
     status := st; latencyMs := latency; pingLatencyMs := None;
     checkedAt := at_; message := msg;
     r_groupName := None; officialStatus := None |}.

(** [err?.name === "AbortError" ? "请求超时" : err?.message || "未知错误"] *)
Definition failure_message (err : JSError) : string :=
  if String.eqb (err_name err) "AbortError" then "请求超时"
  else if nonempty (err_message err) then err_message err
  else "未知错误".

Definition success_message (st : HealthStatus) (latency : Z) : string :=
  match st with
  | degraded => "响应成功但耗时 " +:+ pretty latency +:+ "ms"
  | _ => "流式响应正常 (" +:+ pretty latency +:+ "ms)"
  end.

Definition classify (latency : Z) : HealthStatus :=
  if bool_decide (latency ≤ DEGRADED_THRESHOLD_MS) then operational else degraded.

(** The [try] block of [runStreamCheck]. *)
Definition runStreamCheck_try (config : ProviderConfig) (params : StreamParams)
    (x : Exchange) : Completion CheckResult :=
  response ← match fetched x with
             | FetchRejects e => Throw e
             | FetchResolves r => Normal r
             end;
  if negb (ok response) then
    let latency := finishedAt x - startedAt x in
    errorBody ← text response;
    let msg :=
      Js.or_else rt (extractMessage errorBody)
        (Some (JStr ("HTTP " +:+ pretty (http_status response)))) in
    Normal (result_of config (shown_endpoint params) failed (Some latency)
              (stampedAt x) (default JNull msg))
  else
    match body response with
    | None => Throw {| err_name := "Error"; err_message := "响应体为空" |}
    | Some reader =>
        _ ← parseStream params reader;
        let latency := finishedAt x - startedAt x in
        let st := classify latency in
        Normal (result_of config (shown_endpoint params) st (Some latency)
                  (stampedAt x) (JStr (success_message st latency)))
    end.

Definition runStreamCheck (config : ProviderConfig) (params : StreamParams)
    (x : Exchange) : Completion CheckResult :=
  try_catch (runStreamCheck_try config params x)
    (λ err, Normal (result_of config (shown_endpoint params) failed None
                      (stampedAt x) (JStr (failure_message err)))).

Definition checkOpenAI (config : ProviderConfig) : Exchange → Completion CheckResult :=
  runStreamCheck config
    {| url := ensurePath (endpoint config) "/v1/chat/completions";
       displayEndpoint := endpoint config;
       parseStream := parseOpenAIStream |}.

Definition checkGemini (config : ProviderConfig) : Exchange → Completion CheckResult :=
  runStreamCheck config
    {| url := gemini_url config;
       displayEndpoint := endpoint config;
       parseStream := parseGeminiStream |}.

Definition checkAnthropic (config : ProviderConfig) : Exchange → Completion CheckResult :=
  runStreamCheck config
    {| url := ensurePath (endpoint config) "/v1/messages";
       displayEndpoint := endpoint config;
       parseStream := parseAnthropicStream |}.

Definition checkProvider (config : ProviderConfig) : Exchange → Completion CheckResult :=
  match type config with
  | openai => checkOpenAI config
  | gemini => checkGemini config
  | anthropic => checkAnthropic config
  end.

(** *** [runProviderChecks] *)

(** The function mapped over [configs]: the check of the [i]-th
    config, run against the [i]-th exchange of the network. *)
Definition guarded_check (network : nat → Exchange) (i : nat)
    (config : ProviderConfig) : Completion CheckResult :=
  try_catch (checkProvider config (network i))
    (λ err, Normal (result_of config (endpoint config) failed None
                      (stampedAt (network i))
                      (JStr (if nonempty (err_message err) then err_message err
                             else "未知错误")))).

Definition by_name (a b : CheckResult) : Z :=
  localeCompare rt (r_name a) (r_name b).

(** [configs] is the list the function works on; [order] is the order
    in which the checks settle. *)
Definition runProviderChecks (configs : list ProviderConfig)
    (network : nat → Exchange) (order : list nat)
  : option (Completion (list CheckResult)) :=
  match configs with
  | [] => Some (Normal [])
  | _ =>
      settled ← Promise_all (imap (guarded_check network) configs) order;
      Some (results ← settled; Normal (sort by_name results))
  end.

(** *** [runHttpCheck] and [readBody]: the check that reads the whole
    body *)

Record HttpParams := {
  http_url : string;
  http_displayEndpoint : string;
}.

Definition http_shown_endpoint (params : HttpParams) : string :=
  if nonempty (http_displayEndpoint params) then http_displayEndpoint params
  else http_url params.

Definition readBody (response : Response) : Completion string := text response.

(** The [try] block of [runHttpCheck].  The one [Date.now()] it reads
    after [fetch] is [finishedAt]. *)
Definition runHttpCheck_try (config : ProviderConfig) (params : HttpParams)
    (x : Exchange) : Completion CheckResult :=
  response ← match fetched x with
             | FetchRejects e => Throw e
             | FetchResolves r => Normal r
             end;
  let latency := finishedAt x - startedAt x in
  body ← readBody response;
  let st :=
    if ok response && bool_decide (latency ≤ DEGRADED_THRESHOLD_MS) then operational
    else if ok response then degraded
    else failed in
  let msg :=
    if ok response then
      Some (JStr (match st with
                  | degraded => "响应成功但耗时 " +:+ pretty latency +:+ "ms"
                  | _ => "响应正常 (HTTP " +:+ pretty (http_status response) +:+ ")"
                  end))
    else Js.or_else rt (extractMessage body)
           (Some (JStr ("HTTP " +:+ pretty (http_status response)))) in
  Normal (result_of config (http_shown_endpoint params) st (Some latency)
            (stampedAt x) (default JNull msg)).

Definition runHttpCheck (config : ProviderConfig) (params : HttpParams)
    (x : Exchange) : Completion CheckResult :=
  try_catch (runHttpCheck_try config params x)
    (λ err, Normal (result_of config (http_shown_endpoint params) failed None
                      (stampedAt x) (JStr (failure_message err)))).
End WithRuntime.

(** *** [loadProviderConfigs], [normalizeType] and [maskKey] *)

(** [value || fallback] for an optional string. *)
Definition string_or (value : option string) (fallback : string) : string :=
  match value with
  | Some (String c s) => String c s
  | _ => fallback
  end.

Definition maskKey (key : option string) : string :=
  match key with
  | None | Some EmptyString => ""
  | Some key =>
      if bool_decide (String.length key ≤ 4)%nat then "****"
      else slice_to 4 key +:+ "****" +:+ slice_last 2 key
  end.

Definition type_name (t : ProviderType) : string :=
  match t with
  | openai => "openai"
  | gemini => "gemini"
  | anthropic => "anthropic"
  end.

(** How a template literal prints an optional value. *)
Definition printed (value : option string) : string := default "undefined" value.

Section Environment.
(** [String.prototype.toUpperCase] and [toLowerCase], which the
    platform defines, and [process.env]. *)
Context (toUpperCase toLowerCase : string → string).
Context (env : string → option string).

Definition normalizeType (value : option string) : option ProviderType :=
  match value with
  | None | Some EmptyString => None
  | Some value =>
      let lower := toLowerCase value in
      if String.eqb lower "openai" then Some openai
      else if String.eqb lower "gemini" then Some gemini
      else if String.eqb lower "anthropic" then Some anthropic
      else None
  end.

(** [CHECK_GROUPS], split at the commas, trimmed, without the empty
    items. *)
Definition groupList : list string :=
  filter (λ item, nonempty item = true)
    (trim <$> split ","%char (default "" (env "CHECK_GROUPS"))).

(** [read(suffix)] for the group [groupId]. *)
Definition read (groupId suffix : string) : option string :=
  trim <$> env ("CHECK_" +:+ toUpperCase groupId +:+ "_" +:+ suffix).

(** One turn of the loop over [groupList]: the config pushed, or the
    warning printed for a group that is skipped. *)
Definition load_group (groupId : string) : ProviderConfig + string :=
  let type := normalizeType (read groupId "TYPE") in
  let apiKey := read groupId "KEY" in
  let model := read groupId "MODEL" in
  let endpoint :=
    string_or (read groupId "ENDPOINT") (DEFAULT_ENDPOINTS (default openai type)) in
  let name := string_or (read groupId "NAME") groupId in
  match type, apiKey, model with
  | Some t, Some (String k key), Some (String m model') =>
      inl {| id := groupId; name := name; type := t; endpoint := endpoint;
             model := String m model'; apiKey := String k key;
             groupName := None; is_maintenance := false |}
  | _, _, _ =>
      inr ("[check-cx] 跳过配置 " +:+ groupId +:+ "：缺少TYPE/KEY/MODEL，其中 type="
           +:+ printed (type_name <$> type) +:+ ", key=" +:+ maskKey apiKey
           +:+ ", model=" +:+ printed model)
  end.

(** The configs returned, and the lines written by [console.warn]. *)
Fixpoint load_groups (groups : list string) : list ProviderConfig * list string :=
  match groups with
  | [] => ([], [])
  | groupId :: rest =>
      let '(configs, warnings) := load_groups rest in
      match load_group groupId with
      | inl config => (config :: configs, warnings)
      | inr warning => (configs, warning :: warnings)
      end
  end.

Definition loadProviderConfigs : list ProviderConfig * list string :=
  load_groups groupList.
End Environment.
End Checks.

(** ** [lib/providers/openai.ts]: the check through the [openai] SDK *)

Module OpenAIProvider.

(** What iterating the SDK's stream delivers: the parsed chunks, then
    the end of the stream or an error. *)
Record SdkStream := {
  sdk_chunks : list JSON;
  sdk_error : option JSError;
}.

(** [client.chat.completions.create] resolves to a stream when the
    response is 2xx and rejects otherwise: with the error of an error
    response ([error_status] is its status), or with a connection or
    abort error when there was no response. *)
Inductive CreateOutcome :=
| CreateRejects (error_status : option Z) (e : JSError)
| CreateResolves (stream : SdkStream).

Record SdkExchange := {
  sdk_startedAt : Z;
  created : CreateOutcome;
  sdk_finishedAt : Z;
  sdk_stampedAt : Z;
}.

Definition response_2xx (x : SdkExchange) : bool :=
  match created x with
  | CreateResolves _ => true
  | CreateRejects _ _ => false
  end.

(** [for await (const chunk of stream) { chunk.choices?.[0]?.delta?.content; }] *)
Fixpoint read_stream (cs : list JSON) (ending : option JSError) : Completion unit :=
  match cs with
  | [] =>
      match ending with
      | None => Normal ()
      | Some e => Throw e
      end
  | chunk :: rest => _ ← Js.get chunk "choices"; read_stream rest ending
  end.

Definition displayEndpoint (config : ProviderConfig) : string :=
  if JsString.nonempty (endpoint config) then endpoint config
  else DEFAULT_ENDPOINTS openai.

(** The [baseURL] handed to the SDK. *)
Definition deriveOpenAIBaseURL (endpoint : option string) : string :=
  let raw := Checks.string_or endpoint (DEFAULT_ENDPOINTS openai) in
  let withoutQuery := default "" (head (JsString.split "?" raw)) in
  let chatIndex := JsString.indexOf withoutQuery "/chat/completions" in
  let base :=
    if bool_decide (chatIndex ≠ -1) then JsString.slice_to_index chatIndex withoutQuery
    else withoutQuery in
  let v1Index := JsString.indexOf base "/v1" in
  if bool_decide (v1Index ≠ -1)
  then JsString.slice_to_index (v1Index + Z.of_nat (String.length "/v1")) base
  else if JsString.includes base "api.openai.com"
  then JsString.strip_trailing_slash base +:+ "/v1"
  else base.

Definition checkOpenAI_try (config : ProviderConfig) (x : SdkExchange)
  : Completion CheckResult :=
  stream ← match created x with
           | CreateRejects _ e => Throw e
           | CreateResolves stream => Normal stream
           end;
  _ ← read_stream (sdk_chunks stream) (sdk_error stream);
  let latency := sdk_finishedAt x - sdk_startedAt x in
  let st := Checks.classify latency in
  Normal (Checks.result_of config (displayEndpoint config) st (Some latency)
            (sdk_stampedAt x) (JStr (Checks.success_message st latency))).

Definition checkOpenAI (config : ProviderConfig) (x : SdkExchange)
  : Completion CheckResult :=
  try_catch (checkOpenAI_try config x)
    (λ err, Normal (Checks.result_of config (displayEndpoint config) failed None
                      (sdk_stampedAt x) (JStr (Checks.failure_message err)))).
End OpenAIProvider.

(** ** The SQL helpers [get_recent_check_history] and [prune_check_history] *)

Module HistorySql.

Record HistoryRow := {
  history_id : Z;
  config_id : string;
  h_status : string;
  latency_ms : option Z;
  ping_latency_ms : option Z;
  checked_at : Z;
  h_message : string;
}.

Record ConfigRow := {
  c_id : string;
  c_name : string;
  c_type : string;
  c_model : string;
  c_endpoint : string;
  c_group_name : option string;
}.

Record RecentRow := {
  o_config_id : string;
  o_status : string;
  o_latency_ms : option Z;
  o_ping_latency_ms : option Z;
  o_checked_at : Z;
  o_message : string;
  o_name : string;
  o_type : string;
  o_model : string;
  o_endpoint : string;
  o_group_name : option string;
}.

Global Instance HistoryRow_eq_dec : EqDecision HistoryRow.
Proof. solve_decision. Defined.

(** [order by checked_at desc] *)
Definition newest_first (a b : HistoryRow) : Z := checked_at b - checked_at a.

Definition of_config (c : string) (rows : list HistoryRow) : list HistoryRow :=
  filter (λ r, config_id r = c) rows.

(** [row_number() over (partition by config_id order by checked_at desc)]:
    every row with its rank among the rows of its config.  Rows with
    the same [checked_at] are ranked in the order of the table. *)
Definition number_rows (rows : list HistoryRow) : list (HistoryRow * Z) :=
  imap (λ i r, (r, Z.of_nat (S i))) rows.

Definition ranked (rows : list HistoryRow) : list (HistoryRow * Z) :=
  c ← remove_dups (map config_id rows);
  number_rows (sort newest_first (of_config c rows)).

(** No two rows of one config have the same [checked_at]: on such a
    table [order by checked_at desc] orders the rows of a config in one
    way only, and [row_number()] has no tie to break. *)
Definition untied (rows : list HistoryRow) : Prop :=
  NoDup ((λ r, (config_id r, checked_at r)) <$> rows).

Definition prune_check_history (limit_per_config : Z)
    (check_history : list HistoryRow) : list HistoryRow :=
  let doomed :=
    map (λ rn, history_id rn.1)
        (filter (λ rn : HistoryRow * Z, limit_per_config < rn.2) (ranked check_history)) in
  filter (λ r, history_id r ∉ doomed) check_history.

Definition default_limit_per_config : Z := 60.

Definition recent_row (r : HistoryRow) (c : ConfigRow) : RecentRow :=
  {| o_config_id := config_id r; o_status := h_status r;
     o_latency_ms := latency_ms r; o_ping_latency_ms := ping_latency_ms r;
     o_checked_at := checked_at r; o_message := h_message r;
     o_name := c_name c; o_type := c_type c; o_model := c_model c;
     o_endpoint := c_endpoint c; o_group_name := c_group_name c |}.

(** [target_config_ids is null or h.config_id = any(target_config_ids)] *)
Definition targeted (target_config_ids : option (list string)) (h : HistoryRow) : bool :=
  match target_config_ids with
  | None => true
  | Some ids => bool_decide (config_id h ∈ ids)
  end.

Section Collation.
(** The comparison of [text] values under the collation of the
    database. *)
Context (collate : string → string → Z).

(** [order by c.name asc, r.checked_at desc] *)
Definition by_name_then_newest (a b : RecentRow) : Z :=
  let c := collate (o_name a) (o_name b) in
  if bool_decide (c = 0) then o_checked_at b - o_checked_at a else c.

Definition get_recent_check_history (limit_per_config : Z)
    (target_config_ids : option (list string))
    (check_history : list HistoryRow) (check_configs : list ConfigRow)
  : list RecentRow :=
  let selected := filter (λ h, targeted target_config_ids h = true) check_history in
  sort by_name_then_newest
    (rn ← filter (λ rn : HistoryRow * Z, rn.2 ≤ limit_per_config) (ranked selected);
     c ← filter (λ c, c_id c = config_id rn.1) check_configs;
     [recent_row rn.1 c]).
End Collation.

(** The [insert into check_history] that precedes the pruning. *)
Definition insert_rows (new : list HistoryRow) (check_history : list HistoryRow)
  : list HistoryRow :=
  check_history ++ new.
End HistorySql.

(** ** [lib/core/group-data.ts] *)

Module GroupData.
Import JsString.

Inductive RefreshMode := always | missing | never.

(** A [HistorySnapshot] object: its entries in the order of
    [Object.entries]. *)
Definition HistorySnapshot := list (string * list CheckResult).

Definition PromiseId := nat.

Record PingCacheEntry := {
  history : option HistorySnapshot;
  lastPingAt : Z;
  inflight : option PromiseId;
}.

Record ProviderTimeline := {
  t_id : string;
  items : list CheckResult;
  latest : CheckResult;
}.

Record GroupDashboardData := {
  d_groupName : string;
  displayName : string;
  providerTimelines : list ProviderTimeline;
  lastUpdated : option Z;
  total : nat;
  d_pollIntervalLabel : string;
  d_pollIntervalMs : Z;
  generatedAt : Z;
}.

Definition UNGROUPED_KEY : string := "__ungrouped__".
Definition UNGROUPED_DISPLAY_NAME : string := "未分组".

(** Modelled from the spec: [getPingCacheEntry] of
    [lib/core/global-state.ts], which is not among the sources.  The
    entry of a key is created on first access with no history and no
    refresh in flight, and is the same object on every later access. *)
Definition new_entry : PingCacheEntry :=
  {| history := None; lastPingAt := 0; inflight := None |}.

Definition getPingCacheEntry (cacheKey : string) (cache : gmap string PingCacheEntry)
  : gmap string PingCacheEntry :=
  match cache !! cacheKey with
  | Some _ => cache
  | None => <[cacheKey := new_entry]> cache
  end.

Definition entry_of (cacheKey : string) (cache : gmap string PingCacheEntry)
  : PingCacheEntry :=
  default new_entry (cache !! cacheKey).

(** Two caches that hold the same entry under every key. *)
Definition same_entries (cache cache' : gmap string PingCacheEntry) : Prop :=
  ∀ cacheKey, entry_of cacheKey cache = entry_of cacheKey cache'.

(** *** The steps of [refreshHistory] on the cache entry *)

(** How [refreshHistory] leaves its synchronous prefix. *)
Inductive RefreshPath :=
| NothingAllowed                       (* [return {}] *)
| Cached (h : HistorySnapshot)         (* [return cacheEntry.history] *)
| Joined (p : PromiseId)               (* [return cacheEntry.inflight] *)
| Started.                             (* a new round of checks *)

Definition refresh_path (nothing_allowed : bool) (pollIntervalMs now : Z)
    (cacheEntry : PingCacheEntry) : RefreshPath :=
  if nothing_allowed then NothingAllowed
  else
    match history cacheEntry with
    | Some h =>
        if bool_decide (now - lastPingAt cacheEntry < pollIntervalMs) then Cached h
        else match inflight cacheEntry with
             | Some p => Joined p
             | None => Started
             end
    | None =>
        match inflight cacheEntry with
        | Some p => Joined p
        | None => Started
        end
    end.

(** [cacheEntry.inflight = inflightPromise] *)
Definition set_inflight (p : PromiseId) (e : PingCacheEntry) : PingCacheEntry :=
  {| history := history e; lastPingAt := lastPingAt e; inflight := Some p |}.

(** [cacheEntry.history = nextHistory; cacheEntry.lastPingAt = Date.now()] *)
Definition set_history (nextHistory : HistorySnapshot) (now : Z) (e : PingCacheEntry)
  : PingCacheEntry :=
  {| history := Some nextHistory; lastPingAt := now; inflight := inflight e |}.

(** [if (cacheEntry.inflight === inflightPromise) cacheEntry.inflight = undefined] *)
Definition clear_inflight (p : PromiseId) (e : PingCacheEntry) : PingCacheEntry :=
  if bool_decide (inflight e = Some p)
  then {| history := history e; lastPingAt := lastPingAt e; inflight := None |}
  else e.

(** *** Concurrent refreshes

    The calls of [refreshHistory] of one process, interleaved at their
    [await]s.  Between two [await]s a call runs alone, so a call is
    these events: its synchronous prefix ([CallRefresh]), the end of
    the round of checks it started ([Resolve] or [Reject], the end of
    the [async] block behind [inflightPromise]), and its [finally]
    block ([Finally]). *)
Inductive Event :=
| CallRefresh (cacheKey : string) (nothing_allowed : bool) (now : Z)
| Resolve (p : PromiseId) (nextHistory : HistorySnapshot) (now : Z)
| Reject (p : PromiseId)
| Finally (p : PromiseId).

Record Process := {
  entries : gmap string PingCacheEntry;
  running : list (PromiseId * string);     (* rounds of checks not yet ended *)
  ended : list (PromiseId * string);       (* ended, [finally] not yet run *)
  rounds : nat;                            (* rounds of checks started so far *)
  clock : Z;                               (* the last reading of [Date.now()] *)
}.

Definition started_process : Process :=
  {| entries := ∅; running := []; ended := []; rounds := 0; clock := 0 |}.

Fixpoint key_of (p : PromiseId) (l : list (PromiseId * string)) : option string :=
  match l with
  | [] => None
  | (q, k) :: rest => if bool_decide (q = p) then Some k else key_of p rest
  end.

Definition without (p : PromiseId) (l : list (PromiseId * string))
  : list (PromiseId * string) :=
  filter (λ pk, pk.1 ≠ p) l.

Section Interleaving.
Context (pollIntervalMs : Z).

(** [None]: the event cannot happen in this state (the clock does not
    run backwards; only a running round ends; only an ended round
    runs its [finally]). *)
Definition step (ev : Event) (s : Process) : option Process :=
  match ev with
  | CallRefresh k nothing_allowed now =>
      if bool_decide (clock s ≤ now) then
        let e := entry_of k (entries s) in
        match refresh_path nothing_allowed pollIntervalMs now e with
        | Started =>
            let p := rounds s in
            Some {| entries := <[k := set_inflight p e]> (entries s);
                    running := (p, k) :: running s;
                    ended := ended s;
                    rounds := S (rounds s);
                    clock := now |}
        | _ =>
            Some {| entries := getPingCacheEntry k (entries s);
                    running := running s; ended := ended s;
                    rounds := rounds s; clock := now |}
        end
      else None
  | Resolve p nextHistory now =>
      if bool_decide (clock s ≤ now) then
        k ← key_of p (running s);
        Some {| entries := <[k := set_history nextHistory now (entry_of k (entries s))]>
                             (entries s);
                running := without p (running s);
                ended := (p, k) :: ended s;
                rounds := rounds s; clock := now |}
      else None
  | Reject p =>
      k ← key_of p (running s);
      Some {| entries := entries s;
              running := without p (running s);
              ended := (p, k) :: ended s;
              rounds := rounds s; clock := clock s |}
  | Finally p =>
      k ← key_of p (ended s);
      Some {| entries := <[k := clear_inflight p (entry_of k (entries s))]> (entries s);
              running := running s;
              ended := without p (ended s);
              rounds := rounds s; clock := clock s |}
  end.

Fixpoint run (evs : list Event) (s : Process) : option Process :=
  match evs with
  | [] => Some s
  | ev :: rest => s' ← step ev s; run rest s'
  end.

Definition reachable (s : Process) : Prop :=
  ∃ evs, run evs started_process = Some s.

(** The rounds of checks of one cache key that have not ended. *)
Definition in_flight (k : string) (s : Process) : list PromiseId :=
  fst <$> filter (λ pk, pk.2 = k) (running s).
(** The rounds of checks that have begun and whose [finally] has not run. *)
Definition open_rounds (s : Process) : list (PromiseId * string) :=
  running s ++ ended s.

(** The invariant of the interleavings: the open rounds are known and
    distinct, each is the [inflight] of its cache entry, and while a
    round runs the history of its entry is older than the poll
    interval. *)
Record coalesced (s : Process) : Prop := {
  rounds_known : ∀ p k, (p, k) ∈ open_rounds s → (p < rounds s)%nat;
  rounds_distinct : NoDup (fst <$> open_rounds s);
  round_is_inflight :
    ∀ p k, (p, k) ∈ open_rounds s → inflight (entry_of k (entries s)) = Some p;
  round_not_fresh :
    ∀ p k h, (p, k) ∈ running s → history (entry_of k (entries s)) = Some h →
      pollIntervalMs ≤ clock s - lastPingAt (entry_of k (entries s));
}.
End Interleaving.

(** *** One call of [loadGroupDashboardData], run to its end

    What the call reads from outside the process: the clock, the
    official-status cache, the network, and the result of a refresh
    that another call has in flight. *)
Record Env := {
  pollIntervalMs : Z;                                   (* [getPollingIntervalMs()] *)
  pollIntervalLabel : string;                           (* [getPollingIntervalLabel()] *)
  getOfficialStatus : ProviderType → option OfficialStatus;
  now_refresh : Z;                  (* [Date.now()] on entering [refreshHistory] *)
  now_settled : Z;                  (* [Date.now()] for [lastPingAt] *)
  now_maintenance : nat → Z;        (* [new Date()] of the [i]-th maintenance timeline *)
  now_generated : Z;                (* [Date.now()] for [generatedAt] *)
  network : nat → Exchange;
  order : list nat;
  awaited : PromiseId → Completion HistorySnapshot;
}.

Definition newest_first (a b : CheckResult) : Z := checkedAt b - checkedAt a.

Definition truthy_name (g : option string) : bool :=
  match g with
  | Some g => nonempty g
  | None => false
  end.

Definition in_group (targetGroupName : string) (config : ProviderConfig) : bool :=
  if String.eqb targetGroupName UNGROUPED_KEY then negb (truthy_name (groupName config))
  else match groupName config with
       | Some g => String.eqb g targetGroupName
       | None => false
       end.

Definition filterHistory (allowedIds : list string) (history : HistorySnapshot)
  : HistorySnapshot :=
  match allowedIds with
  | [] => []
  | _ => filter (λ entry, entry.1 ∈ allowedIds) history
  end.

Definition with_official (o : option OfficialStatus) (r : CheckResult) : CheckResult :=
  match o with
  | None => r
  | Some _ =>
      {| r_id := r_id r; r_name := r_name r; r_type := r_type r;
         r_endpoint := r_endpoint r; r_model := r_model r; status := status r;
         latencyMs := latencyMs r; pingLatencyMs := pingLatencyMs r;
         checkedAt := checkedAt r; message := message r;
         r_groupName := r_groupName r; officialStatus := o |}
  end.

Definition timeline_of (env : Env) (entry : string * list CheckResult)
  : option ProviderTimeline :=
  let sorted := sort newest_first entry.2 in
  match sorted with
  | [] => None
  | first :: _ =>
      Some {| t_id := entry.1; items := sorted;
              latest := with_official (getOfficialStatus env (r_type first)) first |}
  end.

Definition maintenance_timeline (env : Env) (i : nat) (config : ProviderConfig)
  : ProviderTimeline :=
  {| t_id := id config;
     items := [];
     latest :=
       with_official (getOfficialStatus env (type config))
         {| r_id := id config; r_name := name config; r_type := type config;
            r_endpoint := endpoint config; r_model := model config;
            status := maintenance; latencyMs := None; pingLatencyMs := None;
            checkedAt := now_maintenance env i;
            message := JStr "配置处于维护模式";
            r_groupName := if truthy_name (groupName config) then groupName config
                           else None;
            officialStatus := None |} |}.

Definition cache_key (targetGroupName : string) (pollIntervalMs : Z)
    (allowedIds : list string) : string :=
  let providerKey :=
    match allowedIds with
    | [] => "__empty__"
    | _ => join "|" (sort compare_code_units allowedIds)
    end in
  "group:" +:+ targetGroupName +:+ ":" +:+ pretty pollIntervalMs +:+ ":" +:+ providerKey.

(** [groupConfigs], [maintenanceConfigs] and [activeConfigs]. *)
Definition group_of (targetGroupName : string) (allConfigs : list ProviderConfig)
  : list ProviderConfig :=
  filter (λ c, in_group targetGroupName c = true) allConfigs.

Definition maintained (groupConfigs : list ProviderConfig) : list ProviderConfig :=
  filter (λ c, is_maintenance c = true) groupConfigs.

Definition active (groupConfigs : list ProviderConfig) : list ProviderConfig :=
  filter (λ c, is_maintenance c = false) groupConfigs.

(** [groupSet.add(x)]: a [Set] lists its members in the order in which
    they were first added. *)
Definition Set_add (x : string) (set : list string) : list string :=
  if bool_decide (x ∈ set) then set else set ++ [x].

(** [getAvailableGroups], once the configs are loaded. *)
Definition available_groups (allConfigs : list ProviderConfig) : list string :=
  let groupSet :=
    foldl (λ set config,
             if truthy_name (groupName config)
             then Set_add (default "" (groupName config)) set
             else set) [] allConfigs in
  let hasUngrouped :=
    existsb (λ config, negb (truthy_name (groupName config))) allConfigs in
  let groupSet := if hasUngrouped then Set_add UNGROUPED_KEY groupSet else groupSet in
  sort compare_code_units groupSet.

Section Dashboard.
Context (rt : Runtime).
(** The database, through [lib/database]: its functions are not among
    the sources and are taken as they are declared. *)
Context {Store : Type}.
Context (loadProviderConfigsFromDB : Store → Completion (list ProviderConfig)).
Context (loadHistory : Store → Completion HistorySnapshot).
Context (appendHistory : list CheckResult → Store → Completion HistorySnapshot * Store).
(** [runProviderChecks] of [lib/providers], which [group-data.ts]
    imports and which is not among the sources either, is taken as it
    is called: with the configs to check.  What its promise settles
    with may depend on what the network answers and on the order in
    which the checks settle; [None] is a promise that does not
    settle. *)
Context (runProviderChecks :
  list ProviderConfig → (nat → Exchange) → list nat →
  option (Completion (list CheckResult))).

(** The state of the process and of the database, with a log of the
    rounds of checks run and of the batches written. *)
Record World := {
  store : Store;
  cache : gmap string PingCacheEntry;
  next_promise : PromiseId;
  probed : list (list ProviderConfig);
  written : list (list CheckResult);
}.

(** A call returns, throws, or waits for ever on a promise that does
    not settle. *)
Inductive Outcome (A : Type) :=
| Done (a : A) (w : World)
| Thrown (e : JSError) (w : World)
| Pending (w : World).
Arguments Done {A} a w.
Arguments Thrown {A} e w.
Arguments Pending {A} w.

Definition M (A : Type) : Type := World → Outcome A.

Definition ret {A} (a : A) : M A := λ w, Done a w.

Definition bind {A B} (m : M A) (k : A → M B) : M B :=
  λ w, match m w with
       | Done a w' => k a w'
       | Thrown e w' => Thrown e w'
       | Pending w' => Pending w'
       end.

(** [try { body } finally { cleanup }] *)
Definition finally_ {A} (body : M A) (cleanup : World → World) : M A :=
  λ w, match body w with
       | Done a w' => Done a (cleanup w')
       | Thrown e w' => Thrown e (cleanup w')
       | Pending w' => Pending w'
       end.

Definition of_store {A} (f : Store → Completion A) : M A :=
  λ w, match f (store w) with
       | Normal a => Done a w
       | Throw e => Thrown e w
       end.

Definition with_cache (f : gmap string PingCacheEntry → gmap string PingCacheEntry)
    (w : World) : World :=
  {| store := store w; cache := f (cache w); next_promise := next_promise w;
     probed := probed w; written := written w |}.

Definition update_entry (cacheKey : string) (f : PingCacheEntry → PingCacheEntry)
  : World → World :=
  with_cache (λ c, <[cacheKey := f (entry_of cacheKey c)]> c).

Definition modify (f : World → World) : M unit := λ w, Done () (f w).

Definition new_promise : M PromiseId :=
  λ w, Done (next_promise w)
         {| store := store w; cache := cache w; next_promise := S (next_promise w);
            probed := probed w; written := written w |}.

Definition await_promise (env : Env) (p : PromiseId) : M HistorySnapshot :=
  λ w, match awaited env p with
       | Normal h => Done h w
       | Throw e => Thrown e w
       end.

(** [await runProviderChecks(activeConfigs)] *)
Definition run_checks (env : Env) (configs : list ProviderConfig)
  : M (list CheckResult) :=
  λ w, let w' := {| store := store w; cache := cache w;
                    next_promise := next_promise w;
                    probed := probed w ++ [configs]; written := written w |} in
       match runProviderChecks configs (network env) (order env) with
       | None => Pending w'
       | Some (Normal results) => Done results w'
       | Some (Throw e) => Thrown e w'
       end.

(** [await appendHistory(results)] *)
Definition append_history (results : list CheckResult) : M HistorySnapshot :=
  λ w, let '(answer, store') := appendHistory results (store w) in
       let w' := {| store := store'; cache := cache w;
                    next_promise := next_promise w;
                    probed := probed w; written := written w ++ [results] |} in
       match answer with
       | Normal h => Done h w'
       | Throw e => Thrown e w'
       end.

Notation "x ⇐ m ; k" := (bind m (λ x, k))
  (at level 20, m at level 100, k at level 200, only parsing).

Definition readFilteredHistory (allowedIds : list string) : M HistorySnapshot :=
  h ⇐ of_store loadHistory;
  ret (filterHistory allowedIds h).

Definition refreshHistory (env : Env) (cacheKey : string) (allowedIds : list string)
    (activeConfigs : list ProviderConfig) : M HistorySnapshot :=
  λ w,
    match refresh_path (bool_decide (allowedIds = [])) (pollIntervalMs env)
            (now_refresh env) (entry_of cacheKey (cache w)) with
    | NothingAllowed => ret [] w
    | Cached h => ret h w
    | Joined p => await_promise env p w
    | Started =>
        (inflightPromise ⇐ new_promise;
         _ ⇐ modify (update_entry cacheKey (set_inflight inflightPromise));
         finally_
           (results ⇐ run_checks env activeConfigs;
            nextHistory ⇐ match results with
                          | [] => readFilteredHistory allowedIds
                          | _ => h ⇐ append_history results;
                                 ret (filterHistory allowedIds h)
                          end;
            _ ⇐ modify (update_entry cacheKey
                          (set_history nextHistory (now_settled env)));
            ret nextHistory)
           (update_entry cacheKey (clear_inflight inflightPromise))) w
    end.

(** Everything after the history is known. *)
Definition assemble (env : Env) (targetGroupName : string)
    (maintenanceConfigs : list ProviderConfig) (history : HistorySnapshot)
  : GroupDashboardData :=
  let mappedTimelines := map (timeline_of env) history in
  let maintenanceTimelines := imap (maintenance_timeline env) maintenanceConfigs in
  let providerTimelines :=
    sort (λ a b, localeCompare rt (r_name (latest a)) (r_name (latest b)))
      (omap (λ t : option ProviderTimeline, t) mappedTimelines ++ maintenanceTimelines) in
  let allEntries := sort newest_first (providerTimelines ≫= items) in
  {| d_groupName := targetGroupName;
     displayName := if String.eqb targetGroupName UNGROUPED_KEY
                    then UNGROUPED_DISPLAY_NAME else targetGroupName;
     providerTimelines := providerTimelines;
     lastUpdated := checkedAt <$> head allEntries;
     total := length providerTimelines;
     d_pollIntervalLabel := pollIntervalLabel env;
     d_pollIntervalMs := pollIntervalMs env;
     generatedAt := now_generated env |}.

(** [options?.refreshMode] is [refreshMode]; [None] stands for an
    absent option.  The start of the official-status poller, which
    the call makes sure of first, has no part in what follows. *)
Definition loadGroupDashboardData (env : Env) (targetGroupName : string)
    (refreshMode : option RefreshMode) : M (option GroupDashboardData) :=
  allConfigs ⇐ of_store loadProviderConfigsFromDB;
  let groupConfigs := group_of targetGroupName allConfigs in
  match groupConfigs with
  | [] => ret None
  | _ =>
      let maintenanceConfigs := maintained groupConfigs in
      let activeConfigs := active groupConfigs in
      let allowedIds := remove_dups (map id activeConfigs) in
      let cacheKey := cache_key targetGroupName (pollIntervalMs env) allowedIds in
      _ ⇐ modify (with_cache (getPingCacheEntry cacheKey));
      history ⇐ readFilteredHistory allowedIds;
      history ⇐ match default missing refreshMode with
                | always => refreshHistory env cacheKey allowedIds activeConfigs
                | missing =>
                    match allowedIds, history with
                    | _ :: _, [] => refreshHistory env cacheKey allowedIds activeConfigs
                    | _, _ => ret history
                    end
                | never => ret history
                end;
      ret (Some (assemble env targetGroupName maintenanceConfigs history))
  end.

Definition getAvailableGroups : M (list string) :=
  allConfigs ⇐ of_store loadProviderConfigsFromDB;
  ret (available_groups allConfigs).

(** The state a call leaves behind, and the snapshot it returns. *)
Definition world_of {A} (o : Outcome A) : World :=
  match o with
  | Done _ w | Thrown _ w | Pending w => w
  end.

Definition returned {A} (o : Outcome A) : option A :=
  match o with
  | Done a _ => Some a
  | _ => None
  end.
End Dashboard.

Arguments Done {Store A} a w.
Arguments Thrown {Store A} e w.
Arguments Pending {Store A} w.

(** A snapshot without the instants read from the clock while it was
    assembled: [generatedAt], and the [checkedAt] that a timeline without
    items (a maintenance timeline) gives its synthesized entry. *)
Definition unstamped_result (r : CheckResult) : CheckResult :=
  {| r_id := r_id r; r_name := r_name r; r_type := r_type r;
     r_endpoint := r_endpoint r; r_model := r_model r; status := status r;
     latencyMs := latencyMs r; pingLatencyMs := pingLatencyMs r;
     checkedAt := 0; message := message r;
     r_groupName := r_groupName r; officialStatus := officialStatus r |}.

Definition unstamped_timeline (t : ProviderTimeline) : ProviderTimeline :=
  match items t with
  | [] => {| t_id := t_id t; items := []; latest := unstamped_result (latest t) |}
  | _ => t
  end.

Definition unstamped (d : GroupDashboardData) : GroupDashboardData :=
  {| d_groupName := d_groupName d; displayName := displayName d;
     providerTimelines := unstamped_timeline <$> providerTimelines d;
     lastUpdated := lastUpdated d; total := total d;
     d_pollIntervalLabel := d_pollIntervalLabel d;
     d_pollIntervalMs := d_pollIntervalMs d;
     generatedAt := 0 |}.

(** Two environments in which a call reads the same configuration and
    the same official statuses. *)
Definition same_settings (env env' : Env) : Prop :=
  pollIntervalMs env = pollIntervalMs env' ∧
  pollIntervalLabel env = pollIntervalLabel env' ∧
  getOfficialStatus env = getOfficialStatus env'.

(** Modelled from the spec: [runProviderChecks] of [lib/providers],
    which is not among the sources.  The spec has a check return, for
    the config it is given, one [CheckResult] with the identity of that
    config, and a round collect the results of the configs it was
    started with: every result of a batch carries the id of one of the
    configs passed. *)
Definition checks_the_configs_given
    (runProviderChecks :
       list ProviderConfig → (nat → Exchange) → list nat →
       option (Completion (list CheckResult))) : Prop :=
  ∀ configs network order results,
    runProviderChecks configs network order = Some (Normal results) →
    ∀ r, r ∈ results → ∃ c, c ∈ configs ∧ r_id r = id c.
End GroupData.

(** ** Tag lists and tag colours *)

Module Tags.
Import JsString.

Definition parseTagList (tags : option string) : list string :=
  match tags with
  | None | Some EmptyString => []
  | Some tags =>
      filter (λ tag, nonempty tag = true) (trim <$> split ","%char tags)
  end.

Definition TAG_COLOR_CLASSES : list string :=
  [ "bg-sky-100 text-sky-700 dark:bg-sky-500/15 dark:text-sky-400";
    "bg-violet-100 text-violet-700 dark:bg-violet-500/15 dark:text-violet-400";
    "bg-indigo-100 text-indigo-700 dark:bg-indigo-500/15 dark:text-indigo-400";
    "bg-rose-100 text-rose-700 dark:bg-rose-500/15 dark:text-rose-400";
    "bg-amber-100 text-amber-700 dark:bg-amber-500/15 dark:text-amber-400";
    "bg-cyan-100 text-cyan-700 dark:bg-cyan-500/15 dark:text-cyan-400";
    "bg-emerald-100 text-emerald-700 dark:bg-emerald-500/15 dark:text-emerald-400";
    "bg-lime-100 text-lime-700 dark:bg-lime-500/15 dark:text-lime-400" ].

(** [x | 0]: the integer [x] as a signed 32-bit integer. *)
Definition to_int32 (x : Z) : Z := (x + 2 ^ 31) `mod` 2 ^ 32 - 2 ^ 31.

(** A tag as [hashTag] reads it: the sequence of its UTF-16 code units,
    the values that [charCodeAt] returns (each below 2^16; the tag "商业"
    is the two code units 21830 and 19994). *)
Definition CodeUnits := list Z.

(** The [for] loop of [hashTag] from the code unit at hand on. *)
Fixpoint hashTag_loop (value : CodeUnits) (hash : Z) : Z :=
  match value with
  | [] => hash
  | unit :: rest => hashTag_loop rest (to_int32 (hash * 31 + unit))
  end.

Definition hashTag (value : CodeUnits) : Z := Z.abs (hashTag_loop value 0).

(** [None] is [undefined]: an index outside the array. *)
Definition getTagColorClass (tag : CodeUnits) : option string :=
  match tag with
  | [] => TAG_COLOR_CLASSES !! 0%nat
  | _ =>
      let index := Z.rem (hashTag tag) (Z.of_nat (length TAG_COLOR_CLASSES)) in
      if bool_decide (0 ≤ index) then TAG_COLOR_CLASSES !! Z.to_nat index else None
  end.
End Tags.

(** ** [components/dashboard-view.tsx]: the countdown to the next refresh *)

Module DashboardView.

(** [Math.max(...timestamps)] over the [latest.checkedAt] of the
    timelines, [null] when there is none. *)
Definition getLatestCheckTimestamp (timelines : list GroupData.ProviderTimeline)
  : option Z :=
  match (λ timeline, checkedAt (GroupData.latest timeline)) <$> timelines with
  | [] => None
  | t :: ts => Some (foldl Z.max t ts)
  end.

Definition computeRemainingMs (pollIntervalMs : option Z)
    (latestCheckTimestamp : option Z) (clock : Z) : option Z :=
  match pollIntervalMs, latestCheckTimestamp with
  | Some interval, Some latest =>
      if bool_decide (interval = 0) || bool_decide (interval ≤ 0) then None
      else Some (Z.max 0 (interval - (clock - latest)))
  | _, _ => None
  end.
End DashboardView.

(** ** Vocabulary of the properties *)

Definition healthy (st : HealthStatus) : bool :=
  match st with
  | operational | degraded => true
  | failed | maintenance => false
  end.

(** The response of the exchange was 2xx. *)
Definition response_2xx (x : Exchange) : bool :=
  match fetched x with
  | FetchResolves r => ok r
  | FetchRejects _ => false
  end.

(** The response was 2xx, had a body, and the parser read it to its end. *)
Definition stream_consumed (parseStream : ReaderStream → Completion string)
    (x : Exchange) : bool :=
  match fetched x with
  | FetchResolves r =>
      ok r && match body r with
              | Some reader =>
                  match parseStream reader with
                  | Normal _ => true
                  | Throw _ => false
                  end
              | None => false
              end
  | FetchRejects _ => false
  end.

(** The error that ends a check without a result of its own: a rejected
    [fetch], an error response whose body cannot be read, a 2xx response
    without a body, a stream that the parser cannot read to its end. *)
Definition probe_failure (parseStream : ReaderStream → Completion string)
    (x : Exchange) : option JSError :=
  match fetched x with
  | FetchRejects e => Some e
  | FetchResolves r =>
      if ok r then
        match body r with
        | None => Some {| err_name := "Error"; err_message := "响应体为空" |}
        | Some reader =>
            match parseStream reader with
            | Normal _ => None
            | Throw e => Some e
            end
        end
      else match text r with
           | Normal _ => None
           | Throw e => Some e
           end
  end.

(** There was a response and its whole body could be read as text. *)
Definition text_read (x : Exchange) : bool :=
  match fetched x with
  | FetchResolves r =>
      match text r with
      | Normal _ => true
      | Throw _ => false
      end
  | FetchRejects _ => false
  end.

Definition sdk_stream_consumed (x : OpenAIProvider.SdkExchange) : bool :=
  match OpenAIProvider.created x with
  | OpenAIProvider.CreateResolves stream =>
      match OpenAIProvider.read_stream (OpenAIProvider.sdk_chunks stream)
              (OpenAIProvider.sdk_error stream) with
      | Normal _ => true
      | Throw _ => false
      end
  | OpenAIProvider.CreateRejects _ _ => false
  end.

(** The error that ends a check through the SDK: the rejection of
    [create], or the error met while the stream is read. *)
Definition sdk_failure (x : OpenAIProvider.SdkExchange) : option JSError :=
  match OpenAIProvider.created x with
  | OpenAIProvider.CreateRejects _ e => Some e
  | OpenAIProvider.CreateResolves stream =>
      match OpenAIProvider.read_stream (OpenAIProvider.sdk_chunks stream)
              (OpenAIProvider.sdk_error stream) with
      | Normal _ => None
      | Throw e => Some e
      end
  end.

(** A comparator orders consistently when [cmp a b <= 0] is a total
    preorder; an array is ascending when each element is at most every
    later one. *)
Definition consistent {A} (cmp : A → A → Z) : Prop :=
  (∀ a b, cmp a b ≤ 0 ∨ cmp b a ≤ 0) ∧
  (∀ a b c, cmp a b ≤ 0 → cmp b c ≤ 0 → cmp a c ≤ 0).

Definition ascending {A} (cmp : A → A → Z) : list A → Prop :=
  StronglySorted (λ a b, cmp a b ≤ 0).




(** A text has ink when one of its code units is not white space. *)
Fixpoint has_ink (s : string) : bool :=
  match s with
  | EmptyString => false
  | String c s' => negb (JsString.is_white_space c) || has_ink s'
  end.

(** The first code unit, if any, is not white space. *)
Definition starts_with_ink (s : string) : Prop :=
  match s with
  | EmptyString => True
  | String c _ => JsString.is_white_space c = false
  end.

(** The whole stream as one chunk. *)
Definition whole (cs : list string) : string := foldr String.append "" cs.

Definition delivered (cs : list string) : ReaderStream :=
  {| chunks := cs; read_error := None |}.

(** The lines of a chunk that the OpenAI and the Gemini parser keep:
    [chunk.split("\n").filter((line) => line.trim())]. *)
Definition nonblank_lines (chunk : string) : list string :=
  filter (λ line, Checks.nonblank line = true) (JsString.split JsString.newline chunk).



(** ** Concrete inputs *)

Module Sample.
Import JsString.

Definition config_a : ProviderConfig :=
  {| id := "a"; name := "Alpha"; type := openai;
     endpoint := "https://api.openai.com/v1/chat/completions";
     model := "gpt-4o-mini"; apiKey := "sk-test";
     groupName := Some "main"; is_maintenance := false |}.

Definition config_b : ProviderConfig :=
  {| id := "b"; name := "Beta"; type := anthropic;
     endpoint := "https://api.anthropic.com/v1/messages";
     model := "claude"; apiKey := "sk-test";
     groupName := Some "main"; is_maintenance := true |}.

Definition config_g : ProviderConfig :=
  {| id := "g"; name := "Gamma"; type := gemini;
     endpoint := "https://generativelanguage.googleapis.com/v1beta";
     model := "gemini-pro"; apiKey := "k";
     groupName := Some "main"; is_maintenance := false |}.

Definition openai_event_hi : string :=
  "data: {'choices':[{'delta':{'content':'hi'}}]}".

(** A 2xx response whose stream is one event and the terminator,
    finished [elapsed] milliseconds after the start. *)
Definition streamed (elapsed : Z) : Exchange :=
  {| startedAt := 1000;
     fetched := FetchResolves
       {| http_status := 200; text := Normal "";
          body := Some {| chunks := [quoted openai_event_hi +:+ String newline "";
                                     "data: [DONE]" +:+ String newline ""];
                          read_error := None |} |};
     finishedAt := 1000 + elapsed;
     stampedAt := 1000 + elapsed |}.

(** A 200 response whose stream delivers one event and is then aborted
    by the timeout. *)
Definition stalled : Exchange :=
  {| startedAt := 1000;
     fetched := FetchResolves
       {| http_status := 200; text := Normal "";
          body := Some {| chunks := [quoted openai_event_hi +:+ String newline ""];
                          read_error := Some AbortError |} |};
     finishedAt := 16000;
     stampedAt := 16000 |}.

Definition rejected (e : JSError) : Exchange :=
  {| startedAt := 1000; fetched := FetchRejects e;
     finishedAt := 1200; stampedAt := 1200 |}.

(** A response with status [code] and the error body [text]. *)
Definition refused (code : Z) (errorBody : string) : Exchange :=
  {| startedAt := 1000;
     fetched := FetchResolves
       {| http_status := code; text := Normal (quoted errorBody); body := None |};
     finishedAt := 1350; stampedAt := 1360 |}.

Definition line (text : string) : string := quoted text +:+ String newline "".

Definition gemini_a : string := "{'candidates':[{'content':{'parts':[{'text':'a'}]}}]}".
Definition gemini_b : string := "{'candidates':[{'content':{'parts':[{'text':'b'}]}}]}".

Definition sdk_streamed (elapsed : Z) : OpenAIProvider.SdkExchange :=
  {| OpenAIProvider.sdk_startedAt := 1000;
     OpenAIProvider.created :=
       OpenAIProvider.CreateResolves
         {| OpenAIProvider.sdk_chunks :=
              [JObj [("choices", JArr [JObj [("delta", JObj [("content", JStr "h")])]])]];
            OpenAIProvider.sdk_error := None |};
     OpenAIProvider.sdk_finishedAt := 1000 + elapsed;
     OpenAIProvider.sdk_stampedAt := 1000 + elapsed |}.

(** A database kept in memory: the configs and the history by provider. *)
Record Db := {
  db_configs : list ProviderConfig;
  db_history : GroupData.HistorySnapshot;
}.

Fixpoint add_result (r : CheckResult) (h : GroupData.HistorySnapshot)
  : GroupData.HistorySnapshot :=
  match h with
  | [] => [(r_id r, [r])]
  | (k, rs) :: rest =>
      if String.eqb k (r_id r) then (k, r :: rs) :: rest else (k, rs) :: add_result r rest
  end.

Definition db_load_configs (db : Db) : Completion (list ProviderConfig) :=
  Normal (db_configs db).

Definition db_load_history (db : Db) : Completion GroupData.HistorySnapshot :=
  Normal (db_history db).

Definition db_append (results : list CheckResult) (db : Db)
  : Completion GroupData.HistorySnapshot * Db :=
  let h := foldr add_result (db_history db) results in
  (Normal h, {| db_configs := db_configs db; db_history := h |}).

Definition no_status (t : ProviderType) : option OfficialStatus := None.

(** A call at instant [now] that finds the network answering every check
    after [elapsed] milliseconds. *)
Definition env_at (now elapsed : Z) : GroupData.Env :=
  {| GroupData.pollIntervalMs := 60000;
     GroupData.pollIntervalLabel := "60s";
     GroupData.getOfficialStatus := no_status;
     GroupData.now_refresh := now;
     GroupData.now_settled := now + elapsed;
     GroupData.now_maintenance := λ _, now + elapsed;
     GroupData.now_generated := now + elapsed;
     GroupData.network := λ _, streamed elapsed;
     GroupData.order := [0; 1; 2]%nat;
     GroupData.awaited := λ _, Normal [] |}.

(** The same call when the official-status poller has cached an incident
    for one provider type. *)
Definition anthropic_incident (t : ProviderType) : option OfficialStatus :=
  match t with
  | anthropic =>
      Some {| official_status := "degraded";
              official_message := "Elevated error rates";
              official_checkedAt := 90000 |}
  | _ => None
  end.

Definition env_incident_at (now elapsed : Z) : GroupData.Env :=
  {| GroupData.pollIntervalMs := 60000;
     GroupData.pollIntervalLabel := "60s";
     GroupData.getOfficialStatus := anthropic_incident;
     GroupData.now_refresh := now;
     GroupData.now_settled := now + elapsed;
     GroupData.now_maintenance := λ _, now + elapsed;
     GroupData.now_generated := now + elapsed;
     GroupData.network := λ _, streamed elapsed;
     GroupData.order := [0; 1; 2]%nat;
     GroupData.awaited := λ _, Normal [] |}.

Definition db_main : Db :=
  {| db_configs := [config_g; config_b; config_a]; db_history := [] |}.

Definition world_main : GroupData.World :=
  {| GroupData.store := db_main; GroupData.cache := ∅; GroupData.next_promise := 0%nat;
     GroupData.probed := []; GroupData.written := [] |}.

Abbreviation load_main env mode :=
  (GroupData.loadGroupDashboardData Reference.runtime
     db_load_configs db_load_history db_append
     (Checks.runProviderChecks Reference.runtime) env "main" (Some mode)).

(** Two calls with [refreshMode = "never"], 100 seconds apart, the
    second on the world as the first leaves it. *)
Abbreviation first_never := (load_main (env_at 100000 0) GroupData.never world_main).
Abbreviation second_never :=
  (load_main (env_at 200000 0) GroupData.never (GroupData.world_of first_never)).

(** The process right after a first call of [refreshHistory] for the key
    ["k"], at instant 1000. *)
Definition process_busy : GroupData.Process :=
  {| GroupData.entries := <["k" := GroupData.set_inflight 0%nat GroupData.new_entry]> ∅;
     GroupData.running := [(0%nat, "k")];
     GroupData.ended := [];
     GroupData.rounds := 1%nat;
     GroupData.clock := 1000 |}.

(** The world of that process: the first call waits for its round of
    checks. *)
Definition world_busy : GroupData.World :=
  {| GroupData.store := db_main; GroupData.cache := GroupData.entries process_busy;
     GroupData.next_promise := 1%nat;
     GroupData.probed := [[config_g; config_a]]; GroupData.written := [] |}.

(** A call at instant [now] whose checks have not settled. *)
Definition env_waiting (now : Z) : GroupData.Env :=
  {| GroupData.pollIntervalMs := 60000;
     GroupData.pollIntervalLabel := "60s";
     GroupData.getOfficialStatus := no_status;
     GroupData.now_refresh := now;
     GroupData.now_settled := now;
     GroupData.now_maintenance := λ _, now;
     GroupData.now_generated := now;
     GroupData.network := λ _, streamed 0;
     GroupData.order := [];
     GroupData.awaited := λ _, Normal [] |}.

(** Case conversion of the letters A-Z and a-z, which is what
    [toUpperCase] and [toLowerCase] do to a text of ASCII characters. *)
Definition upper_char (c : ascii) : ascii :=
  let n := nat_of_ascii c in
  if (97 <=? n)%nat && (n <=? 122)%nat then ascii_of_nat (n - 32) else c.

Definition lower_char (c : ascii) : ascii :=
  let n := nat_of_ascii c in
  if (65 <=? n)%nat && (n <=? 90)%nat then ascii_of_nat (n + 32) else c.

Fixpoint map_chars (f : ascii → ascii) (s : string) : string :=
  match s with
  | EmptyString => EmptyString
  | String c s' => String (f c) (map_chars f s')
  end.

Definition upper : string → string := map_chars upper_char.
Definition lower : string → string := map_chars lower_char.

(** An environment with three groups: one complete, one without a
    model, one without any variable. *)
Definition env_groups (variable : string) : option string :=
  if String.eqb variable "CHECK_GROUPS" then Some " main, backup ,,spare "
  else if String.eqb variable "CHECK_MAIN_TYPE" then Some "OpenAI"
  else if String.eqb variable "CHECK_MAIN_KEY" then Some " sk-12345678 "
  else if String.eqb variable "CHECK_MAIN_MODEL" then Some "gpt-4o-mini"
  else if String.eqb variable "CHECK_BACKUP_TYPE" then Some "gemini"
  else if String.eqb variable "CHECK_BACKUP_KEY" then Some "abcdefg"
  else None.

Definition config_main : ProviderConfig :=
  {| id := "main"; name := "main"; type := openai;
     endpoint := "https://api.openai.com/v1/chat/completions";
     model := "gpt-4o-mini"; apiKey := "sk-12345678";
     groupName := None; is_maintenance := false |}.

Definition history_row (i : Z) (c : string) (at_ : Z) : HistorySql.HistoryRow :=
  {| HistorySql.history_id := i; HistorySql.config_id := c;
     HistorySql.h_status := "operational"; HistorySql.latency_ms := Some 100;
     HistorySql.ping_latency_ms := None; HistorySql.checked_at := at_;
     HistorySql.h_message := "" |}.

Definition config_row (i n : string) : HistorySql.ConfigRow :=
  {| HistorySql.c_id := i; HistorySql.c_name := n; HistorySql.c_type := "openai";
     HistorySql.c_model := "gpt-4o-mini";
     HistorySql.c_endpoint := "https://api.openai.com/v1/chat/completions";
     HistorySql.c_group_name := Some "main" |}.

(** Three rows of one config and one of another. *)
Definition table : list HistorySql.HistoryRow :=
  [history_row 1 "a" 10; history_row 2 "a" 20; history_row 3 "a" 30;
   history_row 4 "g" 5].
End Sample.

(** * Properties *)

(** ** Sorting and [Promise.all] *)

Section ArrayFacts.
Context {A : Type}.
Implicit Types (cmp : A → A → Z) (l : list A).

Lemma insert_sorted_Permutation cmp x l : insert_sorted cmp x l ≡ₚ x :: l.
Proof.
  induction l as [|y l IH]; simpl; [done|].
  case_bool_decide; [done|]. by rewrite IH, Permutation_swap.
Qed.

Lemma sort_Permutation cmp l : sort cmp l ≡ₚ l.
Proof.
  induction l as [|x l IH]; simpl; [done|].
  by rewrite insert_sorted_Permutation, IH.
Qed.

Lemma length_sort cmp l : length (sort cmp l) = length l.
Proof. by rewrite sort_Permutation. Qed.

Lemma elem_of_sort cmp l x : x ∈ sort cmp l ↔ x ∈ l.
Proof. by rewrite sort_Permutation. Qed.

Lemma insert_sorted_ascending cmp x l :
  consistent cmp → ascending cmp l → ascending cmp (insert_sorted cmp x l).
Proof.
  intros [Htot Htrans]. unfold ascending.
  induction 1 as [|y l Hl IH Hy]; simpl.
  - repeat constructor.
  - case_bool_decide as Hxy.
    + constructor; [by constructor|]. constructor; [done|].
      eapply Forall_impl; [exact Hy|]. intros z ?. by eapply Htrans.
    + constructor; [done|].
      rewrite insert_sorted_Permutation. constructor; [|done].
      destruct (Htot x y); [lia|done].
Qed.

Lemma sort_ascending cmp l : consistent cmp → ascending cmp (sort cmp l).
Proof.
  intros Hc. induction l as [|x l IH]; simpl; [constructor|].
  by apply insert_sorted_ascending.
Qed.

(** [Promise.all] over promises that all fulfil, once each has
    settled. *)
Lemma Promise_all_go_fulfilled (vs : list A) order (values : list (option A)) :
  length values = length vs →
  (∀ i v, values !! i = Some (Some v) → vs !! i = Some v) →
  (∀ i, (i < length vs)%nat → (∃ v, values !! i = Some (Some v)) ∨ i ∈ order) →
  Promise_all_go (Normal <$> vs) values order = Some (Normal vs).
Proof.
  revert values. induction order as [|i order IH]; intros values Hlen Hval Hall; simpl.
  - assert (mapM (λ v : option A, v) values = Some vs) as ->; [|done].
    apply mapM_Some, Forall2_same_length_lookup. split; [done|].
    intros i o v Ho Hv.
    destruct (Hall i) as [[v' Hv']|Hin]; [by eapply lookup_lt_Some| |by inversion Hin].
    rewrite Hv' in Ho. simplify_eq. f_equal.
    apply Hval in Hv'. congruence.
  - destruct (mapM (λ v : option A, v) values) as [vs'|] eqn:Hm.
    + do 2 f_equal. apply mapM_Some in Hm.
      apply list_eq. intros j.
      destruct (vs' !! j) as [y|] eqn:Hy.
      * destruct (Forall2_lookup_r _ _ _ _ _ Hm Hy) as (o & Ho & ->).
        symmetry. by apply Hval.
      * symmetry. apply lookup_ge_None. apply lookup_ge_None in Hy.
        apply Forall2_length in Hm. lia.
    + rewrite list_lookup_fmap.
      destruct (vs !! i) as [v|] eqn:Hi; simpl.
      * apply IH.
        -- by rewrite length_insert.
        -- intros j w. destruct (decide (i = j)) as [->|].
           ++ rewrite list_lookup_insert_eq
                by (rewrite Hlen; by eapply lookup_lt_Some).
              congruence.
           ++ rewrite list_lookup_insert_ne by done. apply Hval.
        -- intros j Hj. destruct (decide (i = j)) as [->|].
           ++ left. exists v. apply list_lookup_insert_eq.
              rewrite Hlen. by eapply lookup_lt_Some.
           ++ rewrite list_lookup_insert_ne by done.
              destruct (Hall j Hj) as [?|Hin]; [by left|right].
              apply elem_of_cons in Hin as [->|]; done.
      * apply IH; [done..|].
        intros j Hj. destruct (Hall j Hj) as [?|Hin]; [by left|right].
        apply elem_of_cons in Hin as [->|]; [|done].
        apply lookup_ge_None in Hi. lia.
Qed.

Lemma Promise_all_fulfilled (vs : list A) order :
  (∀ i, (i < length vs)%nat → i ∈ order) →
  Promise_all (Normal <$> vs) order = Some (Normal vs).
Proof.
  intros Hall. unfold Promise_all. apply Promise_all_go_fulfilled.
  - by rewrite length_replicate, length_fmap.
  - intros i v Hi. apply lookup_replicate in Hi as [? _]. done.
  - intros i Hi. right. by apply Hall.
Qed.
(** Whatever the order in which the checks settle, [Promise.all] over
    checks that all fulfil can only resolve to their results. *)
Lemma Promise_all_go_sound (vs : list A) order (values : list (option A)) c :
  length values = length vs →
  (∀ i v, values !! i = Some (Some v) → vs !! i = Some v) →
  Promise_all_go (Normal <$> vs) values order = Some c → c = Normal vs.
Proof.
  revert values. induction order as [|i order IH]; intros values Hlen Hval; simpl.
  - destruct (mapM _ values) as [vs'|] eqn:Hm; [|done].
    intros [= <-]. f_equal. apply mapM_Some in Hm.
    apply list_eq. intros j. destruct (vs' !! j) as [y|] eqn:Hy.
    + destruct (Forall2_lookup_r _ _ _ _ _ Hm Hy) as (o & Ho & ->).
      symmetry. by apply Hval.
    + symmetry. apply lookup_ge_None. apply lookup_ge_None in Hy.
      apply Forall2_length in Hm. lia.
  - destruct (mapM _ values) as [vs'|] eqn:Hm.
    + intros [= <-]. f_equal. apply mapM_Some in Hm.
      apply list_eq. intros j. destruct (vs' !! j) as [y|] eqn:Hy.
      * destruct (Forall2_lookup_r _ _ _ _ _ Hm Hy) as (o & Ho & ->).
        symmetry. by apply Hval.
      * symmetry. apply lookup_ge_None. apply lookup_ge_None in Hy.
        apply Forall2_length in Hm. lia.
    + rewrite list_lookup_fmap. destruct (vs !! i) as [v|] eqn:Hi; simpl.
      * apply IH; [by rewrite length_insert|].
        intros j w. destruct (decide (i = j)) as [->|].
        -- rewrite list_lookup_insert_eq by (rewrite Hlen; by eapply lookup_lt_Some).
           congruence.
        -- rewrite list_lookup_insert_ne by done. apply Hval.
      * by apply IH.
Qed.

End ArrayFacts.

Ltac unfold_bind :=
  cbn [mbind mret completion_bind completion_ret bindC try_catch try_ignore negb andb orb].

(** ** The provider check *)

Section CheckFacts.
Context (rt : Runtime).
Import Checks.

Lemma classify_spec latency :
  (latency ≤ 6000 → classify latency = operational) ∧
  (6000 < latency → classify latency = degraded).
Proof.
  unfold classify, DEGRADED_THRESHOLD_MS.
  case_bool_decide; split; intros; first [done | lia].
Qed.

Lemma healthy_classify latency : healthy (classify latency) = true.
Proof. unfold classify. by case_bool_decide. Qed.

(** When the stream is read to its end, the result is the classified
    latency. *)
Lemma runStreamCheck_consumed config params x :
  stream_consumed (parseStream params) x = true →
  runStreamCheck rt config params x =
    let latency := finishedAt x - startedAt x in
    Normal (result_of config (shown_endpoint params) (classify latency)
              (Some latency) (stampedAt x)
              (JStr (success_message (classify latency) latency))).
Proof.
  unfold stream_consumed, runStreamCheck, runStreamCheck_try.
  destruct (fetched x) as [e|r]; [done|]. unfold_bind.
  destruct (ok r); [|done].
  destruct (body r) as [reader|]; [|done].
  destruct (parseStream params reader); [reflexivity|done].
Qed.

(** Otherwise the result is a failure; it carries no latency exactly
    when an error ended the check. *)
Lemma runStreamCheck_not_consumed config params x :
  stream_consumed (parseStream params) x = false →
  ∃ res, runStreamCheck rt config params x = Normal res ∧ status res = failed ∧
    match probe_failure (parseStream params) x with
    | Some e => latencyMs res = None ∧ message res = JStr (failure_message e)
    | None => latencyMs res = Some (finishedAt x - startedAt x)
    end.
Proof.
  unfold stream_consumed, probe_failure, runStreamCheck, runStreamCheck_try.
  destruct (fetched x) as [e|r]; [by eexists|]. unfold_bind.
  destruct (ok r); unfold_bind.
  - destruct (body r) as [reader|]; [|by eexists].
    destruct (parseStream params reader); [done|by eexists].
  - intros _. destruct (text r); by eexists.
Qed.

Lemma runStreamCheck_returns config params x :
  ∃ res, runStreamCheck rt config params x = Normal res.
Proof.
  destruct (stream_consumed (parseStream params) x) eqn:E.
  - rewrite (runStreamCheck_consumed _ _ _ E). by eexists.
  - destruct (runStreamCheck_not_consumed config params x E) as (res & ? & _).
    by exists res.
Qed.

Lemma checkProvider_returns config x :
  ∃ res, checkProvider rt config x = Normal res.
Proof. unfold checkProvider. destruct (type config); apply runStreamCheck_returns. Qed.
End CheckFacts.

Section SdkFacts.
Import OpenAIProvider.

Lemma checkOpenAI_consumed config x :
  sdk_stream_consumed x = true →
  checkOpenAI config x =
    let latency := sdk_finishedAt x - sdk_startedAt x in
    Normal (Checks.result_of config (displayEndpoint config) (Checks.classify latency)
              (Some latency) (sdk_stampedAt x)
              (JStr (Checks.success_message (Checks.classify latency) latency))).
Proof.
  unfold sdk_stream_consumed, checkOpenAI, checkOpenAI_try.
  destruct (created x) as [?|stream]; [done|]. unfold_bind.
  destruct (read_stream _ _); [reflexivity|done].
Qed.

Lemma checkOpenAI_not_consumed config x :
  sdk_stream_consumed x = false →
  ∃ res, checkOpenAI config x = Normal res ∧ status res = failed ∧ latencyMs res = None.
Proof.
  unfold sdk_stream_consumed, checkOpenAI, checkOpenAI_try.
  destruct (created x) as [?|stream]; [by eexists|]. unfold_bind.
  destruct (read_stream _ _); [done|by eexists].
Qed.
End SdkFacts.

Section CheckClaims.
Context (rt : Runtime).
Import Checks.

Lemma stream_consumed_2xx parse x :
  stream_consumed parse x = true → response_2xx x = true.
Proof.
  unfold stream_consumed, response_2xx.
  destruct (fetched x); [done|]. by intros [? _]%andb_true_iff.
Qed.

(** C1, as amended.  A check returns a result whose status is
    operational or degraded exactly when the response was 2xx, had a
    body, and its stream was read to the end (so only when the response
    was 2xx); the result then carries the latency
    [finishedAt - startedAt], which is not negative when the clock did
    not run backwards, with status operational up to 6000 ms and
    degraded above.  This holds for [runStreamCheck] and for the check
    through the SDK. *)
Theorem healthy_iff_stream_consumed config params x sx :
  (∃ res, runStreamCheck rt config params x = Normal res ∧
     (healthy (status res) = true ↔ stream_consumed (parseStream params) x = true) ∧
     (healthy (status res) = true → response_2xx x = true) ∧
     (stream_consumed (parseStream params) x = true →
        ∃ l, latencyMs res = Some l ∧ l = finishedAt x - startedAt x ∧
             (startedAt x ≤ finishedAt x → 0 ≤ l) ∧
             (l ≤ 6000 → status res = operational) ∧
             (6000 < l → status res = degraded))) ∧
  (∃ res, OpenAIProvider.checkOpenAI config sx = Normal res ∧
     (healthy (status res) = true ↔ sdk_stream_consumed sx = true) ∧
     (healthy (status res) = true → OpenAIProvider.response_2xx sx = true) ∧
     (sdk_stream_consumed sx = true →
        ∃ l, latencyMs res = Some l ∧
             l = OpenAIProvider.sdk_finishedAt sx - OpenAIProvider.sdk_startedAt sx ∧
             (OpenAIProvider.sdk_startedAt sx ≤ OpenAIProvider.sdk_finishedAt sx → 0 ≤ l) ∧
             (l ≤ 6000 → status res = operational) ∧
             (6000 < l → status res = degraded))).
Proof.
  split.
  - destruct (stream_consumed (parseStream params) x) eqn:E.
    + rewrite (runStreamCheck_consumed rt _ _ _ E). cbv zeta.
      eexists. split; [done|]. cbn [status latencyMs result_of].
      split_and!; [by rewrite healthy_classify| |].
      * intros _. by eapply stream_consumed_2xx.
      * intros _. eexists. split_and!; [done|done|lia|apply classify_spec..].
    + destruct (runStreamCheck_not_consumed rt config params x E) as (res & Hr & Hs & _).
      exists res. rewrite Hs. by split_and!.
  - destruct (sdk_stream_consumed sx) eqn:E.
    + rewrite (checkOpenAI_consumed _ _ E). cbv zeta.
      eexists. split; [done|]. cbn [status latencyMs result_of].
      split_and!; [by rewrite healthy_classify| |].
      * intros _. unfold sdk_stream_consumed, OpenAIProvider.response_2xx in *.
        by destruct (OpenAIProvider.created sx).
      * intros _. eexists. split_and!; [done|done|lia|apply classify_spec..].
    + destruct (checkOpenAI_not_consumed config sx E) as (res & Hr & Hs & _).
      exists res. rewrite Hs. by split_and!.
Qed.

(** Every check settles with a result. *)
Lemma guarded_check_returns network i config :
  ∃ res, guarded_check rt network i config = Normal res ∧ r_id res = id config.
Proof.
  unfold guarded_check, checkProvider, checkOpenAI, checkGemini, checkAnthropic.
  destruct (type config);
    match goal with
    | |- context [runStreamCheck rt ?c ?p ?x] =>
        destruct (stream_consumed (parseStream p) x) eqn:E;
        [ rewrite (runStreamCheck_consumed rt c p x E); by eexists
        | unfold stream_consumed, runStreamCheck, runStreamCheck_try in *;
          destruct (fetched x) as [?|r]; [by eexists|]; unfold_bind;
          destruct (ok r); unfold_bind;
          [ destruct (body r) as [reader|]; [|by eexists];
            cbn [parseStream] in *;
            match goal with
            | |- context [?parse rt reader] => destruct (parse rt reader)
            end; [done|by eexists]
          | destruct (text r); by eexists ] ]
    end.
Qed.

Lemma guarded_checks_settle configs network :
  ∃ results, imap (guarded_check rt network) configs = Normal <$> results ∧
    r_id <$> results = id <$> configs.
Proof.
  revert network. induction configs as [|config configs IH]; intros network.
  - by exists [].
  - rewrite imap_cons.
    destruct (guarded_check_returns network 0 config) as (res & -> & Hid).
    destruct (IH (network ∘ S)) as (results & Hrs & Hids).
    exists (res :: results). split; [|by rewrite !fmap_cons, Hid, Hids].
    rewrite fmap_cons. f_equal. rewrite <- Hrs. by apply imap_ext.
Qed.

Lemma runProviderChecks_settles configs network order :
  (∀ i, (i < length configs)%nat → i ∈ order) →
  ∃ results, imap (guarded_check rt network) configs = Normal <$> results ∧
    r_id <$> results = id <$> configs ∧
    runProviderChecks rt configs network order
    = Some (Normal (sort (by_name rt) results)).
Proof.
  intros Hall. destruct (guarded_checks_settle configs network) as (results & Hrs & Hids).
  exists results. split_and!; [done..|].
  unfold runProviderChecks. destruct configs as [|c configs].
  { apply (f_equal length) in Hids. destruct results; done. }
  rewrite Hrs, Promise_all_fulfilled; [done|].
  intros i Hi. apply Hall. apply (f_equal length) in Hids.
  rewrite !length_fmap in Hids. lia.
Qed.

Lemma runProviderChecks_results configs network order c :
  runProviderChecks rt configs network order = Some c →
  ∃ results, c = Normal (sort (by_name rt) results) ∧ r_id <$> results = id <$> configs.
Proof.
  destruct (guarded_checks_settle configs network) as (results & Hrs & Hids).
  unfold runProviderChecks. destruct configs as [|config configs].
  { intros [= <-]. by exists []. }
  rewrite Hrs. unfold Promise_all.
  destruct (Promise_all_go _ _ _) as [c'|] eqn:Hall; [|done].
  apply Promise_all_go_sound in Hall as ->.
  - intros [= <-]. by exists results.
  - by rewrite length_replicate, length_fmap.
  - intros i v Hi. apply lookup_replicate in Hi as [? _]. done.
Qed.

Lemma runProviderChecks_ids configs network order results :
  runProviderChecks rt configs network order = Some (Normal results) →
  ∀ r, r ∈ results → ∃ config, config ∈ configs ∧ r_id r = id config.
Proof.
  intros (rs & [= ->] & Hids)%runProviderChecks_results r Hr.
  apply elem_of_sort in Hr.
  assert (r_id r ∈ id <$> configs) as Hin.
  { rewrite <- Hids. by apply list_elem_of_fmap_2. }
  apply list_elem_of_fmap in Hin as (config & ? & ?). eauto.
Qed.
(** C2, as amended.  A check never throws.  When an error ends it (a
    rejected fetch, an unreadable error body, a 2xx response without a
    body, a stream the parser cannot finish), the result has status
    failed, no latency, and as message the text "请求超时" for an
    AbortError, otherwise the text of the error, or "未知错误" when the
    error has no text.  [runProviderChecks] never rejects: what it
    settles with is a batch with one result for each config of the list,
    and it settles once every check has. *)
Theorem failures_are_captured :
  (∀ config x, ∃ res, checkProvider rt config x = Normal res) ∧
  (∀ config params x e,
     probe_failure (parseStream params) x = Some e →
     ∃ res, runStreamCheck rt config params x = Normal res ∧
       status res = failed ∧ latencyMs res = None ∧
       (err_name e = "AbortError" → message res = JStr "请求超时") ∧
       (err_name e ≠ "AbortError" → err_message e ≠ "" →
          message res = JStr (err_message e)) ∧
       (err_name e ≠ "AbortError" → err_message e = "" →
          message res = JStr "未知错误")) ∧
  (∀ configs network order settled,
     runProviderChecks rt configs network order = Some settled →
     ∃ results, settled = Normal results ∧
       length results = length configs ∧
       r_id <$> results ≡ₚ id <$> configs) ∧
  (∀ configs network order,
     (∀ i, (i < length configs)%nat → i ∈ order) →
     ∃ results, runProviderChecks rt configs network order = Some (Normal results)).
Proof.
  split_and!.
  - apply checkProvider_returns.
  - intros config params x e He.
    assert (stream_consumed (parseStream params) x = false) as Hc.
    { unfold probe_failure, stream_consumed in *.
      destruct (fetched x) as [?|r]; [done|].
      destruct (ok r); [|done]. destruct (body r); [|done].
      by destruct (parseStream params _). }
    destruct (runStreamCheck_not_consumed rt config params x Hc) as (res & Hr & Hs & Hm).
    rewrite He in Hm. destruct Hm as [Hl Hm].
    exists res. split_and!; try done; rewrite Hm; unfold failure_message.
    + intros ->. done.
    + intros Hn Hm'. apply String.eqb_neq in Hn. rewrite Hn.
      by destruct (err_message e).
    + intros Hn Hm'. apply String.eqb_neq in Hn. rewrite Hn, Hm'. done.
  - intros configs network order settled (results & -> & Hids)%runProviderChecks_results.
    eexists. split; [done|]. split.
    + rewrite length_sort. apply (f_equal length) in Hids.
      by rewrite !length_fmap in Hids.
    + by rewrite sort_Permutation, Hids.
  - intros configs network order Hall.
    destruct (runProviderChecks_settles configs network order Hall)
      as (results & _ & _ & ->).
    by eexists.
Qed.

(** C5, as amended.  For an error response whose body can be read, the
    result has status failed and the latency read when the response
    arrived.  Its message is "HTTP <status>" for an empty body; the
    first 280 characters of a body that is not JSON; for a JSON body
    the first truthy one of [error.message], [error], [message] and
    the body serialised again. *)
Theorem error_response_message config params x r errorBody :
  fetched x = FetchResolves r → ok r = false → text r = Normal errorBody →
  ∃ res, runStreamCheck rt config params x = Normal res ∧
    status res = failed ∧
    latencyMs res = Some (finishedAt x - startedAt x) ∧
    (errorBody = "" → message res = JStr ("HTTP " +:+ pretty (http_status r))) ∧
    (errorBody ≠ "" → JSON_parse rt errorBody = None →
       message res = JStr (JsString.slice_to 280 errorBody) ∧
       (String.length (JsString.slice_to 280 errorBody) ≤ 280)%nat) ∧
    (∀ parsed m,
       errorBody ≠ "" → JSON_parse rt errorBody = Some parsed →
       Js.get_opt (Js.get_opt (Some parsed) "error") "message" = Some m →
       Js.truthy rt (Some m) = true →
       message res = m) ∧
    (∀ parsed,
       errorBody ≠ "" → JSON_parse rt errorBody = Some parsed →
       Js.truthy rt (Js.get_opt (Js.get_opt (Some parsed) "error") "message") = false →
       Some (message res) =
         Js.or_else rt
           (Js.or_else rt (Js.get_opt (Some parsed) "error")
              (Js.or_else rt (Js.get_opt (Some parsed) "message")
                 (Some (JStr (JSON_stringify rt parsed)))))
           (Some (JStr ("HTTP " +:+ pretty (http_status r))))).
Proof.
  intros Hf Hok Ht. unfold runStreamCheck, runStreamCheck_try.
  rewrite Hf. unfold_bind. rewrite Hok. unfold_bind. rewrite Ht. unfold_bind.
  eexists. split; [done|]. cbn [status latencyMs message result_of].
  split_and!; try done.
  - intros ->. done.
  - intros Hne Hp. unfold extractMessage. destruct errorBody as [|c body']; [done|].
    cbn [JsString.nonempty negb]. rewrite Hp. split; [done|].
    generalize (String c body'). generalize 280%nat.
    induction n as [|n IH]; intros [|c' s']; simpl; try lia.
    specialize (IH s'). lia.
  - intros parsed m Hne Hp Hm Htr. unfold extractMessage.
    destruct errorBody as [|c body']; [done|].
    cbn [JsString.nonempty negb]. rewrite Hp, Hm.
    unfold Js.or_else at 2. rewrite Htr. unfold Js.or_else. by rewrite Htr.
  - intros parsed Hne Hp Hfalse. unfold extractMessage.
    destruct errorBody as [|c body']; [done|].
    cbn [JsString.nonempty negb]. rewrite Hp.
    unfold Js.or_else at 2. rewrite Hfalse.
    fold (Js.or_else rt (Js.get_opt (Some parsed) "error")
            (Js.or_else rt (Js.get_opt (Some parsed) "message")
               (Some (JStr (JSON_stringify rt parsed))))).
    set (v := Js.or_else rt (Js.get_opt (Some parsed) "error") _).
    unfold Js.or_else at 1 2. destruct (Js.truthy rt v) eqn:Hv; [|done].
    destruct v; [done|]. done.
Qed.
End CheckClaims.

(** ** The stream parsers *)

Section SplitFacts.
Import JsString.

Lemma append_assoc (a b c : string) : (a +:+ b) +:+ c = a +:+ (b +:+ c).
Proof.
  induction a as [|x a IH]; [done|].
  change (String x ((a +:+ b) +:+ c) = String x (a +:+ (b +:+ c))). by rewrite IH.
Qed.

Lemma append_empty_r (a : string) : a +:+ "" = a.
Proof.
  induction a as [|x a IH]; [done|].
  change (String x (a +:+ "") = String x a). by rewrite IH.
Qed.

Lemma split_nonempty sep s : split sep s ≠ [].
Proof. destruct s as [|c s]; simpl; [done|]. destruct (Ascii.eqb c sep); [done|].
  by destruct (split sep s). Qed.

Lemma split_snoc sep s : ∃ init r, split sep s = init ++ [r].
Proof.
  destruct (split sep s) as [|x l] eqn:E using rev_ind; [|by eauto].
  by apply split_nonempty in E.
Qed.

Lemma pop_or_empty_snoc init r : Checks.pop_or_empty (init ++ [r]) = (init, r).
Proof. unfold Checks.pop_or_empty. by rewrite reverse_snoc, reverse_involutive. Qed.

(** Appending text extends the last segment of a split. *)
Lemma split_append sep s t init r :
  split sep s = init ++ [r] →
  split sep (s +:+ t) = init ++ split sep (r +:+ t).
Proof.
  revert init r. induction s as [|c s IH]; intros init r; simpl.
  - intros E. destruct init as [|? [|? ?]]; by simplify_eq/=.
  - destruct (split_snoc sep s) as (i0 & r0 & E0).
    specialize (IH _ _ E0). rewrite IH, E0.
    destruct (Ascii.eqb c sep) eqn:Ec.
    + intros E. change ((EmptyString :: i0) ++ [r0] = init ++ [r]) in E.
      apply app_inj_tail in E as [<- <-]. done.
    + destruct i0 as [|x i0]; simpl.
      * intros E. change ([] ++ [String c r0] = init ++ [r]) in E.
        apply app_inj_tail in E as [<- <-]. simpl. by rewrite Ec.
      * intros E. change ((String c x :: i0) ++ [r0] = init ++ [r]) in E.
        apply app_inj_tail in E as [<- <-]. done.
Qed.
End SplitFacts.

Section ParserFacts.
Context (rt : Runtime).
Import JsString Checks.
Local Arguments slice_from : simpl never.
Local Arguments startsWith : simpl never.
Local Arguments String.eqb : simpl never.
Local Arguments split : simpl never.









(** The terminator ends the parse with the text gathered before it. *)
Lemma openai_lines_terminator before after fullResponse text :
  openai_lines rt before fullResponse = inl text →
  openai_lines rt (before ++ "data: [DONE]" :: after) fullResponse = inr text.
Proof.
  revert fullResponse. induction before as [|line before IH]; intros full; simpl.
  - by intros [= ->].
  - destruct (startsWith line "data: "); [|apply IH].
    destruct (String.eqb _ _); [done|apply IH].
Qed.



(** The Anthropic parser reads the same lines however the stream is cut. *)
Lemma anthropic_lines_app l1 l2 fullResponse :
  anthropic_lines rt (l1 ++ l2) fullResponse
  = anthropic_lines rt l2 (anthropic_lines rt l1 fullResponse).
Proof.
  revert fullResponse. induction l1 as [|line l1 IH]; intros full; simpl; [done|].
  destruct (startsWith line "data: "); apply IH.
Qed.

Lemma parseAnthropic_loop_merge c1 c2 cs ending fullResponse buffer :
  parseAnthropic_loop rt (c1 :: c2 :: cs) ending fullResponse buffer
  = parseAnthropic_loop rt ((c1 +:+ c2) :: cs) ending fullResponse buffer.
Proof.
  cbn [parseAnthropic_loop].
  destruct (split_snoc newline (buffer +:+ c1)) as (l1 & r1 & E1).
  destruct (split_snoc newline (r1 +:+ c2)) as (l2 & r2 & E2).
  rewrite <- append_assoc.
  rewrite (split_append _ _ c2 _ _ E1), E1, E2, app_assoc.
  rewrite !pop_or_empty_snoc, E2, pop_or_empty_snoc.
  by rewrite anthropic_lines_app.
Qed.

Lemma parseAnthropicStream_whole cs :
  parseAnthropicStream rt (delivered cs) = parseAnthropicStream rt (delivered [whole cs]).
Proof.
  unfold parseAnthropicStream, delivered. cbn [chunks read_error].
  destruct cs as [|c cs]; [done|].
  generalize EmptyString at 1 3. generalize EmptyString at 1 2.
  revert c. induction cs as [|c' cs IH]; intros c buffer full.
  - simpl. by rewrite append_empty_r.
  - rewrite parseAnthropic_loop_merge, IH. simpl.
    by rewrite append_assoc.
Qed.

Lemma parseAnthropicStream_any_chunking cs cs' :
  whole cs = whole cs' →
  parseAnthropicStream rt (delivered cs) = parseAnthropicStream rt (delivered cs').
Proof.
  intros E. by rewrite (parseAnthropicStream_whole cs), (parseAnthropicStream_whole cs'), E.
Qed.

Lemma openai_lines_app l1 l2 fullResponse :
  openai_lines rt (l1 ++ l2) fullResponse
  = match openai_lines rt l1 fullResponse with
    | inl text => openai_lines rt l2 text
    | inr text => inr text
    end.
Proof.
  revert fullResponse. induction l1 as [|line l1 IH]; intros full; simpl; [done|].
  destruct (startsWith line "data: "); [|apply IH].
  destruct (String.eqb _ _); [done|apply IH].
Qed.

Lemma gemini_objects_snoc l x fullResponse :
  gemini_objects rt (l ++ [x]) fullResponse = (foldl (gemini_object rt) fullResponse l, x).
Proof.
  revert fullResponse. induction l as [|y l IH]; intros full; [done|].
  simpl. destruct (l ++ [x]) as [|z l'] eqn:E; [by destruct l|].
  apply IH.
Qed.



Lemma parseGeminiStream_one_chunk chunk :
  parseGeminiStream rt (delivered [chunk])
  = Normal (foldl (gemini_object rt) "" (nonblank_lines chunk)).
Proof.
  unfold parseGeminiStream, delivered, nonblank_lines.
  cbn [chunks read_error parseGemini_loop].
  change ("" +:+ chunk) with chunk.
  set (objects := filter _ _).
  assert (Forall (λ line, nonblank line = true) objects) as Hall.
  { apply Forall_forall. intros x Hx. by apply list_elem_of_filter in Hx as [? _]. }
  destruct objects as [|x l _] using rev_ind; [done|].
  rewrite gemini_objects_snoc, foldl_app. simpl.
  rewrite Forall_app, Forall_singleton in Hall. destruct Hall as [_ Hx].
  by rewrite Hx.
Qed.



End ParserFacts.

(** ** The claims on concrete inputs *)

Section OnSamples.
Import JsString Checks Sample.

(** C1, witness: a stream finished after 3000 ms is operational, one
    finished after 6500 ms through the SDK is degraded. *)
Lemma healthy_iff_stream_consumed_witness :
  (∃ res, checkOpenAI Reference.runtime config_a (streamed 3000) = Normal res ∧
     status res = operational ∧ latencyMs res = Some 3000) ∧
  (∃ res, OpenAIProvider.checkOpenAI config_a (sdk_streamed 6500) = Normal res ∧
     status res = degraded ∧ latencyMs res = Some 6500).
Proof.
  destruct (healthy_iff_stream_consumed Reference.runtime config_a
              {| url := ensurePath (endpoint config_a) "/v1/chat/completions";
                 displayEndpoint := endpoint config_a;
                 parseStream := parseOpenAIStream Reference.runtime |}
              (streamed 3000) (sdk_streamed 6500))
    as [(res & Hres & _ & _ & Hlat) (sres & Hsres & _ & _ & Hslat)].
  split.
  - exists res. split; [exact Hres|].
    destruct Hlat as (l & Hl & -> & _ & Hop & _); [vm_compute; reflexivity|].
    split; [apply Hop; vm_compute; discriminate|exact Hl].
  - exists sres. split; [exact Hsres|].
    destruct Hslat as (l & Hl & -> & _ & _ & Hdeg); [vm_compute; reflexivity|].
    split; [apply Hdeg; vm_compute; reflexivity|exact Hl].
Defined.

(** C1, counterexample: a 200 response whose stream stalls until the
    timeout aborts it is a 2xx response, and the check fails. *)
Lemma stalled_2xx_is_not_healthy :
  ∃ res, checkOpenAI Reference.runtime config_a stalled = Normal res ∧
    status res = failed ∧
    ¬ (healthy (status res) = true ↔ response_2xx stalled = true).
Proof.
  eexists. split; [vm_compute; reflexivity|]. split; [reflexivity|].
  cbn [status]. intros [_ H]. specialize (H eq_refl). discriminate H.
Qed.

(** C2, witness: an aborted request, and a batch of two checks that
    settle in reverse order. *)
Lemma failures_are_captured_witness :
  (∃ res, checkOpenAI Reference.runtime config_a (rejected AbortError) = Normal res ∧
     status res = failed ∧ latencyMs res = None ∧ message res = JStr "请求超时") ∧
  (∃ results,
     runProviderChecks Reference.runtime [config_g; config_a]
       (λ _, rejected AbortError) [1; 0]%nat = Some (Normal results) ∧
     length results = 2%nat).
Proof.
  destruct (failures_are_captured Reference.runtime) as (_ & Hfail & Hall & Hbatch).
  split.
  - destruct (Hfail config_a
                {| url := ensurePath (endpoint config_a) "/v1/chat/completions";
                   displayEndpoint := endpoint config_a;
                   parseStream := parseOpenAIStream Reference.runtime |}
                (rejected AbortError) AbortError eq_refl)
      as (res & Hres & Hs & Hl & Hm & _).
    exists res. split_and!; [exact Hres|exact Hs|exact Hl|].
    apply Hm. reflexivity.
  - destruct (Hbatch [config_g; config_a] (λ _, rejected AbortError) [1; 0]%nat)
      as (results & Hr).
    + intros i Hi. cbn [length] in Hi.
      destruct i as [|[|i]]; [set_solver|set_solver|lia].
    + exists results. split; [exact Hr|].
      destruct (Hall _ _ _ _ Hr) as (results' & [= <-] & Hlen & _). exact Hlen.
Defined.

(** C2, counterexample: an error without a text is reported as
    "未知错误", which is not its text. *)
Lemma textless_error_message :
  ∃ res,
    checkOpenAI Reference.runtime config_a
      (rejected {| err_name := "Error"; err_message := "" |}) = Normal res ∧
    message res = JStr "未知错误" ∧ message res ≠ JStr "".
Proof. eexists. split; [vm_compute; reflexivity|]. by split. Qed.

(** C5, witness: a 429 with [error.message], and a 502 with an HTML
    body. *)
Lemma error_response_message_witness :
  (∃ res,
     checkOpenAI Reference.runtime config_a
       (refused 429 "{'error':{'message':'Rate limit reached','code':429}}") = Normal res ∧
     status res = failed ∧ latencyMs res = Some 350 ∧
     message res = JStr "Rate limit reached") ∧
  (∃ res,
     checkOpenAI Reference.runtime config_a (refused 502 "<html>Bad Gateway</html>")
       = Normal res ∧
     message res = JStr "<html>Bad Gateway</html>").
Proof.
  split.
  - destruct (error_response_message Reference.runtime config_a
                {| url := ensurePath (endpoint config_a) "/v1/chat/completions";
                   displayEndpoint := endpoint config_a;
                   parseStream := parseOpenAIStream Reference.runtime |}
                (refused 429 "{'error':{'message':'Rate limit reached','code':429}}")
                _ _ eq_refl eq_refl eq_refl)
      as (res & Hres & Hs & Hl & _ & _ & Hm & _).
    exists res. split_and!; [exact Hres|exact Hs|exact Hl|].
    eapply Hm; [discriminate|vm_compute; reflexivity|vm_compute; reflexivity|reflexivity].
  - destruct (error_response_message Reference.runtime config_a
                {| url := ensurePath (endpoint config_a) "/v1/chat/completions";
                   displayEndpoint := endpoint config_a;
                   parseStream := parseOpenAIStream Reference.runtime |}
                (refused 502 "<html>Bad Gateway</html>")
                _ _ eq_refl eq_refl eq_refl)
      as (res & Hres & _ & _ & _ & Hm & _).
    exists res. split; [exact Hres|].
    destruct Hm as [Hm _]; [discriminate|vm_compute; reflexivity|exact Hm].
Defined.

(** C5, counterexample: a JSON body without [error.message] is not
    reported as the raw body. *)
Lemma json_error_without_error_message :
  ∃ res,
    checkOpenAI Reference.runtime config_a (refused 429 "{'message':'slow down'}")
      = Normal res ∧
    Js.get_opt (Js.get_opt (Reference.JSON_parse (quoted "{'message':'slow down'}"))
                  "error") "message" = None ∧
    message res = JStr "slow down" ∧
    message res ≠ JStr (slice_to 280 (quoted "{'message':'slow down'}")).
Proof. eexists. split; [vm_compute; reflexivity|]. by split_and!. Qed.

(** C4: one OpenAI event, and two Gemini objects, delivered whole and
    delivered in two chunks. *)
Theorem parsers_depend_on_chunking :
  (parseOpenAIStream Reference.runtime
     (delivered [line openai_event_hi]) = Normal "hi" ∧
   parseOpenAIStream Reference.runtime
     (delivered [quoted "data: {'choices':[{'delta':{'con";
                 line "tent':'hi'}}]}"]) = Normal "" ∧
   whole [quoted "data: {'choices':[{'delta':{'con"; line "tent':'hi'}}]}"]
     = whole [line openai_event_hi]) ∧
  (parseGeminiStream Reference.runtime
     (delivered [line gemini_a +:+ line gemini_b]) = Normal "ab" ∧
   parseGeminiStream Reference.runtime
     (delivered [line gemini_a; line gemini_b]) = Normal "" ∧
   whole [line gemini_a; line gemini_b] = whole [line gemini_a +:+ line gemini_b]).
Proof. split; split_and!; vm_compute; reflexivity. Qed.

End OnSamples.


(** ** History retention *)

Section SqlFacts.
Import HistorySql.
Implicit Types (rows : list HistoryRow) (r : HistoryRow) (c : string).

Lemma newest_first_consistent : consistent newest_first.
Proof. unfold newest_first. split; intros; lia. Qed.

Lemma elem_of_number_rows (rows : list HistoryRow) r (m : Z) :
  (r, m) ∈ number_rows rows ↔ ∃ i, rows !! i = Some r ∧ m = Z.of_nat (S i).
Proof.
  unfold number_rows. rewrite list_elem_of_lookup. split.
  - intros (i & Hi). rewrite list_lookup_imap in Hi.
    destruct (rows !! i) as [r'|] eqn:E; simplify_eq/=. eauto.
  - intros (i & Hi & ->). exists i. by rewrite list_lookup_imap, Hi.
Qed.

Lemma elem_of_of_config c rows r : r ∈ of_config c rows ↔ config_id r = c ∧ r ∈ rows.
Proof. unfold of_config. by rewrite list_elem_of_filter. Qed.

Lemma elem_of_ranked rows r (m : Z) :
  (r, m) ∈ ranked rows ↔
  ∃ i, sort newest_first (of_config (config_id r) rows) !! i = Some r ∧ m = Z.of_nat (S i).
Proof.
  unfold ranked. rewrite list_elem_of_bind. split.
  - intros (c & Hin & _). apply elem_of_number_rows in Hin as (i & Hi & ->).
    assert (config_id r = c) as <-; [|eauto].
    apply list_elem_of_lookup_2, elem_of_sort, elem_of_of_config in Hi. tauto.
  - intros (i & Hi & ->). exists (config_id r). split.
    + apply elem_of_number_rows. eauto.
    + apply elem_of_remove_dups, list_elem_of_fmap.
      apply list_elem_of_lookup_2, elem_of_sort, elem_of_of_config in Hi as [_ Hi].
      eauto.
Qed.

Lemma of_config_NoDup c rows : NoDup (history_id <$> rows) → NoDup (of_config c rows).
Proof. intros H. apply NoDup_filter. by eapply NoDup_fmap_1. Qed.

Lemma same_id_same_row rows r r' :
  NoDup (history_id <$> rows) → r ∈ rows → r' ∈ rows → history_id r = history_id r' →
  r = r'.
Proof.
  intros Hnd (i & Hi)%list_elem_of_lookup (j & Hj)%list_elem_of_lookup Hid.
  assert (i = j) as ->; [|congruence].
  eapply (NoDup_lookup _ _ _ (history_id r) Hnd); rewrite list_lookup_fmap.
  - by rewrite Hi.
  - by rewrite Hj, Hid.
Qed.

(** A row survives the pruning exactly when it is among the first
    [limit_per_config] rows of its config, newest first. *)
Lemma kept_iff_among_newest limit_per_config rows r :
  NoDup (history_id <$> rows) → r ∈ rows →
  history_id r ∉
    ((λ rn : HistoryRow * Z, history_id rn.1) <$>
       filter (λ rn : HistoryRow * Z, limit_per_config < rn.2) (ranked rows)) ↔
  r ∈ take (Z.to_nat limit_per_config)
         (sort newest_first (of_config (config_id r) rows)).
Proof.
  intros Hnd Hr.
  assert (NoDup (sort newest_first (of_config (config_id r) rows))) as Hsnd.
  { rewrite sort_Permutation. by apply of_config_NoDup. }
  assert (r ∈ sort newest_first (of_config (config_id r) rows)) as Hin.
  { apply elem_of_sort, elem_of_of_config. done. }
  apply list_elem_of_lookup in Hin as (i & Hi).
  rewrite elem_of_take. split.
  - intros Hkeep. exists i. split; [done|].
    destruct (decide (i < Z.to_nat limit_per_config)%nat) as [|Hge]; [done|].
    destruct Hkeep. apply list_elem_of_fmap. exists (r, Z.of_nat (S i)). split; [done|].
    apply list_elem_of_filter. split; [simpl; lia|].
    apply elem_of_ranked. eauto.
  - intros (j & Hj & Hlt) Hdoomed.
    apply list_elem_of_fmap in Hdoomed as ([r' m] & Hid & Hin).
    apply list_elem_of_filter in Hin as [Hm Hin]. simpl in *.
    apply elem_of_ranked in Hin as (k & Hk & ->).
    assert (r' ∈ rows) as Hr'.
    { apply list_elem_of_lookup_2, elem_of_sort, elem_of_of_config in Hk. tauto. }
    assert (r = r') as <- by (by eapply same_id_same_row).
    assert (k = j) as -> by (by eapply NoDup_lookup).
    lia.
Qed.

Lemma filter_ext_elem_of {A} (P Q : A → Prop) `{∀ x, Decision (P x)} `{∀ x, Decision (Q x)}
    (l : list A) :
  (∀ x, x ∈ l → P x ↔ Q x) → filter P l = filter Q l.
Proof.
  induction l as [|x l IH]; intros HPQ; [done|].
  rewrite !filter_cons.
  rewrite IH by (intros; apply HPQ; by right).
  destruct (decide (P x)), (decide (Q x)); try done;
    exfalso; specialize (HPQ x (list_elem_of_here _ _)); tauto.
Qed.

Lemma filter_elem_of_take {A} `{EqDecision A} (l : list A) n :
  NoDup l → filter (λ x, x ∈ take n l) l = take n l.
Proof.
  revert n. induction l as [|x l IH]; intros n Hnd; [by destruct n|].
  apply NoDup_cons in Hnd as [Hx Hnd].
  destruct n as [|n]; simpl.
  - rewrite filter_cons. case_decide as H; [by inversion H|].
    exact (IH 0%nat Hnd).
  - rewrite filter_cons. case_decide as H; [|destruct H; by left].
    f_equal. etrans; [|exact (IH n Hnd)].
    apply filter_ext_elem_of. intros y Hy. rewrite elem_of_cons.
    split; [intros [->|]; done|by right].
Qed.

Lemma of_config_prune c limit_per_config rows :
  NoDup (history_id <$> rows) →
  of_config c (prune_check_history limit_per_config rows)
  ≡ₚ take (Z.to_nat limit_per_config) (sort newest_first (of_config c rows)).
Proof.
  intros Hnd. unfold prune_check_history, of_config at 1.
  rewrite list_filter_filter.
  set (newest := sort newest_first (of_config c rows)).
  set (n := Z.to_nat limit_per_config).
  trans (filter (λ r, r ∈ take n newest) newest).
  2: { rewrite filter_elem_of_take; [done|].
       subst newest. rewrite sort_Permutation. by apply of_config_NoDup. }
  trans (filter (λ r, r ∈ take n newest) (of_config c rows)).
  2: { apply (filter_Permutation _). symmetry. apply sort_Permutation. }
  unfold of_config at 1. rewrite list_filter_filter.
  erewrite filter_ext_elem_of; [done|].
  intros r Hr. simpl. subst newest n. split.
  - intros [Hc Hk]. split; [|done]. subst c.
    by apply kept_iff_among_newest.
  - intros [Hk Hc]. split; [done|]. subst c.
    by apply kept_iff_among_newest.
Qed.

Lemma filter_bind {A B} (P : B → Prop) `{∀ x, Decision (P x)} (f : A → list B) (l : list A) :
  filter P (l ≫= f) = l ≫= (λ x, filter P (f x)).
Proof.
  induction l as [|x l IH]; [done|].
  by rewrite !bind_cons, filter_app, IH.
Qed.

Lemma filter_all {A} (P : A → Prop) `{∀ x, Decision (P x)} (l : list A) :
  (∀ x, x ∈ l → P x) → filter P l = l.
Proof.
  induction l as [|x l IH]; intros HP; [done|].
  rewrite filter_cons, decide_True by (apply HP; by left).
  f_equal. apply IH. intros; apply HP; by right.
Qed.

Lemma filter_none {A} (P : A → Prop) `{∀ x, Decision (P x)} (l : list A) :
  (∀ x, x ∈ l → ¬ P x) → filter P l = [].
Proof.
  induction l as [|x l IH]; intros HP; [done|].
  rewrite filter_cons, decide_False by (apply HP; by left).
  apply IH. intros; apply HP; by right.
Qed.

Lemma number_rows_config c rows r (m : Z) :
  (r, m) ∈ number_rows (sort newest_first (of_config c rows)) → config_id r = c.
Proof.
  intros (i & Hi & _)%elem_of_number_rows.
  apply list_elem_of_lookup_2, elem_of_sort, elem_of_of_config in Hi. tauto.
Qed.

(** The ranked rows of one config are its rows, newest first, numbered
    from 1. *)
Lemma ranked_of_config c rows :
  filter (λ rn : HistoryRow * Z, config_id rn.1 = c) (ranked rows)
  = number_rows (sort newest_first (of_config c rows)).
Proof.
  unfold ranked. rewrite filter_bind.
  assert (∀ cs, NoDup cs →
    cs ≫= (λ c', filter (λ rn : HistoryRow * Z, config_id rn.1 = c)
                   (number_rows (sort newest_first (of_config c' rows))))
    = if decide (c ∈ cs) then number_rows (sort newest_first (of_config c rows)) else [])
    as Hblocks.
  { induction 1 as [|c' cs Hc' Hcs IH]; [done|].
    rewrite bind_cons, IH. clear IH. destruct (decide (c' = c)) as [->|Hne].
    - destruct (decide (c ∈ cs)); [done|].
      destruct (decide (c ∈ c :: cs)) as [_|Hn]; [|destruct Hn; by left].
      rewrite app_nil_r. apply filter_all.
      intros [r m] Hin. simpl. by eapply number_rows_config.
    - rewrite filter_none.
      + simpl. destruct (decide (c ∈ cs)), (decide (c ∈ c' :: cs)) as [Hy|Hn]; try done.
        * destruct Hn. by right.
        * apply elem_of_cons in Hy as [?|?]; done.
      + intros [r m] Hin. simpl. apply number_rows_config in Hin. congruence. }
  rewrite Hblocks by apply NoDup_remove_dups.
  case_decide as Hc; [done|].
  assert (of_config c rows = []) as ->; [|done].
  apply filter_none. intros r Hr ?. destruct Hc.
  apply elem_of_remove_dups, list_elem_of_fmap. eauto.
Qed.

Lemma number_rows_within limit_per_config rows :
  filter (λ rn : HistoryRow * Z, rn.2 ≤ limit_per_config) (number_rows rows)
  = number_rows (take (Z.to_nat limit_per_config) rows).
Proof.
  unfold number_rows.
  assert (∀ k, filter (λ rn : HistoryRow * Z, rn.2 ≤ limit_per_config)
                 (imap (λ i r, (r, Z.of_nat (S (k + i)))) rows)
               = imap (λ i r, (r, Z.of_nat (S (k + i))))
                   (take (Z.to_nat limit_per_config - k) rows)) as Hk.
  { induction rows as [|r rows IH]; intros k; [by rewrite take_nil|].
    rewrite imap_cons, filter_cons. simpl.
    erewrite (imap_ext _ (λ i r, (r, Z.of_nat (S (S k + i))))); last first.
    { intros i x _. simpl. do 2 f_equal. lia. }
    rewrite IH. case_decide as Hle.
    - destruct (Z.to_nat limit_per_config - k)%nat as [|d] eqn:Ed; [lia|].
      simpl. f_equal. replace (Z.to_nat limit_per_config - S k)%nat with d by lia.
      apply imap_ext. intros i x _. simpl. do 2 f_equal. lia.
    - replace (Z.to_nat limit_per_config - S k)%nat with 0%nat by lia.
      replace (Z.to_nat limit_per_config - k)%nat with 0%nat by lia. done. }
  specialize (Hk 0%nat). rewrite Nat.sub_0_r in Hk. exact Hk.
Qed.

Lemma length_bind_at_most_one {A B} (f : A → list B) (l : list A) :
  (∀ x, (length (f x) ≤ 1)%nat) → (length (l ≫= f) ≤ length l)%nat.
Proof.
  intros Hf. induction l as [|x l IH]; [done|].
  rewrite bind_cons, length_app. simpl. specialize (Hf x). lia.
Qed.

Lemma at_most_one_config (check_configs : list ConfigRow) c :
  NoDup (c_id <$> check_configs) →
  (length (filter (λ cfg : ConfigRow, c_id cfg = c) check_configs) ≤ 1)%nat.
Proof.
  induction check_configs as [|cfg0 cfgs IH]; [simpl; lia|].
  rewrite fmap_cons. intros [Hc0 Hnd]%NoDup_cons.
  rewrite filter_cons. case_decide as Hc; [|by apply IH].
  rewrite filter_none; [simpl; lia|].
  intros cfg Hcfg ?. destruct Hc0. apply list_elem_of_fmap. exists cfg. split; [congruence|done].
Qed.

(** The rows that [get_recent_check_history] returns for one config. *)
Lemma recent_of_config collate limit_per_config target_config_ids
    check_history check_configs c :
  filter (λ o, o_config_id o = c)
    (get_recent_check_history collate limit_per_config target_config_ids
       check_history check_configs)
  ≡ₚ (rn ← number_rows
            (take (Z.to_nat limit_per_config)
               (sort newest_first
                  (of_config c
                     (filter (λ h, targeted target_config_ids h = true) check_history))));
      cfg ← filter (λ cfg : ConfigRow, c_id cfg = config_id rn.1) check_configs;
      [recent_row rn.1 cfg]).
Proof.
  unfold get_recent_check_history.
  rewrite (sort_Permutation (by_name_then_newest collate)).
  rewrite filter_bind.
  rewrite <- number_rows_within, <- ranked_of_config.
  rewrite list_filter_filter.
  set (selected := filter _ check_history).
  induction (ranked selected) as [|[r m] l IH]; [done|].
  rewrite !filter_cons. simpl.
  destruct (decide (m ≤ limit_per_config)) as [Hm|Hm];
    destruct (decide (m ≤ limit_per_config ∧ config_id r = c)) as [[Hm' Hc]|Hc];
    try (exfalso; tauto); try done.
  - rewrite !bind_cons. f_equiv; [|done].
    rewrite filter_all; [done|]. intros o Ho.
    apply list_elem_of_bind in Ho as (cfg & Ho & _).
    apply list_elem_of_singleton in Ho as ->. done.
  - rewrite bind_cons, <- IH.
    rewrite filter_none; [done|]. intros o Ho.
    apply list_elem_of_bind in Ho as (cfg & Ho & _).
    apply list_elem_of_singleton in Ho as ->. simpl. tauto.
Qed.

(** C6.  After rows are inserted and the table is pruned with a limit,
    the rows left for each config are the first [limit] of its rows,
    newest first: every row left is at least as recent as every row
    deleted, and their number is the smaller of the limit and the number
    of rows the config had, so exactly 60 when the limit is 60 and the
    config had at least 60 rows.  [get_recent_check_history] returns for
    each config at most [limit_per_config] rows, each made of one of the
    [limit_per_config] newest rows selected for that config. *)
Theorem prune_keeps_newest limit_per_config check_history appended c :
  NoDup (history_id <$> insert_rows appended check_history) →
  let table := insert_rows appended check_history in
  let newest := sort newest_first (of_config c table) in
  let left := of_config c (prune_check_history limit_per_config table) in
  left ≡ₚ take (Z.to_nat limit_per_config) newest ∧
  (∀ kept gone, kept ∈ left →
     gone ∈ of_config c table → gone ∉ left → checked_at gone ≤ checked_at kept) ∧
  length left = Nat.min (Z.to_nat limit_per_config) (length (of_config c table)) ∧
  (limit_per_config = default_limit_per_config →
   (60 ≤ length (of_config c table))%nat → length left = 60%nat) ∧
  (∀ collate target_config_ids check_configs,
     NoDup (c_id <$> check_configs) →
     let recent :=
       filter (λ o, o_config_id o = c)
         (get_recent_check_history collate limit_per_config target_config_ids
            table check_configs) in
     (length recent ≤ Z.to_nat limit_per_config)%nat ∧
     ∀ o, o ∈ recent →
       ∃ r (cfg : ConfigRow), r ∈ take (Z.to_nat limit_per_config)
                     (sort newest_first
                        (of_config c (filter (λ h, targeted target_config_ids h = true) table)))
               ∧ cfg ∈ check_configs ∧ o = recent_row r cfg).
Proof.
  intros Hnd table newest left.
  assert (left ≡ₚ take (Z.to_nat limit_per_config) newest) as Hleft
    by (by apply of_config_prune).
  assert (length left = Nat.min (Z.to_nat limit_per_config) (length (of_config c table)))
    as Hlen.
  { rewrite Hleft, length_take. subst newest. by rewrite length_sort. }
  split_and!; [done| |done| |].
  - intros kept gone Hkept Hgone Hnot.
    rewrite Hleft in Hkept, Hnot.
    assert (gone ∈ drop (Z.to_nat limit_per_config) newest) as Hdrop.
    { assert (gone ∈ newest) as Hin by (by apply elem_of_sort).
      rewrite <- (take_drop (Z.to_nat limit_per_config) newest) in Hin.
      apply elem_of_app in Hin as [?|?]; done. }
    pose proof (sort_ascending newest_first (of_config c table) newest_first_consistent)
      as Hsorted.
    fold newest in Hsorted. unfold ascending in Hsorted.
    rewrite <- (take_drop (Z.to_nat limit_per_config) newest) in Hsorted.
    pose proof (StronglySorted_app_1_elem_of _ _ _ _ _ Hsorted Hkept Hdrop) as Hle.
    unfold newest_first in Hle. lia.
  - intros -> Hmany. rewrite Hlen. unfold default_limit_per_config. lia.
  - intros collate targets check_configs Hcfg recent.
    pose proof (recent_of_config collate limit_per_config targets table check_configs c)
      as Hrecent.
    fold recent in Hrecent. split.
    + rewrite Hrecent.
      etrans; [apply length_bind_at_most_one|].
      * intros [r m]. etrans; [apply length_bind_at_most_one|].
        -- intros ?. done.
        -- by apply at_most_one_config.
      * unfold number_rows. rewrite length_imap, length_take. lia.
    + intros o Ho. rewrite Hrecent in Ho.
      apply list_elem_of_bind in Ho as ([r m] & Ho & Hrm).
      apply list_elem_of_bind in Ho as (cfg & Ho & Hcfg').
      apply list_elem_of_singleton in Ho as ->.
      apply elem_of_number_rows in Hrm as (i & Hi & _).
      apply list_elem_of_filter in Hcfg' as [_ Hcfg'].
      exists r, cfg. split_and!; [|done..].
      by eapply list_elem_of_lookup_2.
Qed.
End SqlFacts.

(** ** Refresh coalescing *)

Section InterleavingFacts.
Import GroupData.
Context (pollIntervalMs : Z).
Implicit Types (s : Process) (p q : PromiseId) (k : string).

Lemma key_of_Some p l k : key_of p l = Some k → (p, k) ∈ l.
Proof.
  induction l as [|[q k'] l IH]; simpl; [done|].
  case_bool_decide; [intros [= ->]; subst; by left|right; auto].
Qed.

Lemma elem_of_without p q k l : (q, k) ∈ without p l ↔ q ≠ p ∧ (q, k) ∈ l.
Proof. unfold without. by rewrite list_elem_of_filter. Qed.

Lemma entry_of_insert k k' e (m : gmap string PingCacheEntry) :
  entry_of k' (<[k := e]> m) = if decide (k = k') then e else entry_of k' m.
Proof.
  unfold entry_of. rewrite lookup_insert. by case_decide.
Qed.

Lemma entry_of_getPingCacheEntry k k' (m : gmap string PingCacheEntry) :
  entry_of k' (getPingCacheEntry k m) = entry_of k' m.
Proof.
  unfold getPingCacheEntry, entry_of. destruct (m !! k) eqn:E; [done|].
  rewrite lookup_insert. case_decide; [subst; by rewrite E|done].
Qed.

Lemma refresh_path_Started nothing_allowed now e :
  refresh_path nothing_allowed pollIntervalMs now e = Started →
  inflight e = None ∧
  ∀ h, history e = Some h → pollIntervalMs ≤ now - lastPingAt e.
Proof.
  unfold refresh_path. destruct nothing_allowed; [done|].
  destruct (history e) as [h|].
  - case_bool_decide; [done|]. destruct (inflight e); [done|].
    intros _. split; [done|]. intros ? _. lia.
  - destruct (inflight e); [done|]. done.
Qed.

Lemma same_key_same_round s p q k :
  coalesced pollIntervalMs s → (p, k) ∈ open_rounds s → (q, k) ∈ open_rounds s → p = q.
Proof.
  intros Hs Hp Hq. apply (round_is_inflight _ s Hs) in Hp, Hq. congruence.
Qed.

Lemma NoDup_fst_move p k (l1 l2 : list (PromiseId * string)) :
  NoDup (fst <$> (l1 ++ l2)) → (p, k) ∈ l1 →
  NoDup (fst <$> (without p l1 ++ (p, k) :: l2)).
Proof.
  rewrite !fmap_app, fmap_cons. simpl.
  intros Hnd Hin. apply NoDup_app in Hnd as (Hl1 & Hdisj & Hl2).
  apply NoDup_app. split_and!.
  - unfold without. clear -Hl1. induction l1 as [|[q k'] l1 IH]; [constructor|].
    rewrite fmap_cons in Hl1. apply NoDup_cons in Hl1 as [Hq Hl1].
    rewrite filter_cons. simpl. case_decide; [|by apply IH].
    rewrite fmap_cons. apply NoDup_cons. split; [|by apply IH].
    intros Hq'. destruct Hq.
    apply list_elem_of_fmap in Hq' as ([q' k''] & -> & Hq').
    apply list_elem_of_filter in Hq' as [_ Hq'].
    apply list_elem_of_fmap. by exists (q', k'').
  - intros q Hq1 Hq2.
    apply list_elem_of_fmap in Hq1 as ([q' k'] & -> & Hq1).
    apply elem_of_without in Hq1 as [Hne Hq1]. simpl in *.
    apply elem_of_cons in Hq2 as [?|Hq2]; [done|].
    apply (Hdisj q'); [|done]. apply list_elem_of_fmap. by exists (q', k').
  - apply NoDup_cons. split; [|done].
    apply Hdisj. apply list_elem_of_fmap. by exists (p, k).
Qed.

Lemma NoDup_fst_without p (l1 l2 : list (PromiseId * string)) :
  NoDup (fst <$> (l1 ++ l2)) → NoDup (fst <$> (l1 ++ without p l2)).
Proof.
  rewrite !fmap_app. intros (Hl1 & Hdisj & Hl2)%NoDup_app.
  apply NoDup_app. split_and!; [done| |].
  - intros q Hq1 Hq2. apply (Hdisj q Hq1).
    apply list_elem_of_fmap in Hq2 as ([q' k'] & -> & Hq2).
    apply elem_of_without in Hq2 as [_ Hq2].
    apply list_elem_of_fmap. by exists (q', k').
  - unfold without. clear -Hl2. induction l2 as [|[q k'] l2 IH]; [constructor|].
    rewrite fmap_cons in Hl2. apply NoDup_cons in Hl2 as [Hq Hl2].
    rewrite filter_cons. simpl. case_decide; [|by apply IH].
    rewrite fmap_cons. apply NoDup_cons. split; [|by apply IH].
    intros Hq'. destruct Hq.
    apply list_elem_of_fmap in Hq' as ([q' k''] & -> & Hq').
    apply list_elem_of_filter in Hq' as [_ Hq'].
    apply list_elem_of_fmap. by exists (q', k'').
Qed.

Lemma coalesced_started : coalesced pollIntervalMs started_process.
Proof.
  split; unfold open_rounds; simpl.
  - intros p k H. inversion H.
  - constructor.
  - intros p k H. inversion H.
  - intros p k h H. inversion H.
Qed.

Lemma moved_stays_open p k q k' (l1 l2 : list (PromiseId * string)) :
  (p, k) ∈ l1 → (q, k') ∈ without p l1 ++ (p, k) :: l2 → (q, k') ∈ l1 ++ l2.
Proof.
  intros Hp [[_ Hin]%elem_of_without|[[= -> ->]|Hin]%elem_of_cons]%elem_of_app;
    apply elem_of_app; auto.
Qed.

Lemma closed_was_open p q k' (l1 l2 : list (PromiseId * string)) :
  (q, k') ∈ l1 ++ without p l2 → (q, k') ∈ l1 ++ l2.
Proof.
  intros [Hin|[_ Hin]%elem_of_without]%elem_of_app; apply elem_of_app; auto.
Qed.

Lemma coalesced_later s k now :
  coalesced pollIntervalMs s → clock s ≤ now →
  coalesced pollIntervalMs
    {| entries := getPingCacheEntry k (entries s); running := running s;
       ended := ended s; rounds := rounds s; clock := now |}.
Proof.
  intros [H1 H2 H3 H4] Hclock. split; unfold open_rounds in *; simpl.
  - exact H1.
  - exact H2.
  - intros p k' Hin. rewrite entry_of_getPingCacheEntry. by apply H3.
  - intros p k' h Hin. rewrite entry_of_getPingCacheEntry.
    intros Hh. specialize (H4 _ _ _ Hin Hh). lia.
Qed.

Lemma coalesced_step ev s s' :
  coalesced pollIntervalMs s → step pollIntervalMs ev s = Some s' →
  coalesced pollIntervalMs s'.
Proof.
  intros Hs Hstep. destruct ev as [k nothing_allowed now|p nextHistory now|p|p]; simpl in Hstep.
  - (* the synchronous prefix of a call *)
    case_bool_decide as Hclock; [|done].
    destruct (refresh_path nothing_allowed pollIntervalMs now (entry_of k (entries s)))
      eqn:Hpath;
      try (injection Hstep as <-; by apply coalesced_later).
    apply refresh_path_Started in Hpath as [Hnone Hstale].
    assert (∀ q, (q, k) ∉ open_rounds s) as Hfree.
    { intros q Hq. apply (round_is_inflight _ s Hs) in Hq. congruence. }
    simplify_eq. destruct Hs as [H1 H2 H3 H4].
    split; unfold open_rounds in *; simpl.
    + intros p k' [[= -> ->]|Hin]%elem_of_cons; [lia|].
      specialize (H1 _ _ Hin). lia.
    + apply NoDup_cons. split; [|done].
      intros ([q k'] & Hq & Hin)%list_elem_of_fmap. simpl in Hq. subst q.
      specialize (H1 _ _ Hin). lia.
    + intros p k' [[= -> ->]|Hin]%elem_of_cons; rewrite entry_of_insert.
      * by rewrite decide_True.
      * rewrite decide_False; [by apply H3|]. intros ->. by eapply Hfree.
    + intros p k' h [[= -> ->]|Hin]%elem_of_cons; rewrite entry_of_insert.
      * rewrite decide_True by done. simpl. apply Hstale.
      * rewrite decide_False.
        -- intros Hh. specialize (H4 _ _ _ Hin Hh). lia.
        -- intros ->. eapply Hfree. apply elem_of_app. by left.
  - (* a round of checks ends and stores its history *)
    case_bool_decide as Hclock; [|done].
    destruct (key_of p (running s)) as [k|] eqn:Hk; [|done].
    apply key_of_Some in Hk. simplify_eq/=.
    assert ((p, k) ∈ open_rounds s) as Hopen by (apply elem_of_app; by left).
    pose proof Hs as [H1 H2 H3 H4].
    split; unfold open_rounds in *; simpl.
    + intros q k' Hin. eapply H1, moved_stays_open; done.
    + by apply NoDup_fst_move.
    + intros q k' Hin. apply (moved_stays_open _ _ _ _ _ _ Hk) in Hin.
      rewrite entry_of_insert. case_decide as Hkk; [subst k'; simpl|]; by apply H3.
    + intros q k' h [Hne Hin]%elem_of_without. rewrite entry_of_insert.
      rewrite decide_False.
      * intros Hh. specialize (H4 _ _ _ Hin Hh). lia.
      * intros ->. destruct Hne.
        eapply (same_key_same_round s); [done| |done]. apply elem_of_app. by left.
  - (* a round of checks fails *)
    destruct (key_of p (running s)) as [k|] eqn:Hk; [|done].
    apply key_of_Some in Hk. simplify_eq/=.
    pose proof Hs as [H1 H2 H3 H4].
    split; unfold open_rounds in *; simpl.
    + intros q k' Hin. eapply H1, moved_stays_open; done.
    + by apply NoDup_fst_move.
    + intros q k' Hin. eapply H3, moved_stays_open; done.
    + intros q k' h [Hne Hin]%elem_of_without. by eapply H4.
  - (* the [finally] of the call that began the round *)
    destruct (key_of p (ended s)) as [k|] eqn:Hk; [|done].
    apply key_of_Some in Hk. simplify_eq/=.
    assert ((p, k) ∈ open_rounds s) as Hopen by (apply elem_of_app; by right).
    pose proof Hs as [H1 H2 H3 H4].
    assert (∀ q, (q, k) ∈ running s ++ without p (ended s) → False) as Hfree.
    { intros q Hq.
      assert (q = p) as ->.
      { eapply (same_key_same_round s); [done| |done]. by eapply closed_was_open. }
      apply elem_of_app in Hq as [Hq|[? _]%elem_of_without]; [|done].
      unfold open_rounds in H2. rewrite fmap_app in H2.
      apply NoDup_app in H2 as (_ & Hdisj & _).
      apply (Hdisj p); apply list_elem_of_fmap; [by exists (p, k)|by exists (p, k)]. }
    split; unfold open_rounds in *; simpl.
    + intros q k' Hin. eapply H1, closed_was_open; done.
    + by apply NoDup_fst_without.
    + intros q k' Hin. rewrite entry_of_insert. rewrite decide_False.
      * eapply H3, closed_was_open; done.
      * intros ->. by eapply Hfree.
    + intros q k' h Hin. rewrite entry_of_insert. rewrite decide_False; [by eapply H4|].
      intros ->. eapply Hfree. apply elem_of_app. by left.
Qed.

Lemma coalesced_run evs s s' :
  coalesced pollIntervalMs s → run pollIntervalMs evs s = Some s' →
  coalesced pollIntervalMs s'.
Proof.
  revert s. induction evs as [|ev evs IH]; intros s Hs; simpl.
  - by intros [= <-].
  - destruct (step pollIntervalMs ev s) as [s1|] eqn:Hstep; [|done].
    simpl. apply IH. by eapply coalesced_step.
Qed.

Lemma reachable_coalesced s : reachable pollIntervalMs s → coalesced pollIntervalMs s.
Proof. intros [evs Hrun]. eapply coalesced_run; [apply coalesced_started|done]. Qed.

Lemma in_flight_open s p k : p ∈ in_flight k s ↔ (p, k) ∈ running s.
Proof.
  unfold in_flight. rewrite list_elem_of_fmap. split.
  - intros ([q k'] & -> & [Hk Hin]%list_elem_of_filter). simpl in *. by subst.
  - intros Hin. exists (p, k). split; [done|]. by apply list_elem_of_filter.
Qed.

Lemma in_flight_at_most_one s k :
  coalesced pollIntervalMs s → (length (in_flight k s) ≤ 1)%nat.
Proof.
  intros Hs.
  assert (NoDup (in_flight k s)) as Hnd.
  { unfold in_flight. pose proof (rounds_distinct _ s Hs) as H.
    unfold open_rounds in H. rewrite fmap_app in H. apply NoDup_app in H as [H _].
    induction (running s) as [|[q k'] l IH]; [constructor|].
    rewrite fmap_cons in H. apply NoDup_cons in H as [Hq H].
    rewrite filter_cons. simpl. case_decide; [|by apply IH].
    rewrite fmap_cons. apply NoDup_cons. split; [|by apply IH].
    intros ([q' k''] & Hq' & [_ Hin]%list_elem_of_filter)%list_elem_of_fmap.
    destruct Hq. apply list_elem_of_fmap. by exists (q', k''). }
  destruct (in_flight k s) as [|p [|q l]] eqn:E; simpl; [lia..|].
  assert (p = q) as ->.
  { eapply (same_key_same_round s); [done| |];
      apply elem_of_app; left; apply in_flight_open; rewrite E; set_solver. }
  apply NoDup_cons in Hnd as [Hnd _]. destruct Hnd. by left.
Qed.
End InterleavingFacts.

(** ** The group dashboard *)


Section DashboardFacts.
Context (rt : Runtime) {Store : Type}.
Context (loadProviderConfigsFromDB : Store → Completion (list ProviderConfig)).
Context (loadHistory : Store → Completion GroupData.HistorySnapshot).
Context (appendHistory :
  list CheckResult → Store → Completion GroupData.HistorySnapshot * Store).
Context (runProviderChecks :
  list ProviderConfig → (nat → Exchange) → list nat →
  option (Completion (list CheckResult))).
Import GroupData.

Local Abbreviation refresh := (refreshHistory loadHistory appendHistory runProviderChecks).
Local Abbreviation load :=
  (loadGroupDashboardData rt loadProviderConfigsFromDB loadHistory appendHistory
     runProviderChecks).

Ltac step_m :=
  unfold readFilteredHistory in *;
  unfold bind, ret, modify, of_store, new_promise, finally_,
    await_promise, run_checks, append_history, update_entry, with_cache in *;
  cbn [world_of returned store cache probed written next_promise] in *.

(** What a refresh adds to the logs: nothing, or one round of checks over
    the configs it was given, followed by at most one batch, which holds
    the results of that round. *)
Lemma refreshHistory_logs env cacheKey allowedIds activeConfigs w :
  let o := refresh env cacheKey allowedIds activeConfigs w in
  (probed (world_of o) = probed w ∧ written (world_of o) = written w ∧
   store (world_of o) = store w) ∨
  (probed (world_of o) = probed w ++ [activeConfigs] ∧
   (written (world_of o) = written w ∨
    ∃ results,
      runProviderChecks activeConfigs (network env) (order env)
        = Some (Normal results) ∧
      written (world_of o) = written w ++ [results])).
Proof.
  unfold refreshHistory.
  destruct (refresh_path _ _ _ _); step_m; [by left..| |].
  { left. by destruct (awaited env p). }
  right.
  destruct (runProviderChecks activeConfigs (network env) (order env))
    as [[results|e]|] eqn:Hrun; cbn; [|by auto..].
  destruct results as [|r results].
  - step_m. destruct (loadHistory (store w)); cbn; auto.
  - step_m. destruct (appendHistory (r :: results) (store w)) as [[h|e] store'] eqn:Ha;
      cbn; split; try done; right; by eexists.
Qed.

(** The call, when it reads the configs and the group is not empty. *)
Lemma loadGroupDashboardData_unfold env targetGroupName refreshMode w allConfigs :
  loadProviderConfigsFromDB (store w) = Normal allConfigs →
  group_of targetGroupName allConfigs ≠ [] →
  let groupConfigs := group_of targetGroupName allConfigs in
  let allowedIds := remove_dups (id <$> active groupConfigs) in
  let cacheKey := cache_key targetGroupName (pollIntervalMs env) allowedIds in
  let w1 := with_cache (getPingCacheEntry cacheKey) w in
  load env targetGroupName refreshMode w =
    match loadHistory (store w) with
    | Throw e => Thrown e w1
    | Normal stored =>
        let history := filterHistory allowedIds stored in
        let refreshed :=
          match default missing refreshMode with
          | always => refresh env cacheKey allowedIds (active groupConfigs) w1
          | missing =>
              match allowedIds, history with
              | _ :: _, [] => refresh env cacheKey allowedIds (active groupConfigs) w1
              | _, _ => Done history w1
              end
          | never => Done history w1
          end in
        match refreshed with
        | Done history' w' =>
            Done (Some (assemble rt env targetGroupName (maintained groupConfigs) history')) w'
        | Thrown e w' => Thrown e w'
        | Pending w' => Pending w'
        end
    end.
Proof.
  intros Hconfigs Hgroup. unfold loadGroupDashboardData.
  unfold bind at 1, of_store at 1. rewrite Hconfigs.
  destruct (group_of targetGroupName allConfigs) as [|c0 cs] eqn:Hg; [done|]. cbv zeta.
  step_m. destruct (loadHistory (store w)); [|done].
  cbn. destruct (default missing refreshMode); try done.
  destruct (remove_dups _); [done|]. by destruct (filterHistory _ _).
Qed.

Lemma loadGroupDashboardData_empty env targetGroupName refreshMode w allConfigs :
  loadProviderConfigsFromDB (store w) = Normal allConfigs →
  group_of targetGroupName allConfigs = [] →
  load env targetGroupName refreshMode w = Done None w.
Proof.
  intros Hconfigs Hgroup. unfold loadGroupDashboardData.
  unfold bind at 1, of_store at 1. by rewrite Hconfigs, Hgroup.
Qed.

Lemma loadGroupDashboardData_throws env targetGroupName refreshMode w e :
  loadProviderConfigsFromDB (store w) = Throw e →
  load env targetGroupName refreshMode w = Thrown e w.
Proof.
  intros Hconfigs. unfold loadGroupDashboardData.
  unfold bind at 1, of_store at 1. by rewrite Hconfigs.
Qed.

Lemma with_official_fields o r :
  status (with_official o r) = status r ∧ r_name (with_official o r) = r_name r ∧
  r_id (with_official o r) = r_id r ∧ checkedAt (with_official o r) = checkedAt r.
Proof. by destruct o. Qed.

Lemma maintenance_timeline_fields env i c :
  let t := maintenance_timeline env i c in
  t_id t = id c ∧ items t = [] ∧ status (latest t) = maintenance ∧
  r_name (latest t) = name c.
Proof.
  unfold maintenance_timeline. cbn [t_id items latest].
  destruct (with_official_fields (getOfficialStatus env (type c))
    {| r_id := id c; r_name := name c; r_type := type c; r_endpoint := endpoint c;
       r_model := model c; status := maintenance; latencyMs := None;
       pingLatencyMs := None; checkedAt := now_maintenance env i;
       message := JStr "配置处于维护模式";
       r_groupName := if truthy_name (groupName c) then groupName c else None;
       officialStatus := None |}) as (-> & -> & _).
  done.
Qed.

Lemma maintenance_timeline_in_assemble env targetGroupName maintenanceConfigs history c :
  c ∈ maintenanceConfigs →
  ∃ i, maintenance_timeline env i c
       ∈ providerTimelines (assemble rt env targetGroupName maintenanceConfigs history).
Proof.
  intros (i & Hi)%list_elem_of_lookup. exists i.
  unfold assemble. cbn [providerTimelines].
  apply elem_of_sort, elem_of_app. right.
  apply list_elem_of_lookup. exists i. by rewrite list_lookup_imap, Hi.
Qed.

(** What a call adds to the logs. *)
Lemma loadGroupDashboardData_logs env targetGroupName refreshMode w :
  let o := load env targetGroupName refreshMode w in
  (probed (world_of o) = probed w ∧ written (world_of o) = written w) ∨
  ∃ allConfigs,
    loadProviderConfigsFromDB (store w) = Normal allConfigs ∧
    let activeConfigs := active (group_of targetGroupName allConfigs) in
    probed (world_of o) = probed w ++ [activeConfigs] ∧
    (written (world_of o) = written w ∨
     ∃ results,
       runProviderChecks activeConfigs (network env) (order env)
         = Some (Normal results) ∧
       written (world_of o) = written w ++ [results]).
Proof.
  destruct (loadProviderConfigsFromDB (store w)) as [allConfigs|e] eqn:Hconfigs.
  2: { rewrite (loadGroupDashboardData_throws _ _ _ _ _ Hconfigs). by left. }
  destruct (decide (group_of targetGroupName allConfigs = [])) as [Hempty|Hgroup].
  { rewrite (loadGroupDashboardData_empty _ _ _ _ _ Hconfigs Hempty). by left. }
  rewrite (loadGroupDashboardData_unfold _ _ _ _ _ Hconfigs Hgroup). cbv zeta.
  destruct (loadHistory (store w)) as [stored|e]; [|by left].
  set (allowedIds := remove_dups _). set (cacheKey := cache_key _ _ _).
  set (w1 := with_cache _ w).
  pose proof (refreshHistory_logs env cacheKey allowedIds
                (active (group_of targetGroupName allConfigs)) w1) as Hlogs.
  cbv zeta in Hlogs.
  assert (∀ o : @Outcome Store HistorySnapshot,
    world_of
      match o with
      | Done history' w' =>
          Done (Some (assemble rt env targetGroupName
                        (maintained (group_of targetGroupName allConfigs)) history')) w'
      | Thrown e w' => Thrown e w'
      | Pending w' => Pending w'
      end = world_of o) as Hworld by (by intros []).
  rewrite Hworld.
  assert (∀ o : @Outcome Store HistorySnapshot,
    o = Done (filterHistory allowedIds stored) w1 ∨
    o = refresh env cacheKey allowedIds (active (group_of targetGroupName allConfigs)) w1 →
    (probed (world_of o) = probed w ∧ written (world_of o) = written w) ∨
    ∃ allConfigs0, Normal allConfigs = Normal allConfigs0 ∧
      probed (world_of o)
        = probed w ++ [active (group_of targetGroupName allConfigs0)] ∧
      (written (world_of o) = written w ∨
       ∃ results,
         runProviderChecks (active (group_of targetGroupName allConfigs0))
           (network env) (order env) = Some (Normal results) ∧
         written (world_of o) = written w ++ [results])) as Hcases.
  { intros o [->| ->]; [by left|].
    destruct Hlogs as [(Hp & Hw & _)|(Hp & Hw)]; [by left|].
    right. exists allConfigs. done. }
  apply Hcases.
  destruct (default missing refreshMode); [by right| |by left].
  destruct allowedIds; [by left|]. destruct (filterHistory _ _); [by right|by left].
Qed.

(** C7.  A call to [loadGroupDashboardData] logs at most one round of
    checks, over configs none of which is in maintenance, and at most one
    batch written to the history, which is the batch that
    [runProviderChecks] returned for the configs of that round; and when
    it returns a snapshot, every config of the group that is in
    maintenance has in [providerTimelines] a timeline under its id
    without items, whose [latest] has status maintenance.  When
    [runProviderChecks] returns results of the configs it is given only,
    every result written is the result of a config of the group that is
    not in maintenance, and when moreover the ids of the configs are
    distinct, no result written carries the id of a config in
    maintenance. *)
Theorem maintenance_is_shown_not_probed env targetGroupName refreshMode w :
  let o := load env targetGroupName refreshMode w in
  (∃ new_probed new_written,
     probed (world_of o) = probed w ++ new_probed ∧
     written (world_of o) = written w ++ new_written ∧
     (∀ configs c, configs ∈ new_probed → c ∈ configs → is_maintenance c = false) ∧
     (∀ results, results ∈ new_written →
        ∃ configs, configs ∈ new_probed ∧
          runProviderChecks configs (network env) (order env) = Some (Normal results)) ∧
     (checks_the_configs_given runProviderChecks →
      ∀ results r allConfigs,
        results ∈ new_written → r ∈ results →
        loadProviderConfigsFromDB (store w) = Normal allConfigs →
        (∃ c, c ∈ allConfigs ∧ in_group targetGroupName c = true ∧
              is_maintenance c = false ∧ r_id r = id c) ∧
        (NoDup (id <$> allConfigs) →
         ∀ c, c ∈ allConfigs → is_maintenance c = true → r_id r ≠ id c))) ∧
  (∀ data allConfigs c,
     returned o = Some (Some data) →
     loadProviderConfigsFromDB (store w) = Normal allConfigs →
     c ∈ allConfigs → in_group targetGroupName c = true → is_maintenance c = true →
     ∃ t, t ∈ providerTimelines data ∧ t_id t = id c ∧ items t = [] ∧
          status (latest t) = maintenance ∧ r_name (latest t) = name c).
Proof.
  intros o. split.
  - assert (∀ allConfigs c, c ∈ active (group_of targetGroupName allConfigs) →
              c ∈ allConfigs ∧ in_group targetGroupName c = true ∧
              is_maintenance c = false) as Hactive.
    { intros allConfigs c [Hm [Hg Hin]%list_elem_of_filter]%list_elem_of_filter. done. }
    destruct (loadGroupDashboardData_logs env targetGroupName refreshMode w)
      as [[Hp Hw]|(allConfigs & Hconfigs & Hp & Hw)]; fold o in Hp, Hw.
    { exists [], []. rewrite !app_nil_r. split_and!; try done; try by inversion 1.
      intros _ results r allConfigs H. inversion H. }
    assert (∀ configs c,
              configs ∈ [active (group_of targetGroupName allConfigs)] → c ∈ configs →
              is_maintenance c = false) as Hprobed.
    { intros configs c ->%list_elem_of_singleton Hc. by apply Hactive in Hc as (_ & _ & ?). }
    destruct Hw as [Hw|(results & Hrun & Hw)].
    { exists [active (group_of targetGroupName allConfigs)], [].
      rewrite app_nil_r. split_and!; try done; try by inversion 1.
      intros _ results r allConfigs' H. inversion H. }
    exists [active (group_of targetGroupName allConfigs)], [results].
    split_and!; try done.
    { intros results' ->%list_elem_of_singleton.
      exists (active (group_of targetGroupName allConfigs)). split; [by left|done]. }
    intros Hgiven results' r allConfigs' ->%list_elem_of_singleton Hr Hconfigs'.
    rewrite Hconfigs in Hconfigs'. injection Hconfigs' as <-.
    destruct (Hgiven _ _ _ _ Hrun r Hr) as (c & Hc & Hid).
    apply Hactive in Hc as (Hin & Hg & Hm).
    split; [by exists c|].
    intros Hnd c' Hin' Hm' Heq.
    assert (c = c') as ->; [|congruence].
    apply list_elem_of_lookup in Hin as (i & Hi). apply list_elem_of_lookup in Hin' as (j & Hj).
    assert (i = j) as ->; [|congruence].
    eapply (NoDup_lookup _ _ _ (id c) Hnd); rewrite list_lookup_fmap.
    + by rewrite Hi.
    + rewrite Hj. simpl. congruence.
  - intros data allConfigs c Hret Hconfigs Hin Hg Hm.
    assert (c ∈ maintained (group_of targetGroupName allConfigs)) as Hc.
    { apply list_elem_of_filter. split; [done|]. by apply list_elem_of_filter. }
    assert (group_of targetGroupName allConfigs ≠ []) as Hgroup.
    { intros Hnil. rewrite Hnil in Hc. inversion Hc. }
    subst o. rewrite (loadGroupDashboardData_unfold _ _ _ _ _ Hconfigs Hgroup) in Hret.
    cbv zeta in Hret. destruct (loadHistory (store w)) as [stored|e]; [|done].
    match type of Hret with
    | returned (match ?r with _ => _ end) = _ => destruct r as [history' w'| |]; [|done..]
    end.
    injection Hret as <-.
    destruct (maintenance_timeline_in_assemble env targetGroupName _ history' c Hc)
      as (i & Ht).
    exists (maintenance_timeline env i c). split; [done|].
    apply maintenance_timeline_fields.
Qed.

Lemma consistent_on {A B} (cmp : B → B → Z) (f : A → B) :
  consistent cmp → consistent (λ a b, cmp (f a) (f b)).
Proof. intros [Htot Htrans]. split; [intros; apply Htot|intros ???; apply Htrans]. Qed.

Lemma sort_fmap {A} (cmp : A → A → Z) (f : A → A) (l : list A) :
  (∀ a b, cmp (f a) (f b) = cmp a b) → f <$> sort cmp l = sort cmp (f <$> l).
Proof.
  intros Hf. induction l as [|x l IH]; [done|].
  rewrite fmap_cons. simpl. rewrite <- IH. clear IH.
  induction (sort cmp l) as [|y k IH]; [done|].
  simpl. rewrite Hf. case_bool_decide; [done|]. rewrite !fmap_cons. by rewrite IH.
Qed.

Lemma unstamped_maintenance_timeline env env' i c :
  getOfficialStatus env = getOfficialStatus env' →
  unstamped_timeline (maintenance_timeline env i c)
  = unstamped_timeline (maintenance_timeline env' i c).
Proof.
  intros Hofficial. unfold unstamped_timeline, maintenance_timeline.
  cbn [items t_id latest]. rewrite Hofficial.
  by destruct (getOfficialStatus env' (type c)).
Qed.

Lemma unstamped_timeline_fields t :
  items (unstamped_timeline t) = items t ∧
  r_name (latest (unstamped_timeline t)) = r_name (latest t).
Proof. unfold unstamped_timeline. by destruct (items t) eqn:E. Qed.

(** Two snapshots assembled from the same history under the same
    settings differ at most in the instants read from the clock. *)
Lemma unstamped_assemble env env' targetGroupName maintenanceConfigs history :
  same_settings env env' →
  unstamped (assemble rt env targetGroupName maintenanceConfigs history)
  = unstamped (assemble rt env' targetGroupName maintenanceConfigs history).
Proof.
  intros (Hms & Hlabel & Hofficial).
  set (cmp := λ a b : ProviderTimeline,
         localeCompare rt (r_name (latest a)) (r_name (latest b))).
  assert (∀ a b, cmp (unstamped_timeline a) (unstamped_timeline b) = cmp a b) as Hcmp.
  { intros a b. unfold cmp.
    by rewrite (proj2 (unstamped_timeline_fields a)), (proj2 (unstamped_timeline_fields b)). }
  assert (timeline_of env = timeline_of env') as Htl.
  { unfold timeline_of. by rewrite Hofficial. }
  assert (unstamped_timeline <$> imap (maintenance_timeline env) maintenanceConfigs
          = unstamped_timeline <$> imap (maintenance_timeline env') maintenanceConfigs)
    as Hmaint.
  { rewrite !fmap_imap. apply imap_ext. intros i c _. simpl.
    by apply unstamped_maintenance_timeline. }
  assert (unstamped_timeline <$>
            providerTimelines (assemble rt env targetGroupName maintenanceConfigs history)
          = unstamped_timeline <$>
              providerTimelines (assemble rt env' targetGroupName maintenanceConfigs history))
    as Hpts.
  { unfold assemble. cbn [providerTimelines]. fold cmp.
    rewrite !(sort_fmap cmp unstamped_timeline) by done.
    by rewrite !fmap_app, Hmaint, Htl. }
  assert (∀ pts : list ProviderTimeline,
            pts ≫= items = (unstamped_timeline <$> pts) ≫= items) as Hitems.
  { induction pts as [|t pts IH]; [done|].
    rewrite fmap_cons, !bind_cons, IH.
    by rewrite (proj1 (unstamped_timeline_fields t)). }
  assert (lastUpdated (assemble rt env targetGroupName maintenanceConfigs history)
          = lastUpdated (assemble rt env' targetGroupName maintenanceConfigs history))
    as Hlast.
  { unfold assemble in *. cbv zeta in *. cbn [lastUpdated providerTimelines] in *.
    fold cmp in Hpts |- *.
    rewrite (Hitems (sort cmp (_ ++ imap (maintenance_timeline env) _))).
    rewrite (Hitems (sort cmp (_ ++ imap (maintenance_timeline env') _))).
    by rewrite Hpts. }
  assert (total (assemble rt env targetGroupName maintenanceConfigs history)
          = total (assemble rt env' targetGroupName maintenanceConfigs history))
    as Htotal.
  { unfold assemble in *. cbv zeta in *. cbn [total providerTimelines] in *.
    apply (f_equal length) in Hpts. by rewrite !length_fmap in Hpts. }
  unfold unstamped. rewrite Hpts, Hlast, Htotal.
  unfold assemble. cbv zeta.
  cbn [d_groupName displayName d_pollIntervalLabel d_pollIntervalMs].
  by rewrite Hms, Hlabel.
Qed.

Lemma assemble_same_clock env env' targetGroupName maintenanceConfigs history :
  same_settings env env' → now_generated env = now_generated env' →
  (∀ i, now_maintenance env i = now_maintenance env' i) →
  assemble rt env targetGroupName maintenanceConfigs history
  = assemble rt env' targetGroupName maintenanceConfigs history.
Proof.
  intros (Hms & Hlabel & Hofficial) Hgen Hmaint. unfold assemble.
  assert (timeline_of env = timeline_of env') as ->.
  { unfold timeline_of. by rewrite Hofficial. }
  assert (imap (maintenance_timeline env) maintenanceConfigs
          = imap (maintenance_timeline env') maintenanceConfigs) as ->.
  { apply imap_ext. intros i c _. unfold maintenance_timeline.
    by rewrite Hofficial, Hmaint. }
  by rewrite Hms, Hlabel, Hgen.
Qed.

(** C8, as amended.  A call with [refreshMode = "never"] runs no check
    and writes nothing: it leaves the database and both logs as they
    were.  Two such calls on the same database, under the same settings
    and official statuses, end alike, and the snapshots they return are
    equal but for the instants read from the clock ([generatedAt] and
    the [checkedAt] of maintenance entries); they are equal when the
    clock readings are. *)
Theorem never_mode_reads_only env env' targetGroupName w w' :
  store w' = store w → same_settings env env' →
  let o := load env targetGroupName (Some never) w in
  let o' := load env' targetGroupName (Some never) w' in
  probed (world_of o) = probed w ∧ written (world_of o) = written w ∧
  store (world_of o) = store w ∧
  match o, o' with
  | Done d _, Done d' _ =>
      option_map unstamped d = option_map unstamped d' ∧
      (now_generated env = now_generated env' →
       (∀ i, now_maintenance env i = now_maintenance env' i) → d = d')
  | Thrown e _, Thrown e' _ => e = e'
  | _, _ => False
  end.
Proof.
  intros Hstore Hsame o o'. subst o o'.
  destruct (loadProviderConfigsFromDB (store w)) as [allConfigs|e] eqn:Hconfigs.
  2: { rewrite !loadGroupDashboardData_throws with (e := e) by congruence. done. }
  destruct (decide (group_of targetGroupName allConfigs = [])) as [Hempty|Hgroup].
  { rewrite !loadGroupDashboardData_empty with (allConfigs := allConfigs) by congruence.
    done. }
  rewrite !loadGroupDashboardData_unfold with (allConfigs := allConfigs) by congruence.
  cbv zeta. rewrite Hstore.
  change (default missing (Some never)) with never. cbv iota.
  destruct (loadHistory (store w)) as [stored|e]; [|done].
  cbn [world_of]. unfold with_cache. cbn [probed written store].
  split_and!; try done.
  - cbn [option_map]. f_equal. by apply unstamped_assemble.
  - intros Hgen Hmaint. f_equal. by apply assemble_same_clock.
Qed.

(** C10.  When [localeCompare] orders names consistently, the batch that
    [runProviderChecks] returns is ascending by name, it is the same
    batch whatever the order in which the checks settle, and the
    [providerTimelines] of every snapshot are ascending by the name of
    their latest entry. *)
Theorem output_is_sorted_by_name :
  consistent (localeCompare rt) →
  (∀ configs network order results,
     Checks.runProviderChecks rt configs network order = Some (Normal results) →
     ascending (Checks.by_name rt) results) ∧
  (∀ configs network order order',
     (∀ i, (i < length configs)%nat → i ∈ order) →
     (∀ i, (i < length configs)%nat → i ∈ order') →
     Checks.runProviderChecks rt configs network order
     = Checks.runProviderChecks rt configs network order' ∧
     ∃ results,
       Checks.runProviderChecks rt configs network order = Some (Normal results)) ∧
  (∀ env targetGroupName refreshMode w data,
     returned (load env targetGroupName refreshMode w) = Some (Some data) →
     ascending (λ a b, localeCompare rt (r_name (latest a)) (r_name (latest b)))
       (providerTimelines data)).
Proof.
  intros Hcmp. split_and!.
  - intros configs network order results (rs & [= ->] & _)%runProviderChecks_results.
    apply sort_ascending. by apply (consistent_on _ r_name).
  - intros configs network order order' Hall Hall'.
    destruct (runProviderChecks_settles rt configs network order Hall) as (rs & Hrs & _ & ->).
    destruct (runProviderChecks_settles rt configs network order' Hall')
      as (rs' & Hrs' & _ & ->).
    rewrite Hrs in Hrs'.
    assert (rs = rs') as <-.
    { clear -Hrs'. revert rs' Hrs'. induction rs as [|r rs IH]; intros [|r' rs'] H;
        simplify_eq/=; [done|]. f_equal. by apply IH. }
    split; [done|by eexists].
  - intros env targetGroupName refreshMode w data Hret.
    destruct (loadProviderConfigsFromDB (store w)) as [allConfigs|e] eqn:Hconfigs.
    2: { by rewrite (loadGroupDashboardData_throws _ _ _ _ _ Hconfigs) in Hret. }
    destruct (decide (group_of targetGroupName allConfigs = [])) as [Hempty|Hgroup].
    { by rewrite (loadGroupDashboardData_empty _ _ _ _ _ Hconfigs Hempty) in Hret. }
    rewrite (loadGroupDashboardData_unfold _ _ _ _ _ Hconfigs Hgroup) in Hret.
    cbv zeta in Hret. destruct (loadHistory (store w)) as [stored|e]; [|done].
    match type of Hret with
    | returned (match ?r with _ => _ end) = _ => destruct r as [history' w'| |]; [|done..]
    end.
    injection Hret as <-. unfold assemble. cbn [providerTimelines].
    apply sort_ascending. by apply (consistent_on _ (λ t, r_name (latest t))).
Qed.

End DashboardFacts.


(** ** The dashboard claims on concrete inputs *)

Section OnSampleDatabase.
Import GroupData Sample.

Lemma compare_code_units_consistent : consistent compare_code_units.
Proof.
  assert (∀ a b, compare_code_units a b ≤ 0 ↔ String.compare a b ≠ Gt) as Hle.
  { intros a b. unfold compare_code_units. destruct (String.compare a b); split; done || lia. }
  split.
  - intros a b. rewrite !Hle, (String.compare_antisym b a).
    destruct (String.compare a b); simpl; auto.
  - intros a b c. rewrite !Hle. revert b c.
    induction a as [|x a IH]; intros [|y b] [|z c]; simpl; try done.
    unfold Ascii.compare.
    destruct (N.compare_spec (N_of_ascii x) (N_of_ascii y)) as [Exy|Lxy|Gxy],
             (N.compare_spec (N_of_ascii y) (N_of_ascii z)) as [Eyz|Lyz|Gyz],
             (N.compare_spec (N_of_ascii x) (N_of_ascii z)) as [Exz|Lxz|Gxz];
      try done; try lia.
    apply IH.
Qed.

(** C6, witness: three rows of one config and one of another, pruned
    to two rows for each config. *)
Lemma prune_keeps_newest_witness :
  HistorySql.of_config "a"
    (HistorySql.prune_check_history 2
       (HistorySql.insert_rows [history_row 4 "a" 20]
          [history_row 1 "a" 10; history_row 2 "a" 30; history_row 3 "b" 20]))
  ≡ₚ [history_row 2 "a" 30; history_row 4 "a" 20].
Proof.
  destruct (prune_keeps_newest 2
              [history_row 1 "a" 10; history_row 2 "a" 30; history_row 3 "b" 20]
              [history_row 4 "a" 20] "a") as (Hleft & _).
  - apply (bool_decide_unpack _). vm_compute. exact I.
  - exact Hleft.
Defined.

(** C7, witness: the config in maintenance is shown and not checked,
    and with the checks of [lib/checks.ts], which return results of the
    configs they are given, no result written is its result. *)
Lemma maintenance_is_shown_not_probed_witness :
  (∃ t, (∃ data, returned (load_main (env_at 100000 3000) always world_main)
                 = Some (Some data) ∧ t ∈ providerTimelines data) ∧
        t_id t = "b" ∧ items t = [] ∧ status (latest t) = maintenance) ∧
  ∃ results,
    written (world_of (load_main (env_at 100000 3000) always world_main)) = [results] ∧
    Forall (λ r, r_id r ≠ "b") results.
Proof.
  destruct (maintenance_is_shown_not_probed Reference.runtime
              db_load_configs db_load_history db_append
              (Checks.runProviderChecks Reference.runtime)
              (env_at 100000 3000) "main" (Some always) world_main)
    as [(new_probed & new_written & _ & Hwritten & _ & _ & Hids) Hshown].
  split.
  - assert (∃ data, returned (load_main (env_at 100000 3000) always world_main)
                    = Some (Some data)) as [data Hdata].
    { eexists. vm_compute. reflexivity. }
    destruct (Hshown data (db_configs db_main) config_b Hdata eq_refl)
      as (t & Ht & Hid & Hitems & Hst & _).
    + apply (bool_decide_unpack _). vm_compute. exact I.
    + reflexivity.
    + reflexivity.
    + exists t. split; [|done]. by exists data.
  - assert (∃ results,
              written (world_of (load_main (env_at 100000 3000) always world_main))
              = [results]) as [results Hresults].
    { eexists. vm_compute. reflexivity. }
    exists results. split; [exact Hresults|].
    rewrite Hresults in Hwritten. simpl in Hwritten. subst new_written.
    apply Forall_forall. intros r Hr.
    destruct (Hids (runProviderChecks_ids Reference.runtime) results r (db_configs db_main))
      as [_ Hno]; [by left|done|reflexivity|].
    apply (λ Hdistinct, Hno Hdistinct config_b).
    + apply (bool_decide_unpack _). vm_compute. exact I.
    + apply (bool_decide_unpack _). vm_compute. exact I.
    + reflexivity.
Defined.

(** C8, witness: two calls with [refreshMode = "never"], 100 seconds
    apart, on the database as the first one leaves it. *)
Lemma never_mode_reads_only_witness :
  probed (world_of first_never) = [] ∧ written (world_of first_never) = [] ∧
  ∃ d d', returned first_never = Some d ∧ returned second_never = Some d' ∧
          option_map unstamped d = option_map unstamped d'.
Proof.
  assert (∃ d w1, first_never = Done d w1) as (d & w1 & Ho).
  { eexists _, _. vm_compute. reflexivity. }
  assert (∃ d' w1', second_never = Done d' w1') as (d' & w1' & Ho').
  { eexists _, _. vm_compute. reflexivity. }
  destruct (never_mode_reads_only Reference.runtime
              db_load_configs db_load_history db_append
              (Checks.runProviderChecks Reference.runtime)
              (env_at 100000 0) (env_at 200000 0) "main" world_main
              (world_of first_never))
    as (Hp & Hw & _ & Hm).
  - vm_compute. reflexivity.
  - repeat split.
  - split; [exact Hp|]. split; [exact Hw|].
    rewrite Ho' in Hm |- *. rewrite Ho in Hm |- *.
    exists d, d'. split; [reflexivity|]. split; [reflexivity|]. exact (proj1 Hm).
Defined.

(** C8, counterexample: with nothing written in between, the second
    snapshot is not the first; and a snapshot taken at the same instant
    after the official-status poller has cached an incident differs in
    more than the instants. *)
Lemma later_snapshot_differs :
  store (world_of first_never) = store world_main ∧
  written (world_of first_never) = [] ∧
  ∃ d d' d'',
    returned first_never = Some (Some d) ∧ returned second_never = Some (Some d') ∧
    returned (load_main (env_incident_at 100000 0) never world_main) = Some (Some d'') ∧
    generatedAt d = 100000 ∧ generatedAt d' = 200000 ∧ d ≠ d' ∧
    unstamped d ≠ unstamped d''.
Proof.
  split; [vm_compute; reflexivity|]. split; [vm_compute; reflexivity|].
  eexists _, _, _. split; [vm_compute; reflexivity|]. split; [vm_compute; reflexivity|].
  split; [vm_compute; reflexivity|].
  split; [reflexivity|]. split; [reflexivity|]. split.
  - intros H. apply (f_equal generatedAt) in H. discriminate H.
  - intros H.
    apply (f_equal (λ d, (λ t, officialStatus (latest t)) <$> providerTimelines d)) in H.
    vm_compute in H. discriminate H.
Qed.

(** C10, witness: two checks that settle in reverse order come back by
    name. *)
Lemma output_is_sorted_by_name_witness :
  ∃ results,
    Checks.runProviderChecks Reference.runtime [config_g; config_a]
      (λ _, streamed 3000) [1; 0]%nat = Some (Normal results) ∧
    ascending (Checks.by_name Reference.runtime) results ∧
    r_name <$> results = ["Alpha"; "Gamma"].
Proof.
  destruct (output_is_sorted_by_name Reference.runtime
              db_load_configs db_load_history db_append
              (Checks.runProviderChecks Reference.runtime) compare_code_units_consistent)
    as (Hsorted & _ & _).
  eexists. split; [vm_compute; reflexivity|].
  split; [|reflexivity].
  apply (Hsorted [config_g; config_a] (λ _, streamed 3000) [1; 0]%nat).
  vm_compute. reflexivity.
Defined.
End OnSampleDatabase.

(** * Further properties of the code *)

(** ** Strings *)

Section StringFacts.
Import JsString.
Implicit Types s t p : string.

Lemma prefix_append p t : String.prefix p (p +:+ t) = true.
Proof.
  induction p as [|c p IH]; [by destruct t|].
  change (String.prefix (String c p) (String c (p +:+ t)) = true).
  simpl. by destruct (ascii_dec c c).
Qed.

Lemma prefix_append_l p s t :
  String.prefix p s = true → String.prefix p (s +:+ t) = true.
Proof.
  revert s. induction p as [|c p IH]; intros [|d s]; try done.
  - by destruct t.
  - change (String d s +:+ t) with (String d (s +:+ t)). simpl.
    destruct (ascii_dec c d); [apply IH|done].
Qed.

Lemma prefix_refl s : String.prefix s s = true.
Proof. rewrite <- (append_empty_r s) at 2. apply prefix_append. Qed.

Lemma prefix_split p s : String.prefix p s = true → ∃ t, s = p +:+ t.
Proof.
  revert s. induction p as [|c p IH]; intros s; [by exists s|].
  destruct s as [|d s]; [done|]. simpl.
  destruct (ascii_dec c d) as [<-|]; [|done].
  intros (t & ->)%IH. by exists t.
Qed.

Lemma rev_app_append s t u : String.rev_app (s +:+ t) u = String.rev_app t (String.rev_app s u).
Proof.
  revert u. induction s as [|c s IH]; intros u; [done|].
  change (String c s +:+ t) with (String c (s +:+ t)). simpl. apply IH.
Qed.

Lemma rev_app_rev s t : String.rev_app s t = String.rev s +:+ t.
Proof.
  unfold String.rev. revert t. induction s as [|c s IH]; intros t; [done|].
  simpl. rewrite (IH (String c t)), (IH (String c "")), append_assoc. done.
Qed.

Lemma rev_append s t : String.rev (s +:+ t) = String.rev t +:+ String.rev s.
Proof. unfold String.rev at 1. by rewrite rev_app_append, rev_app_rev. Qed.

Lemma rev_involutive s : String.rev (String.rev s) = s.
Proof.
  induction s as [|c s IH]; [done|].
  change (String c s) with (String c "" +:+ s) at 1.
  rewrite rev_append, rev_append, IH. done.
Qed.

Lemma endsWith_append s t : endsWith (s +:+ t) t = true.
Proof. unfold endsWith. rewrite rev_append. apply prefix_append. Qed.

Lemma endsWith_refl s : endsWith s s = true.
Proof. apply prefix_refl. Qed.

Lemma endsWith_split s t : endsWith s t = true → ∃ u, s = u +:+ t.
Proof.
  unfold endsWith. intros (u & Hu)%prefix_split. exists (String.rev u).
  rewrite <- (rev_involutive s), Hu, rev_append, rev_involutive. done.
Qed.

Lemma includes_here s sub : String.prefix sub s = true → includes s sub = true.
Proof. intros H. destruct s; cbn [includes]; by rewrite H. Qed.

Lemma includes_append_l s t sub : includes s sub = true → includes (s +:+ t) sub = true.
Proof.
  induction s as [|c s IH].
  - cbn [includes]. rewrite orb_false_r. intros H. apply includes_here.
    by apply (prefix_append_l sub "" t).
  - change (String c s +:+ t) with (String c (s +:+ t)). cbn [includes].
    intros [H|H]%orb_true_iff.
    + apply (prefix_append_l _ _ t) in H.
      change (String c s +:+ t) with (String c (s +:+ t)) in H. by rewrite H.
    + rewrite (IH H). apply orb_true_r.
Qed.

Lemma includes_append_r s t sub : includes t sub = true → includes (s +:+ t) sub = true.
Proof.
  intros H. induction s as [|c s IH]; [done|].
  change (String c s +:+ t) with (String c (s +:+ t)). cbn [includes].
  rewrite IH. apply orb_true_r.
Qed.

Lemma nonempty_append s t : nonempty t = true → nonempty (s +:+ t) = true.
Proof. by destruct s, t. Qed.

Lemma length_append s t : String.length (s +:+ t) = (String.length s + String.length t)%nat.
Proof.
  induction s as [|c s IH]; [done|].
  change (String c s +:+ t) with (String c (s +:+ t)). simpl. by rewrite IH.
Qed.

Lemma length_slice_to n s : String.length (slice_to n s) = Nat.min n (String.length s).
Proof. revert s. induction n as [|n IH]; intros [|c s]; simpl; by rewrite ?IH. Qed.

Lemma length_slice_from n s : String.length (slice_from n s) = (String.length s - n)%nat.
Proof. revert s. induction n as [|n IH]; intros [|c s]; simpl; by rewrite ?IH. Qed.

Lemma includes_char_cons c d s :
  includes (String d s) (String c "") = Ascii.eqb c d || includes s (String c "").
Proof.
  cbn [includes]. f_equal. simpl.
  destruct (ascii_dec c d) as [->|Hne].
  - rewrite Ascii.eqb_refl. by destruct s.
  - symmetry. by apply Ascii.eqb_neq.
Qed.

Lemma includes_char_append c s t :
  includes (s +:+ t) (String c "")
  = includes s (String c "") || includes t (String c "").
Proof.
  induction s as [|d s IH]; [done|].
  change (String d s +:+ t) with (String d (s +:+ t)).
  by rewrite !includes_char_cons, IH, orb_assoc.
Qed.
End StringFacts.

Section TrimFacts.
Import JsString.

Lemma trimEnd_idempotent s : trimEnd (trimEnd s) = trimEnd s.
Proof.
  induction s as [|c s IH]; [done|]. simpl.
  destruct (trimEnd s) as [|d t] eqn:E.
  - destruct (is_white_space c) eqn:Ec; [done|]. simpl. by rewrite Ec.
  - change (trimEnd (String c (String d t))) with
      (match trimEnd (String d t) with
       | EmptyString => if is_white_space c then EmptyString else String c EmptyString
       | u => String c u
       end).
    by rewrite IH.
Qed.

Lemma trimStart_starts_with_ink s : starts_with_ink (trimStart s).
Proof.
  induction s as [|c s IH]; [done|]. simpl.
  by destruct (is_white_space c) eqn:E.
Qed.

Lemma trimEnd_starts_with_ink s : starts_with_ink s → starts_with_ink (trimEnd s).
Proof.
  destruct s as [|c s]; [done|]. simpl. intros Hc.
  destruct (trimEnd s); [by rewrite Hc|done].
Qed.

Lemma trimStart_ink s : starts_with_ink s → trimStart s = s.
Proof. destruct s as [|c s]; [done|]. simpl. by intros ->. Qed.

Lemma trim_idempotent s : trim (trim s) = trim s.
Proof.
  unfold trim. rewrite (trimStart_ink (trimEnd (trimStart s))).
  - apply trimEnd_idempotent.
  - apply trimEnd_starts_with_ink, trimStart_starts_with_ink.
Qed.

Lemma includes_char_trimStart c s :
  includes s (String c "") = false → includes (trimStart s) (String c "") = false.
Proof.
  induction s as [|d s IH]; [done|]. simpl trimStart.
  destruct (is_white_space d); [|done].
  rewrite includes_char_cons. intros [_ Hs]%orb_false_iff. by apply IH.
Qed.

Lemma includes_char_trimEnd c s :
  includes s (String c "") = false → includes (trimEnd s) (String c "") = false.
Proof.
  induction s as [|d s IH]; [done|].
  rewrite includes_char_cons. intros [Hd Hs]%orb_false_iff. simpl.
  destruct (trimEnd s) as [|e t] eqn:E.
  - destruct (is_white_space d); [done|]. rewrite includes_char_cons, Hd. done.
  - rewrite includes_char_cons, Hd. by apply IH.
Qed.

Lemma split_no_sep_inside sep s x :
  x ∈ split sep s → includes x (String sep "") = false.
Proof.
  revert x. induction s as [|c s IH]; intros x; simpl.
  - by intros ->%list_elem_of_singleton.
  - destruct (Ascii.eqb c sep) eqn:E.
    + intros [->|Hx]%elem_of_cons; [done|by apply IH].
    + destruct (split sep s) as [|y ys] eqn:Es; [by apply split_nonempty in Es|].
      intros [->|Hx]%elem_of_cons.
      * rewrite includes_char_cons, Ascii.eqb_sym, E. apply IH. by left.
      * apply IH. by right.
Qed.

(** The items of a comma-separated list, as [parseTagList] and
    [loadProviderConfigs] keep them. *)
Lemma kept_items list item :
  item ∈ filter (λ item, nonempty item = true) (trim <$> split "," list) →
  item ≠ "" ∧ trim item = item ∧ includes item "," = false.
Proof.
  intros [Hne (raw & -> & Hraw)%list_elem_of_fmap]%list_elem_of_filter.
  split_and!.
  - by destruct (trim raw).
  - apply trim_idempotent.
  - unfold trim. apply includes_char_trimEnd, includes_char_trimStart.
    by eapply split_no_sep_inside.
Qed.
End TrimFacts.

(** ** Endpoints and keys ([lib/checks.ts]) *)

Section EndpointFacts.
Import JsString Checks.

Lemma nonempty_false s : nonempty s = false → s = "".
Proof. by destruct s. Qed.

Lemma append_empty s t : s +:+ t = "" → s = "" ∧ t = "".
Proof. by destruct s, t. Qed.

(** X1.  [ensurePath] changes nothing when it is applied to its own
    result, and its result is the endpoint as given or ends with the
    fallback path. *)
Theorem ensurePath_idempotent endpoint fallbackPath :
  ensurePath (ensurePath endpoint fallbackPath) fallbackPath
    = ensurePath endpoint fallbackPath ∧
  (ensurePath endpoint fallbackPath = endpoint ∨
   endsWith (ensurePath endpoint fallbackPath) fallbackPath = true).
Proof.
  destruct (nonempty endpoint) eqn:He.
  - destruct (endsWith endpoint fallbackPath || includes endpoint "/v1/"
              || includes endpoint "/deployments/" || includes endpoint "?") eqn:Hc.
    + assert (ensurePath endpoint fallbackPath = endpoint) as ->
        by (unfold ensurePath; by rewrite He, Hc).
      split; [|by left]. unfold ensurePath. by rewrite He, Hc.
    + assert (ensurePath endpoint fallbackPath
              = strip_trailing_slash endpoint +:+ fallbackPath) as ->
        by (unfold ensurePath; by rewrite He, Hc).
      split; [|right; apply endsWith_append].
      unfold ensurePath.
      destruct (nonempty (strip_trailing_slash endpoint +:+ fallbackPath)) eqn:Hr;
        cbn [negb].
      * by rewrite endsWith_append.
      * apply nonempty_false in Hr. rewrite Hr.
        by apply append_empty in Hr as [_ ->].
  - assert (ensurePath endpoint fallbackPath = fallbackPath) as ->
      by (unfold ensurePath; by rewrite He).
    split; [|right; apply endsWith_refl].
    unfold ensurePath. destruct (nonempty fallbackPath); cbn [negb]; [|done].
    by rewrite endsWith_refl.
Qed.

Lemma appendQuery_includes url query : includes (appendQuery url query) "?" = true.
Proof.
  unfold appendQuery. destruct (includes url "?") eqn:Hq.
  - by apply includes_append_l.
  - apply includes_append_r, includes_here, prefix_append.
Qed.

(** X2.  [appendQuery] leaves a URL with a query mark, so that a
    second parameter is attached with an ampersand. *)
Theorem appendQuery_twice url query1 query2 :
  includes (appendQuery url query1) "?" = true ∧
  appendQuery (appendQuery url query1) query2
    = appendQuery url query1 +:+ "&" +:+ query2.
Proof.
  split; [apply appendQuery_includes|].
  unfold appendQuery at 1. by rewrite appendQuery_includes.
Qed.

(** X3.  [maskKey] prints at most ten code units.  Of a key longer than
    four it prints ten, which depend on the first four and the last two
    code units of the key only; of a shorter key it prints nothing of
    the key. *)
Theorem maskKey_hides_the_middle :
  (∀ key, (String.length (maskKey key) ≤ 10)%nat) ∧
  (∀ key, (4 < String.length key)%nat →
     String.length (maskKey (Some key)) = 10%nat ∧
     ∀ key', (4 < String.length key')%nat →
       slice_to 4 key' = slice_to 4 key → slice_last 2 key' = slice_last 2 key →
       maskKey (Some key') = maskKey (Some key)) ∧
  (∀ key key', (String.length key ≤ 4)%nat → (String.length key' ≤ 4)%nat →
     key ≠ "" → key' ≠ "" → maskKey (Some key) = maskKey (Some key')).
Proof.
  assert (∀ key, (4 < String.length key)%nat →
            maskKey (Some key) = slice_to 4 key +:+ "****" +:+ slice_last 2 key) as Hlong.
  { intros key Hk. unfold maskKey. destruct key as [|c key]; [simpl in Hk; lia|].
    rewrite bool_decide_false by lia. done. }
  assert (∀ key, (4 < String.length key)%nat →
            String.length (maskKey (Some key)) = 10%nat) as Hten.
  { intros key Hk. rewrite Hlong by done.
    rewrite !length_append, length_slice_to. unfold slice_last.
    rewrite length_slice_from. change (String.length "****") with 4%nat. lia. }
  split_and!.
  - intros [key|]; [|simpl; lia].
    destruct (decide (4 < String.length key)%nat) as [Hk|Hk].
    + rewrite Hten by done. lia.
    + unfold maskKey. destruct key as [|c key]; [simpl; lia|].
      rewrite bool_decide_true by lia. simpl. lia.
  - intros key Hk. split; [by apply Hten|].
    intros key' Hk' H4 H2. rewrite !Hlong by done. by rewrite H4, H2.
  - intros key key' Hk Hk' Hne Hne'. unfold maskKey.
    destruct key as [|c key], key' as [|c' key']; try done.
    by rewrite !bool_decide_true by done.
Qed.
End EndpointFacts.

(** X3, witness: two keys that differ in the middle only. *)
Lemma maskKey_hides_the_middle_witness :
  String.length (Checks.maskKey (Some "sk-live-0123456789")) = 10%nat ∧
  Checks.maskKey (Some "sk-l-other-89") = Checks.maskKey (Some "sk-live-0123456789").
Proof.
  destruct maskKey_hides_the_middle as (_ & Hlong & _).
  destruct (Hlong "sk-live-0123456789") as [Hten Hsame]; [simpl; lia|].
  split; [exact Hten|].
  apply Hsame; [simpl; lia|reflexivity|reflexivity].
Defined.

(** ** Configs from the environment ([loadProviderConfigs]) *)

Section ConfigFacts.
Import JsString Checks.
Context (toUpperCase toLowerCase : string → string).
Context (env : string → option string).

Local Abbreviation load_group := (Checks.load_group toUpperCase toLowerCase env).
Local Abbreviation load_groups := (Checks.load_groups toUpperCase toLowerCase env).
Local Abbreviation read := (Checks.read toUpperCase env).

Lemma load_groups_elem config groups :
  config ∈ (load_groups groups).1 ↔ ∃ g, g ∈ groups ∧ load_group g = inl config.
Proof.
  induction groups as [|g groups IH]; simpl.
  - split; [by intros ?%elem_of_nil|by intros (g & ?%elem_of_nil & _)].
  - destruct (Checks.load_groups _ _ _ groups) as [configs warnings] eqn:E.
    simpl in IH. destruct (load_group g) as [c|w] eqn:Eg; simpl.
    + rewrite elem_of_cons, IH. split.
      * intros [->|(g' & Hg' & Hc)]; [exists g|exists g']; split; try done;
          [by left|by right].
      * intros (g' & [->|Hg']%elem_of_cons & Hc); [left; congruence|right; eauto].
    + rewrite IH. split.
      * intros (g' & Hg' & Hc). exists g'. split; [by right|done].
      * intros (g' & [->|Hg']%elem_of_cons & Hc); [congruence|eauto].
Qed.

Lemma normalizeType_Some value t :
  normalizeType toLowerCase value = Some t →
  ∃ v, value = Some v ∧ v ≠ "" ∧ toLowerCase v = type_name t.
Proof.
  unfold normalizeType. destruct value as [[|c v]|]; try done.
  destruct (String.eqb (toLowerCase _) "openai") eqn:E1.
  { intros [= <-]. apply String.eqb_eq in E1. eauto. }
  destruct (String.eqb (toLowerCase _) "gemini") eqn:E2.
  { intros [= <-]. apply String.eqb_eq in E2. eauto. }
  destruct (String.eqb (toLowerCase _) "anthropic") eqn:E3; [|done].
  intros [= <-]. apply String.eqb_eq in E3. eauto.
Qed.

Lemma string_or_nonempty value fallback : fallback ≠ "" → string_or value fallback ≠ "".
Proof. by destruct value as [[|]|]. Qed.

Lemma read_trimmed groupId suffix value :
  read groupId suffix = Some value → trim value = value.
Proof.
  unfold Checks.read. destruct (env _) as [raw|]; [|done].
  intros [= <-]. apply trim_idempotent.
Qed.

(** X4.  Every config that [loadProviderConfigs] returns is complete:
    it stands for a group listed in [CHECK_GROUPS]; its type is the
    [TYPE] variable of the group read without regard to case; its key
    and its model are the trimmed variables [KEY] and [MODEL]; and
    none of its id, name, endpoint, model and key is empty, the
    endpoint being the default of the type and the name the group id
    when the variable is unset or blank.  Its id, key and model have no
    white space at either end, and its id holds no comma. *)
Theorem loaded_configs_are_complete config :
  config ∈ (loadProviderConfigs toUpperCase toLowerCase env).1 →
  id config ∈ groupList env ∧
  (∃ v, read (id config) "TYPE" = Some v ∧ toLowerCase v = type_name (type config)) ∧
  read (id config) "KEY" = Some (apiKey config) ∧
  read (id config) "MODEL" = Some (model config) ∧
  endpoint config
    = string_or (read (id config) "ENDPOINT") (DEFAULT_ENDPOINTS (type config)) ∧
  name config = string_or (read (id config) "NAME") (id config) ∧
  id config ≠ "" ∧ name config ≠ "" ∧ endpoint config ≠ "" ∧
  model config ≠ "" ∧ apiKey config ≠ "" ∧
  trim (id config) = id config ∧ includes (id config) "," = false ∧
  trim (apiKey config) = apiKey config ∧ trim (model config) = model config.
Proof.
  unfold loadProviderConfigs. intros (g & Hg & Hc)%load_groups_elem.
  pose proof Hg as (Hne & Htrim & Hcomma)%kept_items.
  unfold Checks.load_group in Hc.
  destruct (normalizeType toLowerCase (read g "TYPE")) as [t|] eqn:Et; [|done].
  destruct (read g "KEY") as [[|k key]|] eqn:Ek; try done.
  destruct (read g "MODEL") as [[|m mdl]|] eqn:Em; try done.
  injection Hc as <-. cbn [id name type endpoint model apiKey default].
  rewrite Ek, Em.
  apply normalizeType_Some in Et as (v & Ev & _ & Hv).
  apply read_trimmed in Ek, Em.
  split_and!; try done.
  - eauto.
  - by apply string_or_nonempty.
  - apply string_or_nonempty. by destruct t.
Qed.

Lemma load_groups_accounting groups :
  (length (load_groups groups).1 + length (load_groups groups).2 = length groups)%nat ∧
  id <$> (load_groups groups).1 `sublist_of` groups.
Proof.
  induction groups as [|g groups [IH1 IH2]]; simpl; [split; [done|constructor]|].
  destruct (Checks.load_groups _ _ _ groups) as [configs warnings].
  unfold Checks.load_group.
  destruct (normalizeType toLowerCase (read g "TYPE")) as [t|];
    [destruct (read g "KEY") as [[|k key]|];
       [| destruct (read g "MODEL") as [[|m mdl]|] |] |];
    simpl in *; split; try lia; try (by constructor).
Qed.

(** X5.  [loadProviderConfigs] answers every group of [CHECK_GROUPS]
    once, with a config or with a warning, and returns the configs in
    the order of the groups: no config is returned when the variable is
    unset or lists nothing, and the ids are distinct when the groups
    are. *)
Theorem every_group_is_loaded_or_reported :
  let loaded := loadProviderConfigs toUpperCase toLowerCase env in
  (length loaded.1 + length loaded.2 = length (groupList env))%nat ∧
  id <$> loaded.1 `sublist_of` groupList env ∧
  (NoDup (groupList env) → NoDup (id <$> loaded.1)) ∧
  (groupList env = [] → loaded = ([], [])).
Proof.
  cbn zeta. unfold loadProviderConfigs.
  destruct (load_groups_accounting (groupList env)) as [H1 H2].
  split_and!; [done|done| |].
  - intros Hnd. by eapply sublist_NoDup.
  - intros ->. done.
Qed.

(** X29.  [runProviderChecks] over the configs of the environment never
    rejects, and what it settles with holds one result for each
    complete group, under the id of that group: the ids of the results
    are ids of groups of [CHECK_GROUPS], none more often than the group
    is listed.  When no group is listed it resolves to the empty batch
    without waiting for any check. *)
Theorem checks_cover_the_complete_groups (rt : Runtime) :
  let configs := (loadProviderConfigs toUpperCase toLowerCase env).1 in
  (∀ network order settled,
     runProviderChecks rt configs network order = Some settled →
     ∃ results, settled = Normal results ∧
       r_id <$> results ≡ₚ id <$> configs ∧
       r_id <$> results ⊆+ groupList env) ∧
  (groupList env = [] →
   ∀ network order, runProviderChecks rt configs network order = Some (Normal [])).
Proof.
  cbn zeta. unfold loadProviderConfigs. split.
  - intros network order settled (results & -> & Hids)%runProviderChecks_results.
    eexists. split; [done|].
    assert (r_id <$> sort (by_name rt) results ≡ₚ id <$> (load_groups (groupList env)).1)
      as Hperm by (by rewrite sort_Permutation, Hids).
    split; [done|]. rewrite Hperm.
    apply sublist_submseteq, load_groups_accounting.
  - intros ->. done.
Qed.
End ConfigFacts.

(** X4, witness: the one complete group of the sample environment. *)
Lemma loaded_configs_are_complete_witness :
  Checks.read Sample.upper Sample.env_groups "main" "KEY" = Some "sk-12345678" ∧
  endpoint Sample.config_main = DEFAULT_ENDPOINTS openai ∧
  name Sample.config_main = "main".
Proof.
  destruct (loaded_configs_are_complete Sample.upper Sample.lower Sample.env_groups
              Sample.config_main) as (_ & _ & Hkey & _ & Hendpoint & Hname & _).
  { vm_compute. left. }
  split_and!; [exact Hkey|exact Hendpoint|exact Hname].
Defined.

(** X5, witness: three groups, one config and two warnings. *)
Lemma every_group_is_loaded_or_reported_witness :
  NoDup (id <$> (Checks.loadProviderConfigs Sample.upper Sample.lower Sample.env_groups).1) ∧
  Checks.loadProviderConfigs Sample.upper Sample.lower (λ _, None) = ([], []).
Proof.
  split.
  - destruct (every_group_is_loaded_or_reported Sample.upper Sample.lower
                Sample.env_groups) as (_ & _ & Hnd & _).
    apply Hnd. apply (bool_decide_unpack _). vm_compute. reflexivity.
  - destruct (every_group_is_loaded_or_reported Sample.upper Sample.lower (λ _, None))
      as (_ & _ & _ & Hnone).
    apply Hnone. reflexivity.
Defined.

(** ** [runHttpCheck] *)

Section HttpFacts.
Context (rt : Runtime).
Import Checks.

(** X6.  When there is no 2xx response, [runHttpCheck] and
    [runStreamCheck] return the same result for the same URL and
    endpoint, whatever the stream parser: both report a rejected
    [fetch] and an unreadable error body through the [catch] block, and
    an error response with the same latency and message. *)
Theorem error_responses_are_reported_alike config http stream x :
  http_url http = url stream →
  http_displayEndpoint http = displayEndpoint stream →
  response_2xx x = false →
  runHttpCheck rt config http x = runStreamCheck rt config stream x.
Proof.
  intros Hurl Hshown H2xx.
  assert (http_shown_endpoint http = shown_endpoint stream) as Hs.
  { unfold http_shown_endpoint, shown_endpoint. by rewrite Hurl, Hshown. }
  unfold runHttpCheck, runStreamCheck, runHttpCheck_try, runStreamCheck_try, readBody.
  unfold response_2xx in H2xx. rewrite Hs.
  destruct (fetched x) as [e|r]; unfold_bind; [done|].
  rewrite H2xx. unfold_bind.
  destruct (text r) as [errorBody|e]; unfold_bind; done.
Qed.

(** X7.  [runHttpCheck] always returns a result.  Its status is
    operational or degraded exactly when the response was 2xx and its
    body could be read, operational exactly when moreover the response
    came within 6000 ms; the latency is measured whenever the body
    could be read, also for an error response, and is null with status
    failed whenever it could not. *)
Theorem http_check_classification config params x :
  ∃ res, runHttpCheck rt config params x = Normal res ∧
    (healthy (status res) = true ↔ response_2xx x = true ∧ text_read x = true) ∧
    (status res = operational ↔
       response_2xx x = true ∧ text_read x = true ∧
       finishedAt x - startedAt x ≤ DEGRADED_THRESHOLD_MS) ∧
    (text_read x = true → latencyMs res = Some (finishedAt x - startedAt x)) ∧
    (text_read x = false → status res = failed ∧ latencyMs res = None).
Proof.
  unfold runHttpCheck, runHttpCheck_try, readBody, response_2xx, text_read.
  destruct (fetched x) as [e|r]; unfold_bind.
  { eexists. split; [done|]. cbn [status latencyMs result_of healthy]. intuition congruence. }
  destruct (text r) as [body|e]; unfold_bind.
  2: { eexists. split; [done|]. cbn [status latencyMs result_of healthy].
       intuition congruence. }
  eexists. split; [done|]. cbn [status latencyMs result_of].
  destruct (ok r); cbn [andb].
  - case_bool_decide; cbn [healthy]; intuition congruence.
  - cbn [healthy]. intuition congruence.
Qed.
End HttpFacts.

(** X6, witness: a 429 response with a JSON error body. *)
Lemma error_responses_are_reported_alike_witness :
  Checks.runHttpCheck Reference.runtime Sample.config_a
    {| Checks.http_url := "https://api.openai.com/v1/chat/completions";
       Checks.http_displayEndpoint := "" |}
    (Sample.refused 429 "{'error':{'message':'Rate limit reached'}}")
  = Checks.runStreamCheck Reference.runtime Sample.config_a
      {| Checks.url := "https://api.openai.com/v1/chat/completions";
         Checks.displayEndpoint := "";
         Checks.parseStream := Checks.parseOpenAIStream Reference.runtime |}
      (Sample.refused 429 "{'error':{'message':'Rate limit reached'}}").
Proof.
  apply error_responses_are_reported_alike; reflexivity.
Defined.

(** X7, witness: a 200 response read after 100 ms. *)
Lemma http_check_classification_witness :
  ∃ res,
    Checks.runHttpCheck Reference.runtime Sample.config_a
      {| Checks.http_url := "https://api.openai.com/v1/chat/completions";
         Checks.http_displayEndpoint := "" |} (Sample.streamed 100) = Normal res ∧
    status res = operational ∧ latencyMs res = Some 100.
Proof.
  destruct (http_check_classification Reference.runtime Sample.config_a
              {| Checks.http_url := "https://api.openai.com/v1/chat/completions";
                 Checks.http_displayEndpoint := "" |} (Sample.streamed 100))
    as (res & Hres & _ & Hop & Hlat & _).
  exists res. split; [exact Hres|]. split.
  - apply Hop. split_and!; [reflexivity|reflexivity|vm_compute; discriminate].
  - apply Hlat. reflexivity.
Defined.

(** ** The stream parsers, beyond single lines *)

Section SplitMore.
Import JsString.

(** A separator cuts the text into the segments before it and the
    segments after it. *)
Lemma split_at_sep sep s t :
  split sep (s +:+ String sep t) = split sep s ++ split sep t.
Proof.
  induction s as [|c s IH].
  - change ("" +:+ String sep t) with (String sep t). simpl.
    by rewrite Ascii.eqb_refl.
  - change (String c s +:+ String sep t) with (String c (s +:+ String sep t)).
    simpl. rewrite IH. destruct (Ascii.eqb c sep); [done|].
    destruct (split sep s) as [|x xs] eqn:E; [by apply split_nonempty in E|done].
Qed.

Lemma split_no_sep sep t :
  includes t (String sep "") = false → split sep t = [t].
Proof.
  induction t as [|c t IH]; [done|]. cbn [includes]. simpl.
  destruct (ascii_dec sep c) as [->|Hne].
  - by destruct t.
  - simpl. intros Ht. rewrite (IH Ht).
    destruct (Ascii.eqb c sep) eqn:E; [|done].
    apply Ascii.eqb_eq in E. congruence.
Qed.

Lemma whole_app cs cs' : whole (cs ++ cs') = whole cs +:+ whole cs'.
Proof.
  induction cs as [|c cs IH]; [done|]. simpl. by rewrite IH, append_assoc.
Qed.
End SplitMore.

Section ParserMore.
Context (rt : Runtime).
Import JsString Checks.
Local Arguments slice_from : simpl never.
Local Arguments startsWith : simpl never.
Local Arguments String.eqb : simpl never.
Local Arguments split : simpl never.

Lemma parseAnthropic_loop_error cs e fullResponse buffer :
  parseAnthropic_loop rt cs (Some e) fullResponse buffer = Throw e.
Proof.
  revert fullResponse buffer.
  induction cs as [|chunk cs IH]; intros full buffer; simpl; [done|].
  destruct (pop_or_empty _). apply IH.
Qed.

Lemma parseGemini_loop_error cs e fullResponse buffer :
  parseGemini_loop rt cs (Some e) fullResponse buffer = Throw e.
Proof.
  revert fullResponse buffer.
  induction cs as [|chunk cs IH]; intros full buffer; simpl; [done|].
  destruct (gemini_objects _ _ _). apply IH.
Qed.

Lemma terminator_line line :
  startsWith line "data: " = true → String.eqb (slice_from 6 line) "[DONE]" = true →
  line = "data: [DONE]".
Proof.
  unfold startsWith. intros (t & ->)%prefix_split Heq.
  apply String.eqb_eq in Heq. change (slice_from 6 ("data: " +:+ t)) with t in Heq.
  by rewrite Heq.
Qed.

Lemma openai_lines_no_terminator lines fullResponse :
  "data: [DONE]" ∉ lines → ∃ text, openai_lines rt lines fullResponse = inl text.
Proof.
  revert fullResponse. induction lines as [|line lines IH]; intros full Hno; simpl.
  - by eexists.
  - apply not_elem_of_cons in Hno as [Hne Hno].
    destruct (startsWith line "data: ") eqn:Hs; [|by apply IH].
    destruct (String.eqb (slice_from 6 line) "[DONE]") eqn:Hd; [|by apply IH].
    destruct Hne. symmetry. by apply terminator_line.
Qed.

Lemma parseOpenAI_loop_error cs e fullResponse :
  (∀ chunk, chunk ∈ cs → "data: [DONE]" ∉ split newline chunk) →
  parseOpenAI_loop rt cs (Some e) fullResponse = Throw e.
Proof.
  revert fullResponse. induction cs as [|chunk cs IH]; intros full Hno; simpl; [done|].
  destruct (openai_lines_no_terminator
              (filter (λ line, nonblank line = true) (split newline chunk)) full)
    as (text & ->).
  - intros Hin%list_elem_of_filter. destruct Hin as [_ Hin].
    by apply (Hno chunk); [left|].
  - apply IH. intros c Hc. apply Hno. by right.
Qed.

(** X8.  A read error of the stream is never swallowed: the Anthropic
    and the Gemini parser throw it whatever was delivered before, and
    so does the OpenAI parser unless a line ["data: [DONE]"] was
    delivered. *)
Theorem read_errors_reach_the_caller cs e :
  parseAnthropicStream rt {| chunks := cs; read_error := Some e |} = Throw e ∧
  parseGeminiStream rt {| chunks := cs; read_error := Some e |} = Throw e ∧
  ((∀ chunk, chunk ∈ cs → "data: [DONE]" ∉ split newline chunk) →
   parseOpenAIStream rt {| chunks := cs; read_error := Some e |} = Throw e).
Proof.
  split_and!.
  - apply parseAnthropic_loop_error.
  - apply parseGemini_loop_error.
  - apply parseOpenAI_loop_error.
Qed.

Lemma nonblank_lines_append u c2 :
  filter (λ line, nonblank line = true) (split newline ((u +:+ String newline "") +:+ c2))
  = filter (λ line, nonblank line = true) (split newline (u +:+ String newline ""))
    ++ filter (λ line, nonblank line = true) (split newline c2).
Proof.
  rewrite append_assoc. change (String newline "" +:+ c2) with (String newline c2).
  rewrite !split_at_sep, !filter_app. f_equal.
  change (split newline "") with [""]. by rewrite app_nil_r.
Qed.

Lemma parseOpenAI_loop_merge u c2 cs ending fullResponse :
  parseOpenAI_loop rt ((u +:+ String newline "") :: c2 :: cs) ending fullResponse
  = parseOpenAI_loop rt (((u +:+ String newline "") +:+ c2) :: cs) ending fullResponse.
Proof.
  cbn [parseOpenAI_loop]. rewrite nonblank_lines_append, openai_lines_app.
  by destruct (openai_lines rt _ fullResponse).
Qed.

Lemma parseOpenAI_loop_whole c cs ending fullResponse :
  Forall (λ chunk, endsWith chunk (String newline "") = true) (c :: cs) →
  parseOpenAI_loop rt (c :: cs) ending fullResponse
  = parseOpenAI_loop rt [c +:+ whole cs] ending fullResponse.
Proof.
  revert c. induction cs as [|c' cs IH]; intros c Hcs.
  - simpl. by rewrite append_empty_r.
  - apply Forall_cons in Hcs as [(u & ->)%endsWith_split Hcs].
    rewrite parseOpenAI_loop_merge, IH.
    + simpl. by rewrite !append_assoc.
    + apply Forall_cons in Hcs as [(u' & ->)%endsWith_split Hcs].
      apply Forall_cons. split; [|done].
      rewrite <- append_assoc. apply endsWith_append.
Qed.

(** X9.  The OpenAI parser gathers the same text from a stream cut
    into chunks that each end with a newline as from the whole stream in
    one chunk. *)
Theorem openai_parser_reads_whole_lines cs ending :
  Forall (λ chunk, endsWith chunk (String newline "") = true) cs →
  parseOpenAIStream rt {| chunks := cs; read_error := ending |}
  = parseOpenAIStream rt {| chunks := [whole cs]; read_error := ending |}.
Proof.
  unfold parseOpenAIStream. cbn [chunks read_error].
  destruct cs as [|c cs]; [by destruct ending|].
  apply parseOpenAI_loop_whole.
Qed.

(** X10.  The Anthropic parser gathers the events of the complete
    lines of the stream, in order: the chunking makes no difference, and
    what follows the last newline is never parsed. *)
Theorem anthropic_parser_reads_complete_lines :
  (∀ cs lines last,
     split newline (whole cs) = lines ++ [last] →
     parseAnthropicStream rt (delivered cs) = Normal (anthropic_lines rt lines "")) ∧
  (∀ cs cs', whole cs = whole cs' →
     parseAnthropicStream rt (delivered cs) = parseAnthropicStream rt (delivered cs')) ∧
  (∀ text rest,
     includes rest (String newline "") = false →
     parseAnthropicStream rt (delivered [text +:+ String newline rest])
     = parseAnthropicStream rt (delivered [text +:+ String newline ""])).
Proof.
  assert (∀ cs lines last,
     split newline (whole cs) = lines ++ [last] →
     parseAnthropicStream rt (delivered cs) = Normal (anthropic_lines rt lines ""))
    as Hlines.
  { intros cs lines last E. rewrite parseAnthropicStream_whole.
    unfold parseAnthropicStream, delivered. cbn [chunks read_error parseAnthropic_loop].
    change ("" +:+ whole cs) with (whole cs). by rewrite E, pop_or_empty_snoc. }
  split_and!; [done| |].
  - intros cs cs' E.
    destruct (split_snoc newline (whole cs)) as (lines & last & El).
    rewrite (Hlines cs lines last El). rewrite E in El.
    by rewrite (Hlines cs' lines last El).
  - intros text rest Hrest.
    rewrite (Hlines [text +:+ String newline rest] (split newline text) rest).
    + rewrite (Hlines [text +:+ String newline ""] (split newline text) ""); [done|].
      simpl. by rewrite append_empty_r, split_at_sep.
    + simpl. rewrite append_empty_r, split_at_sep. by rewrite (split_no_sep _ rest).
Qed.
End ParserMore.

Section OnStreams.
Import JsString Checks Sample.

(** X8, witness: a stream that breaks after its first event. *)
Lemma read_errors_reach_the_caller_witness :
  parseOpenAIStream Reference.runtime
    {| chunks := [line openai_event_hi]; read_error := Some AbortError |}
  = Throw AbortError.
Proof.
  destruct (read_errors_reach_the_caller Reference.runtime
              [line openai_event_hi] AbortError) as (_ & _ & Hopenai).
  apply Hopenai. intros chunk ->%list_elem_of_singleton.
  apply (bool_decide_unpack _). vm_compute. reflexivity.
Defined.

(** X9, witness: an event and the terminator, one line a chunk. *)
Lemma openai_parser_reads_whole_lines_witness :
  parseOpenAIStream Reference.runtime
    (delivered [line openai_event_hi; line "data: [DONE]"])
  = parseOpenAIStream Reference.runtime
      (delivered [whole [line openai_event_hi; line "data: [DONE]"]]).
Proof.
  apply (openai_parser_reads_whole_lines Reference.runtime
           [line openai_event_hi; line "data: [DONE]"] None).
  repeat (constructor; [reflexivity|]). constructor.
Defined.

(** X10, witness: a last event without its newline is not read. *)
Lemma anthropic_parser_reads_complete_lines_witness :
  parseAnthropicStream Reference.runtime
    (delivered [line "event: ping" +:+ quoted "data: {'type':'content_block_delta','delta':{'text':'hi'}}"])
  = parseAnthropicStream Reference.runtime (delivered [line "event: ping"]).
Proof.
  destruct (anthropic_parser_reads_complete_lines Reference.runtime) as (_ & _ & Hrest).
  apply (Hrest "event: ping"
           (quoted "data: {'type':'content_block_delta','delta':{'text':'hi'}}")).
  reflexivity.
Defined.
End OnStreams.

(** ** The Gemini parser across chunks *)

Section GeminiFacts.
Context (rt : Runtime).
Import JsString Checks.
Local Arguments split : simpl never.

Lemma nonempty_trimEnd s : nonempty (trimEnd s) = has_ink s.
Proof.
  induction s as [|c s IH]; [done|]. simpl. rewrite <- IH.
  destruct (trimEnd s); simpl; [|by rewrite orb_true_r].
  by destruct (is_white_space c).
Qed.

Lemma has_ink_trimStart s : has_ink (trimStart s) = has_ink s.
Proof.
  induction s as [|c s IH]; [done|]. simpl.
  destruct (is_white_space c) eqn:E; simpl; [done|by rewrite E].
Qed.

Lemma nonblank_has_ink s : nonblank s = has_ink s.
Proof. unfold nonblank, trim. by rewrite nonempty_trimEnd, has_ink_trimStart. Qed.

Lemma has_ink_append s t : has_ink (s +:+ t) = has_ink s || has_ink t.
Proof.
  induction s as [|c s IH]; [done|].
  change (String c s +:+ t) with (String c (s +:+ t)). simpl.
  by rewrite IH, orb_assoc.
Qed.

Lemma has_ink_split s : existsb has_ink (split newline s) = has_ink s.
Proof.
  induction s as [|c s IH]; [done|].
  unfold split; fold split. destruct (Ascii.eqb c newline) eqn:E.
  - apply Ascii.eqb_eq in E as ->. simpl. exact IH.
  - destruct (split newline s) as [|x xs] eqn:Es; [by apply split_nonempty in Es|].
    simpl in *. by rewrite <- IH, orb_assoc.
Qed.

Lemma nonblank_lines_nonempty s :
  has_ink s = true → filter (λ line, nonblank line = true) (split newline s) ≠ [].
Proof.
  rewrite <- has_ink_split. intros (x & Hx & Hink)%existsb_exists E.
  assert (x ∈ filter (λ line, nonblank line = true) (split newline s)) as Hin.
  { apply list_elem_of_filter. split; [by rewrite nonblank_has_ink|].
    by apply list_elem_of_In. }
  rewrite E in Hin. by apply elem_of_nil in Hin.
Qed.

Lemma gemini_objects_app l1 l2 fullResponse :
  l2 ≠ [] →
  gemini_objects rt (l1 ++ l2) fullResponse
  = gemini_objects rt l2 (foldl (gemini_object rt) fullResponse l1).
Proof.
  intros Hne. revert fullResponse. induction l1 as [|y l1 IH]; intros full; [done|].
  simpl. destruct (l1 ++ l2) as [|z l'] eqn:E.
  - apply app_eq_nil in E as [_ ->]. done.
  - apply IH.
Qed.

Lemma parseGemini_loop_merge c1 c2 cs ending fullResponse buffer lines rest :
  split newline (buffer +:+ c1) = lines ++ [rest] → nonblank rest = true →
  parseGemini_loop rt (c1 :: c2 :: cs) ending fullResponse buffer
  = parseGemini_loop rt ((c1 +:+ c2) :: cs) ending fullResponse buffer.
Proof.
  intros E Hrest. cbn [parseGemini_loop].
  rewrite <- append_assoc, (split_append _ _ c2 _ _ E), E.
  rewrite !filter_app.
  rewrite (filter_cons _ rest), decide_True by done.
  change (filter (λ s, nonblank s = true) []) with (@nil string).
  rewrite gemini_objects_snoc, gemini_objects_app; [done|].
  apply nonblank_lines_nonempty.
  by rewrite has_ink_append, <- nonblank_has_ink, Hrest.
Qed.

(** X11.  The Gemini parser reads every non-blank line of a stream
    that arrives in one chunk, the last line included; and a stream cut
    in two is read as the whole when the part of the cut line that
    comes before the cut ([rest], what follows the last newline of the
    first chunk) holds a character other than white space. *)
Theorem gemini_parser_reads_nonblank_lines :
  (∀ text,
     parseGeminiStream rt (delivered [text])
     = Normal (foldl (gemini_object rt) ""
                 (filter (λ line, nonblank line = true) (split newline text)))) ∧
  (∀ c1 c2 lines rest,
     split newline c1 = lines ++ [rest] → nonblank rest = true →
     parseGeminiStream rt (delivered [c1; c2])
     = parseGeminiStream rt (delivered [c1 +:+ c2])).
Proof.
  split.
  - intros text. apply parseGeminiStream_one_chunk.
  - intros c1 c2 lines rest E Hrest. unfold parseGeminiStream, delivered.
    cbn [chunks read_error]. by eapply parseGemini_loop_merge.
Qed.
End GeminiFacts.

(** X11, witness: two objects, the stream cut inside the second. *)
Lemma gemini_parser_reads_nonblank_lines_witness :
  Checks.parseGeminiStream Reference.runtime
    (delivered [Sample.line Sample.gemini_a +:+ JsString.quoted "{'candidates':[{'content'";
                JsString.quoted ":{'parts':[{'text':'b'}]}}]}"])
  = Checks.parseGeminiStream Reference.runtime
      (delivered [(Sample.line Sample.gemini_a +:+ JsString.quoted "{'candidates':[{'content'")
                  +:+ JsString.quoted ":{'parts':[{'text':'b'}]}}]}"]).
Proof.
  destruct (gemini_parser_reads_nonblank_lines Reference.runtime) as [_ Hcut].
  apply (Hcut _ _ [JsString.quoted Sample.gemini_a]
           (JsString.quoted "{'candidates':[{'content'")).
  - vm_compute. reflexivity.
  - vm_compute. reflexivity.
Defined.

(** ** The check through the SDK ([lib/providers/openai.ts]) *)

Section BaseUrlFacts.
Import JsString OpenAIProvider.

Lemma split_head_no_sep sep s x xs :
  split sep s = x :: xs → includes x (String sep "") = false.
Proof.
  revert x xs. induction s as [|c s IH]; intros x xs; simpl.
  - by intros [= <- <-].
  - destruct (Ascii.eqb c sep) eqn:E; [by intros [= <- <-]|].
    destruct (split sep s) as [|y ys] eqn:Es; [by apply split_nonempty in Es|].
    intros [= <- <-]. rewrite includes_char_cons, (IH y ys eq_refl).
    rewrite orb_false_r, Ascii.eqb_sym. exact E.
Qed.

Lemma slice_to_from n s : slice_to n s +:+ slice_from n s = s.
Proof.
  revert s. induction n as [|n IH]; intros [|c s]; simpl; try done.
  change (String c (slice_to n s) +:+ slice_from n s)
    with (String c (slice_to n s +:+ slice_from n s)).
  by rewrite IH.
Qed.

Lemma includes_slice_to n s sub : includes s sub = false → includes (slice_to n s) sub = false.
Proof.
  intros Hs. destruct (includes (slice_to n s) sub) eqn:E; [|done].
  apply (includes_append_l _ (slice_from n s)) in E.
  rewrite slice_to_from in E. congruence.
Qed.

Lemma slice_to_length_append s t : slice_to (String.length s) (s +:+ t) = s.
Proof.
  induction s as [|c s IH]; [by destruct t|].
  change (String c s +:+ t) with (String c (s +:+ t)). simpl. by rewrite IH.
Qed.

Lemma strip_trailing_slash_prefix s : ∃ t, s = strip_trailing_slash s +:+ t.
Proof.
  unfold strip_trailing_slash. destruct (String.rev s) as [|c r] eqn:E.
  { exists "". by rewrite append_empty_r. }
  assert (s = String.rev r +:+ String c "") as Hs.
  { rewrite <- (rev_involutive s), E.
    change (String c r) with (String c "" +:+ r). by rewrite rev_append. }
  destruct (Ascii.eqb c "/") eqn:Ec.
  - apply Ascii.eqb_eq in Ec. subst c. by exists "/".
  - exists "". rewrite append_empty_r.
    destruct c as [[] [] [] [] [] [] [] []]; try done.
Qed.

Lemma includes_strip_trailing_slash s sub :
  includes s sub = false → includes (strip_trailing_slash s) sub = false.
Proof.
  intros Hs. destruct (strip_trailing_slash_prefix s) as (t & Ht).
  destruct (includes (strip_trailing_slash s) sub) eqn:E; [|done].
  apply (includes_append_l _ t) in E. rewrite <- Ht in E. congruence.
Qed.

Lemma indexOf_from_none i s sub : indexOf_from i s sub = -1 → includes s sub = false.
Proof.
  revert i. induction s as [|c s IH]; intros i; cbn [indexOf_from includes].
  - destruct (String.prefix sub ""); [lia|done].
  - destruct (String.prefix sub (String c s)); [lia|]. intros H. by rewrite (IH _ H).
Qed.

Lemma indexOf_from_found i s sub k :
  indexOf_from i s sub = k → k ≠ -1 →
  ∃ a b, s = a +:+ sub +:+ b ∧ k = Z.of_nat (i + String.length a).
Proof.
  revert i. induction s as [|c s IH]; intros i; cbn [indexOf_from].
  - destruct (String.prefix sub "") eqn:E; [|by intros <-].
    apply prefix_split in E as (b & Hb). intros <- _. exists "", b. split; [done|].
    simpl. f_equal. lia.
  - destruct (String.prefix sub (String c s)) eqn:E.
    + apply prefix_split in E as (b & Hb). intros <- _. exists "", b. split; [done|].
      simpl. f_equal. lia.
    + intros Hk Hne. destruct (IH _ Hk Hne) as (a & b & -> & ->).
      exists (String c a), b. split; [done|]. simpl. f_equal. lia.
Qed.

Lemma slice_to_index_found s sub k :
  indexOf s sub = k → k ≠ -1 →
  ∃ a, String.prefix a s = true ∧
       slice_to_index k s = a ∧
       slice_to_index (k + Z.of_nat (String.length sub)) s = a +:+ sub.
Proof.
  intros Hk Hne. destruct (indexOf_from_found 0 s sub k Hk Hne) as (a & b & -> & ->).
  exists a. unfold slice_to_index. rewrite !bool_decide_true by lia.
  split_and!.
  - apply prefix_append.
  - rewrite Nat2Z.id. apply slice_to_length_append.
  - rewrite <- Nat2Z.inj_add, Nat2Z.id. simpl.
    rewrite <- length_append, <- append_assoc. apply slice_to_length_append.
Qed.

Lemma includes_prefix_false a s sub :
  String.prefix a s = true → includes s sub = false → includes a sub = false.
Proof.
  intros (t & ->)%prefix_split Hs. destruct (includes a sub) eqn:E; [|done].
  apply (includes_append_l _ t) in E. congruence.
Qed.

(** X12.  The base URL derived for the SDK holds no query mark, and
    it ends with ["/v1"] unless the endpoint, up to its query and to
    ["/chat/completions"], mentions neither ["/v1"] nor
    ["api.openai.com"], in which case the base URL mentions neither. *)
Theorem base_url_ends_with_v1 endpoint :
  includes (deriveOpenAIBaseURL endpoint) "?" = false ∧
  (endsWith (deriveOpenAIBaseURL endpoint) "/v1" = true ∨
   (includes (deriveOpenAIBaseURL endpoint) "/v1" = false ∧
    includes (deriveOpenAIBaseURL endpoint) "api.openai.com" = false)).
Proof.
  unfold deriveOpenAIBaseURL. cbv zeta.
  set (raw := Checks.string_or endpoint (DEFAULT_ENDPOINTS openai)).
  destruct (split "?" raw) as [|withoutQuery rest] eqn:Es;
    [by apply split_nonempty in Es|].
  apply split_head_no_sep in Es.
  change (default "" (head (withoutQuery :: rest))) with withoutQuery.
  set (chatIndex := indexOf withoutQuery "/chat/completions").
  set (base := if bool_decide (chatIndex ≠ -1)
               then slice_to_index chatIndex withoutQuery else withoutQuery).
  assert (includes base "?" = false) as Hbase.
  { subst base. case_bool_decide as Hc; [|done].
    destruct (slice_to_index_found withoutQuery _ chatIndex eq_refl Hc)
      as (a & Ha & -> & _).
    by eapply includes_prefix_false. }
  clearbody base. clear chatIndex.
  case_bool_decide as Hv.
  - destruct (slice_to_index_found base "/v1" _ eq_refl Hv) as (a & Ha & _ & ->).
    split; [|left; apply endsWith_append].
    rewrite includes_char_append. rewrite (includes_prefix_false a base "?" Ha Hbase).
    done.
  - try apply dec_stable in Hv. apply indexOf_from_none in Hv.
    destruct (includes base "api.openai.com") eqn:Hh.
    + split; [|left; apply endsWith_append].
      rewrite includes_char_append, includes_strip_trailing_slash by done. done.
    + split; [done|]. by right.
Qed.
End BaseUrlFacts.

(** ** What every result carries *)

Section ResultFacts.
Context (rt : Runtime).
Import JsString Checks.

Lemma runStreamCheck_identity config params x :
  ∃ res, runStreamCheck rt config params x = Normal res ∧
    r_id res = id config ∧ r_name res = name config ∧ r_type res = type config ∧
    r_model res = model config ∧ r_endpoint res = shown_endpoint params.
Proof.
  unfold runStreamCheck, runStreamCheck_try.
  destruct (fetched x) as [e|r]; unfold_bind; [by eexists|].
  destruct (ok r); unfold_bind.
  - destruct (body r) as [reader|]; [|by eexists].
    destruct (parseStream params reader); unfold_bind; by eexists.
  - destruct (text r); unfold_bind; by eexists.
Qed.

Lemma includes_nonempty s sub : sub ≠ "" → includes s sub = true → s ≠ "".
Proof. intros Hsub Hs ->. by destruct sub. Qed.

(** X13.  Every result of [checkProvider] and of the check through
    the SDK carries the id, name, type and model of its config.  The
    endpoint it shows is the endpoint of the config, or, when the
    config has none, the URL that was requested, which is the path of
    the type's API put in place of the endpoint, or for Gemini the URL
    made of the model and the key (the default OpenAI endpoint for the
    SDK): it is never empty. *)
Theorem results_identify_their_config config x sx :
  (∃ res, checkProvider rt config x = Normal res ∧
     r_id res = id config ∧ r_name res = name config ∧ r_type res = type config ∧
     r_model res = model config ∧ r_endpoint res ≠ "" ∧
     (endpoint config ≠ "" → r_endpoint res = endpoint config) ∧
     (endpoint config = "" →
      r_endpoint res = match type config with
                       | openai => ensurePath (endpoint config) "/v1/chat/completions"
                       | gemini => gemini_url config
                       | anthropic => ensurePath (endpoint config) "/v1/messages"
                       end)) ∧
  (∃ res, OpenAIProvider.checkOpenAI config sx = Normal res ∧
     r_id res = id config ∧ r_name res = name config ∧ r_type res = type config ∧
     r_model res = model config ∧ r_endpoint res ≠ "" ∧
     (endpoint config ≠ "" → r_endpoint res = endpoint config) ∧
     (endpoint config = "" → r_endpoint res = DEFAULT_ENDPOINTS openai)).
Proof.
  split.
  - unfold checkProvider, checkOpenAI, checkGemini, checkAnthropic.
    destruct (type config) eqn:Et;
      match goal with
      | |- context [runStreamCheck rt config ?p x] =>
          destruct (runStreamCheck_identity config p x)
            as (res & -> & Hid & Hname & Htype & Hmodel & Hshown)
      end;
      exists res; rewrite Hshown; unfold shown_endpoint; cbn [url displayEndpoint];
      (split_and!; [done|done|done|congruence|done| | |]);
      destruct (endpoint config) as [|c e] eqn:Ee; cbn [nonempty]; try done.
    unfold gemini_url. eapply includes_nonempty; [|apply appendQuery_includes]. done.
  - unfold OpenAIProvider.checkOpenAI, OpenAIProvider.checkOpenAI_try.
    assert (OpenAIProvider.displayEndpoint config ≠ "" ∧
            (endpoint config ≠ "" → OpenAIProvider.displayEndpoint config = endpoint config) ∧
            (endpoint config = "" →
               OpenAIProvider.displayEndpoint config = DEFAULT_ENDPOINTS openai)) as Hshown.
    { unfold OpenAIProvider.displayEndpoint. by destruct (endpoint config). }
    destruct (OpenAIProvider.created sx) as [st e|stream]; unfold_bind; [by eexists|].
    destruct (OpenAIProvider.read_stream _ _); unfold_bind; by eexists.
Qed.

(** X14.  The check through the SDK returns a failed result with a
    null latency whenever [create] rejects or the stream cannot be read
    to its end, so also for an error response; the message is
    "请求超时" for an [AbortError], otherwise the text of the error, or
    "未知错误" when the error has no text. *)
Theorem sdk_failures_are_captured config sx e :
  sdk_failure sx = Some e →
  ∃ res, OpenAIProvider.checkOpenAI config sx = Normal res ∧
    status res = failed ∧ latencyMs res = None ∧
    (err_name e = "AbortError" → message res = JStr "请求超时") ∧
    (err_name e ≠ "AbortError" → err_message e ≠ "" →
       message res = JStr (err_message e)) ∧
    (err_name e ≠ "AbortError" → err_message e = "" →
       message res = JStr "未知错误").
Proof.
  unfold sdk_failure, OpenAIProvider.checkOpenAI, OpenAIProvider.checkOpenAI_try.
  intros He.
  assert (∀ res, res = result_of config (OpenAIProvider.displayEndpoint config) failed
                         None (OpenAIProvider.sdk_stampedAt sx)
                         (JStr (failure_message e)) →
            status res = failed ∧ latencyMs res = None ∧
            (err_name e = "AbortError" → message res = JStr "请求超时") ∧
            (err_name e ≠ "AbortError" → err_message e ≠ "" →
               message res = JStr (err_message e)) ∧
            (err_name e ≠ "AbortError" → err_message e = "" →
               message res = JStr "未知错误")) as Hres.
  { intros res ->. cbn [status latencyMs message result_of]. unfold failure_message.
    split_and!; try done.
    - by intros ->.
    - intros Hn Hm. apply String.eqb_neq in Hn. rewrite Hn. by destruct (err_message e).
    - intros Hn Hm. apply String.eqb_neq in Hn. by rewrite Hn, Hm. }
  destruct (OpenAIProvider.created sx) as [st e'|stream]; unfold_bind.
  - injection He as ->. eexists. split; [done|]. by apply Hres.
  - destruct (OpenAIProvider.read_stream _ _) as [|e']; [done|].
    injection He as ->. unfold_bind. eexists. split; [done|]. by apply Hres.
Qed.
End ResultFacts.

(** X14, witness: a 401 response, which the SDK turns into a rejection. *)
Lemma sdk_failures_are_captured_witness :
  ∃ res,
    OpenAIProvider.checkOpenAI Sample.config_a
      {| OpenAIProvider.sdk_startedAt := 1000;
         OpenAIProvider.created :=
           OpenAIProvider.CreateRejects (Some 401)
             {| err_name := "AuthenticationError";
                err_message := "401 Incorrect API key provided" |};
         OpenAIProvider.sdk_finishedAt := 1200;
         OpenAIProvider.sdk_stampedAt := 1200 |} = Normal res ∧
    latencyMs res = None ∧ message res = JStr "401 Incorrect API key provided".
Proof.
  destruct (sdk_failures_are_captured Sample.config_a
              {| OpenAIProvider.sdk_startedAt := 1000;
                 OpenAIProvider.created :=
                   OpenAIProvider.CreateRejects (Some 401)
                     {| err_name := "AuthenticationError";
                        err_message := "401 Incorrect API key provided" |};
                 OpenAIProvider.sdk_finishedAt := 1200;
                 OpenAIProvider.sdk_stampedAt := 1200 |}
              {| err_name := "AuthenticationError";
                 err_message := "401 Incorrect API key provided" |} eq_refl)
    as (res & Hres & _ & Hlat & _ & Hmsg & _).
  exists res. split_and!; [exact Hres|exact Hlat|].
  apply Hmsg; discriminate.
Defined.

(** X13, witness: a check of the first sample config. *)
Lemma results_identify_their_config_witness :
  ∃ res, Checks.checkProvider Reference.runtime Sample.config_a (Sample.streamed 3000)
           = Normal res ∧
    r_id res = "a" ∧ r_endpoint res = "https://api.openai.com/v1/chat/completions".
Proof.
  destruct (results_identify_their_config Reference.runtime Sample.config_a
              (Sample.streamed 3000) (Sample.sdk_streamed 3000))
    as [(res & Hres & Hid & _ & _ & _ & _ & Hshown & _) _].
  exists res. split_and!; [exact Hres|exact Hid|].
  apply Hshown. discriminate.
Defined.

(** ** Groups ([lib/core/group-data.ts]) *)

Section GroupFacts.
Import JsString GroupData.

Lemma elem_of_Set_add g x set : g ∈ Set_add x set ↔ g = x ∨ g ∈ set.
Proof.
  unfold Set_add. case_bool_decide as Hx.
  - split; [by right|]. by intros [->|].
  - rewrite elem_of_app, list_elem_of_singleton. tauto.
Qed.

Lemma NoDup_Set_add x set : NoDup set → NoDup (Set_add x set).
Proof.
  unfold Set_add. case_bool_decide as Hx; [done|].
  intros Hnd. apply NoDup_app. split_and!; [done| |apply NoDup_singleton].
  intros y Hy ->%list_elem_of_singleton. done.
Qed.

Lemma groupSet_spec (allConfigs : list ProviderConfig) (init : list string) :
  let groupSet :=
    foldl (λ set config,
             if truthy_name (groupName config)
             then Set_add (default "" (groupName config)) set
             else set) init allConfigs in
  (NoDup init → NoDup groupSet) ∧
  ∀ g, g ∈ groupSet ↔
       g ∈ init ∨ ∃ c, c ∈ allConfigs ∧ groupName c = Some g ∧ g ≠ "".
Proof.
  revert init. induction allConfigs as [|c0 cs IH]; intros init; simpl.
  - split; [done|]. intros g. split; [by left|].
    by intros [?|(c & ?%elem_of_nil & _)].
  - destruct (IH (if truthy_name (groupName c0)
                  then Set_add (default "" (groupName c0)) init else init))
      as [IHnd IHin].
    split.
    + intros Hnd. apply IHnd. destruct (truthy_name _); [by apply NoDup_Set_add|done].
    + intros g. rewrite IHin. clear IHnd IHin.
      destruct (groupName c0) as [[|ch g0]|] eqn:Eg; simpl.
      * split; [intros [?|(c & Hc & ?)]; [by left|right; exists c; by rewrite elem_of_cons; auto]|].
        intros [?|(c & [->|Hc]%elem_of_cons & Hg & Hne)]; [by left| |right; eauto].
        rewrite Eg in Hg. by simplify_eq.
      * rewrite elem_of_Set_add. split.
        -- intros [[->|?]|(c & Hc & ?)]; [|by left|].
           ++ right. exists c0. split_and!; [by left|done|done].
           ++ right. exists c. split; [by right|done].
        -- intros [?|(c & [->|Hc]%elem_of_cons & Hg & Hne)]; [by left; right| |by right; eauto].
           rewrite Eg in Hg. simplify_eq. by left; left.
      * split; [intros [?|(c & Hc & ?)]; [by left|right; exists c; by rewrite elem_of_cons; auto]|].
        intros [?|(c & [->|Hc]%elem_of_cons & Hg & Hne)]; [by left| |right; eauto].
        rewrite Eg in Hg. by simplify_eq.
Qed.

Lemma compare_code_units_antisym a b :
  compare_code_units a b ≤ 0 → compare_code_units b a ≤ 0 → a = b.
Proof.
  unfold compare_code_units. rewrite (String.compare_antisym a b).
  destruct (String.compare b a) eqn:E; simpl; try lia.
  intros _ _. symmetry. by apply String.compare_eq_iff.
Qed.

Lemma hasUngrouped_spec (allConfigs : list ProviderConfig) :
  existsb (λ config, negb (truthy_name (groupName config))) allConfigs = true ↔
  ∃ c, c ∈ allConfigs ∧ truthy_name (groupName c) = false.
Proof.
  rewrite existsb_exists. split.
  - intros (c & Hc & Ht). exists c. split; [by apply list_elem_of_In|].
    by destruct (truthy_name _).
  - intros (c & Hc & Ht). exists c. split; [by apply list_elem_of_In|]. by rewrite Ht.
Qed.

Lemma available_groups_spec (allConfigs : list ProviderConfig) :
  ascending compare_code_units (available_groups allConfigs) ∧
  NoDup (available_groups allConfigs) ∧
  ∀ g, g ∈ available_groups allConfigs ↔
       (∃ c, c ∈ allConfigs ∧ groupName c = Some g ∧ g ≠ "") ∨
       (g = UNGROUPED_KEY ∧ ∃ c, c ∈ allConfigs ∧ truthy_name (groupName c) = false).
Proof.
  unfold available_groups. cbv zeta.
  destruct (groupSet_spec allConfigs []) as [Hnd Hin]. cbv zeta in Hnd, Hin.
  set (groupSet := foldl _ [] allConfigs) in *.
  specialize (Hnd (NoDup_nil_2)).
  split_and!.
  - apply sort_ascending, compare_code_units_consistent.
  - rewrite sort_Permutation. destruct (existsb _ _); [by apply NoDup_Set_add|done].
  - intros g. rewrite elem_of_sort.
    destruct (existsb _ allConfigs) eqn:Hu.
    + apply hasUngrouped_spec in Hu. rewrite elem_of_Set_add, Hin.
      split; [intros [->|[?%elem_of_nil|?]]|intros [?|[-> _]]]; try done; auto.
    + rewrite Hin. split; [intros [?%elem_of_nil|?]; [done|by left]|].
      intros [?|[_ Hc]]; [by right|].
      apply hasUngrouped_spec in Hc. congruence.
Qed.
End GroupFacts.

Section GroupListing.
Context (rt : Runtime) {Store : Type}.
Context (loadProviderConfigsFromDB : Store → Completion (list ProviderConfig)).
Context (loadHistory : Store → Completion GroupData.HistorySnapshot).
Context (appendHistory :
  list CheckResult → Store → Completion GroupData.HistorySnapshot * Store).
Context (runProviderChecks :
  list ProviderConfig → (nat → Exchange) → list nat →
  option (Completion (list CheckResult))).
Import GroupData.

Local Abbreviation groups := (getAvailableGroups loadProviderConfigsFromDB).
Local Abbreviation load :=
  (loadGroupDashboardData rt loadProviderConfigsFromDB loadHistory appendHistory
     runProviderChecks).

(** X15.  [getAvailableGroups] lists every group once, in ascending
    order of code units: the non-empty group names of the configs, and
    ["__ungrouped__"] when some config has no group name or an empty
    one.  When the configs cannot be loaded it throws the error of the
    load. *)
Theorem available_groups_are_listed_once (w : World) :
  (∀ allConfigs,
     loadProviderConfigsFromDB (store w) = Normal allConfigs →
     ∃ listed, groups w = Done listed w ∧
       ascending compare_code_units listed ∧ NoDup listed ∧
       ∀ g, g ∈ listed ↔
            (∃ c, c ∈ allConfigs ∧ groupName c = Some g ∧ g ≠ "") ∨
            (g = UNGROUPED_KEY ∧
             ∃ c, c ∈ allConfigs ∧ truthy_name (groupName c) = false)) ∧
  (∀ e, loadProviderConfigsFromDB (store w) = Throw e → groups w = Thrown e w).
Proof.
  unfold getAvailableGroups, bind, of_store, ret. split.
  - intros allConfigs ->. eexists. split; [done|]. apply available_groups_spec.
  - by intros e ->.
Qed.

Lemma group_of_nonempty targetGroupName (allConfigs : list ProviderConfig) :
  group_of targetGroupName allConfigs ≠ [] ↔
  ∃ c, c ∈ allConfigs ∧ in_group targetGroupName c = true.
Proof.
  unfold group_of. split.
  - intros Hne. destruct (filter _ allConfigs) as [|c l] eqn:E; [done|].
    assert (c ∈ filter (λ c, in_group targetGroupName c = true) allConfigs) as Hc
      by (rewrite E; by left).
    apply list_elem_of_filter in Hc as [? ?]. by exists c.
  - intros (c & Hc & Hin) E.
    assert (c ∈ filter (λ c, in_group targetGroupName c = true) allConfigs) as H
      by (by apply list_elem_of_filter).
    rewrite E in H. by apply elem_of_nil in H.
Qed.

Lemma not_found_iff_empty env targetGroupName refreshMode (w : World) allConfigs :
  loadProviderConfigsFromDB (store w) = Normal allConfigs →
  returned (load env targetGroupName refreshMode w) = Some None ↔
  group_of targetGroupName allConfigs = [].
Proof.
  intros Hconfigs. split.
  - intros Hret.
    destruct (decide (group_of targetGroupName allConfigs = [])) as [|Hne]; [done|].
    rewrite (loadGroupDashboardData_unfold rt _ _ _ _ _ _ _ _ _ Hconfigs Hne) in Hret.
    cbv zeta in Hret. destruct (loadHistory (store w)); [|done].
    by destruct (match default missing refreshMode with
                 | always => _ | missing => _ | never => _ end).
  - intros Hempty.
    by rewrite (loadGroupDashboardData_empty rt _ _ _ _ _ _ _ _ _ Hconfigs Hempty).
Qed.

(** X16.  A group that has a page is listed: when
    [loadGroupDashboardData] does not answer [null] for a non-empty
    group name, [getAvailableGroups] lists that name.  And a listed
    group has a page, provided no config is filed under the literal
    name ["__ungrouped__"]. *)
Theorem listed_groups_have_a_page env refreshMode (w : World) allConfigs listed g :
  loadProviderConfigsFromDB (store w) = Normal allConfigs →
  groups w = Done listed w →
  g ≠ "" →
  (returned (load env g refreshMode w) ≠ Some None → g ∈ listed) ∧
  ((∀ c, c ∈ allConfigs → groupName c ≠ Some UNGROUPED_KEY) →
   g ∈ listed → returned (load env g refreshMode w) ≠ Some None).
Proof.
  intros Hconfigs Hlisted Hg.
  unfold getAvailableGroups, bind, of_store, ret in Hlisted.
  rewrite Hconfigs in Hlisted. injection Hlisted as <-.
  destruct (available_groups_spec allConfigs) as (_ & _ & Hin).
  rewrite (not_found_iff_empty env g refreshMode w allConfigs Hconfigs).
  rewrite Hin. split.
  - intros (c & Hc & Hgroup)%group_of_nonempty. unfold in_group in Hgroup.
    destruct (String.eqb g UNGROUPED_KEY) eqn:Eg.
    + apply String.eqb_eq in Eg. right. split; [done|]. exists c.
      split; [done|]. by destruct (truthy_name _).
    + left. exists c. destruct (groupName c) as [g'|]; [|done].
      apply String.eqb_eq in Hgroup. by subst g'.
  - intros Hnone Hcases. apply group_of_nonempty.
    destruct Hcases as [(c & Hc & Hgroup & _)|(-> & c & Hc & Hgroup)].
    + exists c. split; [done|]. unfold in_group.
      destruct (String.eqb g UNGROUPED_KEY) eqn:Eg.
      * apply String.eqb_eq in Eg. subst g. by destruct (Hnone c Hc).
      * rewrite Hgroup. apply String.eqb_refl.
    + exists c. split; [done|]. unfold in_group. by rewrite String.eqb_refl, Hgroup.
Qed.

(** X17.  The cache key of a group does not depend on the order in
    which the ids of its active configs are listed. *)
Theorem cache_key_ignores_order targetGroupName interval (allowedIds allowedIds' : list string) :
  allowedIds ≡ₚ allowedIds' →
  cache_key targetGroupName interval allowedIds
  = cache_key targetGroupName interval allowedIds'.
Proof.
  intros Hperm. unfold cache_key.
  destruct allowedIds as [|x l], allowedIds' as [|x' l']; try done.
  - by apply Permutation_nil_cons in Hperm.
  - symmetry in Hperm. by apply Permutation_nil_cons in Hperm.
  - do 6 f_equal.
    apply (StronglySorted_unique_strong (λ a b, compare_code_units a b ≤ 0)).
    + intros a b _ _. apply compare_code_units_antisym.
    + apply sort_ascending, compare_code_units_consistent.
    + apply sort_ascending, compare_code_units_consistent.
    + by rewrite !sort_Permutation.
Qed.
End GroupListing.

Section OnSampleGroups.
Import GroupData Sample.

(** X15, witness: the sample database has the one group ["main"]. *)
Lemma available_groups_are_listed_once_witness :
  ∃ listed, getAvailableGroups db_load_configs world_main = Done listed world_main ∧
    "main" ∈ listed.
Proof.
  destruct (available_groups_are_listed_once db_load_configs world_main) as [Hlisted _].
  destruct (Hlisted (db_configs db_main) eq_refl) as (listed & Hl & _ & _ & Hin).
  exists listed. split; [exact Hl|].
  apply Hin. left. exists config_a. split_and!; [|reflexivity|discriminate].
  apply (bool_decide_unpack _). vm_compute. reflexivity.
Defined.

(** X16, witness: the group ["main"] has a page, and is listed. *)
Lemma listed_groups_have_a_page_witness :
  "main" ∈ available_groups (db_configs db_main).
Proof.
  destruct (listed_groups_have_a_page Reference.runtime db_load_configs db_load_history
              db_append
              (Checks.runProviderChecks Reference.runtime) (env_at 100000 0) (Some never) world_main
              (db_configs db_main) (available_groups (db_configs db_main)) "main"
              eq_refl eq_refl) as [Hlisted _]; [discriminate|].
  apply Hlisted. vm_compute. discriminate.
Defined.

(** X17, witness: two ids in either order. *)
Lemma cache_key_ignores_order_witness :
  cache_key "main" 60000 ["g"; "a"] = cache_key "main" 60000 ["a"; "g"].
Proof. apply cache_key_ignores_order. apply Permutation_swap. Defined.
End OnSampleGroups.

(** ** The snapshot of a group *)

Section SnapshotFacts.
Context (rt : Runtime) {Store : Type}.
Context (loadProviderConfigsFromDB : Store → Completion (list ProviderConfig)).
Context (loadHistory : Store → Completion GroupData.HistorySnapshot).
Context (appendHistory :
  list CheckResult → Store → Completion GroupData.HistorySnapshot * Store).
Context (runProviderChecks :
  list ProviderConfig → (nat → Exchange) → list nat →
  option (Completion (list CheckResult))).
Import GroupData.

Local Abbreviation refresh := (refreshHistory loadHistory appendHistory runProviderChecks).
Local Abbreviation load :=
  (loadGroupDashboardData rt loadProviderConfigsFromDB loadHistory appendHistory
     runProviderChecks).

Lemma results_newest_first_consistent : consistent newest_first.
Proof. unfold newest_first. split; intros; lia. Qed.

(** A snapshot that is returned was assembled from the configs in
    maintenance of the group and from some history. *)
Lemma returned_snapshot env targetGroupName refreshMode (w : World) data :
  returned (load env targetGroupName refreshMode w) = Some (Some data) →
  ∃ allConfigs history,
    loadProviderConfigsFromDB (store w) = Normal allConfigs ∧
    data = assemble rt env targetGroupName
             (maintained (group_of targetGroupName allConfigs)) history.
Proof.
  destruct (loadProviderConfigsFromDB (store w)) as [allConfigs|e] eqn:Hconfigs.
  2: { by rewrite (loadGroupDashboardData_throws rt _ _ _ _ _ _ _ _ _ Hconfigs). }
  destruct (decide (group_of targetGroupName allConfigs = [])) as [Hempty|Hgroup].
  { by rewrite (loadGroupDashboardData_empty rt _ _ _ _ _ _ _ _ _ Hconfigs Hempty). }
  rewrite (loadGroupDashboardData_unfold rt _ _ _ _ _ _ _ _ _ Hconfigs Hgroup).
  cbv zeta. destruct (loadHistory (store w)); [|done].
  destruct (match default missing refreshMode with
            | always => _ | missing => _ | never => _ end) as [history' w'| |];
    [|done..].
  intros [= <-]. by exists allConfigs, history'.
Qed.

Lemma timeline_in_assemble env targetGroupName maintenanceConfigs history t :
  t ∈ providerTimelines (assemble rt env targetGroupName maintenanceConfigs history) →
  (∃ entry, entry ∈ history ∧ timeline_of env entry = Some t) ∨
  (∃ i c, maintenanceConfigs !! i = Some c ∧ t = maintenance_timeline env i c).
Proof.
  unfold assemble. cbn [providerTimelines].
  rewrite elem_of_sort, elem_of_app. intros [Ht|Ht].
  - left. apply list_elem_of_omap in Ht as (o & Ho & ->).
    apply list_elem_of_fmap in Ho as (entry & Ho & Hentry). by exists entry.
  - right. apply list_elem_of_lookup in Ht as (i & Hi).
    rewrite list_lookup_imap in Hi.
    destruct (maintenanceConfigs !! i) as [c|] eqn:Ec; [|done].
    exists i, c. by simplify_eq/=.
Qed.

(** X18.  In a snapshot that is returned, [lastUpdated] is the
    instant of the newest item of all timelines, and [null] exactly
    when no timeline has an item; [total] counts the timelines. *)
Theorem last_updated_is_the_newest_item env targetGroupName refreshMode (w : World) data :
  returned (load env targetGroupName refreshMode w) = Some (Some data) →
  total data = length (providerTimelines data) ∧
  match lastUpdated data with
  | None => ∀ t, t ∈ providerTimelines data → items t = []
  | Some instant =>
      (∃ t r, t ∈ providerTimelines data ∧ r ∈ items t ∧ checkedAt r = instant) ∧
      ∀ t r, t ∈ providerTimelines data → r ∈ items t → checkedAt r ≤ instant
  end.
Proof.
  intros (allConfigs & history & _ & ->)%returned_snapshot.
  unfold assemble. cbn [total lastUpdated providerTimelines].
  set (timelines := sort _ (_ ++ _)). split; [done|].
  pose proof (sort_ascending newest_first (timelines ≫= items)
                results_newest_first_consistent) as Hsorted.
  assert (∀ r, r ∈ sort newest_first (timelines ≫= items) ↔
               ∃ t, t ∈ timelines ∧ r ∈ items t) as Hin.
  { intros r. rewrite elem_of_sort, list_elem_of_bind.
    split; intros (t & ? & ?); by exists t. }
  destruct (sort newest_first (timelines ≫= items)) as [|r0 rest]; simpl.
  - intros t Ht. destruct (items t) as [|r l] eqn:E; [done|].
    assert (r ∈ @nil CheckResult) as H%elem_of_nil; [|done].
    apply Hin. exists t. rewrite E. split; [done|by left].
  - split.
    + destruct (proj1 (Hin r0)) as (t & Ht & Hr); [by left|]. by exists t, r0.
    + intros t r Ht Hr.
      assert (r ∈ r0 :: rest) as [->|Hrest]%elem_of_cons by (apply Hin; eauto); [done|].
      apply StronglySorted_inv in Hsorted as [_ Hall].
      rewrite Forall_forall in Hall. specialize (Hall r Hrest).
      unfold newest_first in Hall. lia.
Qed.

(** X19.  Every timeline of a snapshot lists its items newest first.
    With items, its [latest] is the first of them with the official
    status of its provider type attached, so no item is newer than
    [latest]; without items, [latest] has status maintenance. *)
Theorem timelines_are_newest_first env targetGroupName refreshMode (w : World) data t :
  returned (load env targetGroupName refreshMode w) = Some (Some data) →
  t ∈ providerTimelines data →
  ascending newest_first (items t) ∧
  (∀ r, r ∈ items t → checkedAt r ≤ checkedAt (latest t)) ∧
  match items t with
  | [] => status (latest t) = maintenance
  | first :: _ => latest t = with_official (getOfficialStatus env (r_type first)) first
  end.
Proof.
  intros (allConfigs & history & _ & ->)%returned_snapshot Ht.
  apply timeline_in_assemble in Ht as [(entry & _ & Ht)|(i & c & _ & ->)].
  - unfold timeline_of in Ht.
    pose proof (sort_ascending newest_first entry.2 results_newest_first_consistent)
      as Hsorted.
    destruct (sort newest_first entry.2) as [|first rest]; [done|].
    injection Ht as <-. cbn [items latest]. split_and!; [done| |done].
    intros r [->|Hr]%elem_of_cons.
    + by destruct (getOfficialStatus env (r_type first)).
    + apply StronglySorted_inv in Hsorted as [_ Hall].
      rewrite Forall_forall in Hall. specialize (Hall r Hr).
      unfold newest_first in Hall.
      destruct (getOfficialStatus env (r_type first)); simpl; lia.
  - destruct (maintenance_timeline_fields env i c) as (_ & Hitems & Hstatus & _).
    rewrite Hitems. split_and!; [constructor| |done].
    by intros r ?%elem_of_nil.
Qed.
End SnapshotFacts.

(** ** The cache entry across a refresh *)

Section RefreshFacts.
Context (rt : Runtime) {Store : Type}.
Context (loadProviderConfigsFromDB : Store → Completion (list ProviderConfig)).
Context (loadHistory : Store → Completion GroupData.HistorySnapshot).
Context (appendHistory :
  list CheckResult → Store → Completion GroupData.HistorySnapshot * Store).
Context (runProviderChecks :
  list ProviderConfig → (nat → Exchange) → list nat →
  option (Completion (list CheckResult))).
Import GroupData.

Local Abbreviation refresh := (refreshHistory loadHistory appendHistory runProviderChecks).
Local Abbreviation load :=
  (loadGroupDashboardData rt loadProviderConfigsFromDB loadHistory appendHistory
     runProviderChecks).

Ltac step_r :=
  unfold readFilteredHistory in *;
  unfold bind, ret, modify, of_store, new_promise, finally_,
    await_promise, run_checks, append_history, update_entry, with_cache in *;
  cbn [world_of returned store cache probed written next_promise] in *.

Lemma clear_set_inflight p e : inflight e = None → clear_inflight p (set_inflight p e) = e.
Proof.
  destruct e as [h l i]. simpl. intros ->. unfold clear_inflight, set_inflight. simpl.
  by rewrite bool_decide_true.
Qed.

Lemma clear_set_history p h now e :
  clear_inflight p (set_history h now (set_inflight p e))
  = {| history := Some h; lastPingAt := now; inflight := None |}.
Proof. unfold clear_inflight, set_history, set_inflight. simpl. by rewrite bool_decide_true. Qed.

(** What a refresh that starts a round does, by the way the round ends. *)
Lemma refreshHistory_started env cacheKey allowedIds activeConfigs (w : World) :
  refresh_path (bool_decide (allowedIds = [])) (pollIntervalMs env) (now_refresh env)
    (entry_of cacheKey (cache w)) = Started →
  let o := refresh env cacheKey allowedIds activeConfigs w in
  let e := entry_of cacheKey (cache w) in
  probed (world_of o) = probed w ++ [activeConfigs] ∧
  (∀ k, k ≠ cacheKey → entry_of k (cache (world_of o)) = entry_of k (cache w)) ∧
  match o with
  | Done h w' =>
      entry_of cacheKey (cache w')
      = {| history := Some h; lastPingAt := now_settled env; inflight := None |} ∧
      ∃ stored, h = filterHistory allowedIds stored
  | Thrown _ w' => entry_of cacheKey (cache w') = e
  | Pending w' => entry_of cacheKey (cache w') = set_inflight (next_promise w) e
  end.
Proof.
  intros Hpath. cbv zeta. unfold refreshHistory. rewrite Hpath.
  apply refresh_path_Started in Hpath as [Hnone _].
  step_r.
  destruct (runProviderChecks activeConfigs (network env) (order env))
    as [[results|err]|]; cbn.
  - destruct results as [|r results].
    + step_r. destruct (loadHistory (store w)) as [h|err]; cbn.
      * split; [done|split].
        -- intros k Hk. rewrite !entry_of_insert. by rewrite !decide_False by done.
        -- split; [|by eexists].
           rewrite !entry_of_insert, !decide_True by done. apply clear_set_history.
      * split; [done|split].
        -- intros k Hk. rewrite !entry_of_insert. by rewrite !decide_False by done.
        -- rewrite !entry_of_insert, !decide_True by done. by apply clear_set_inflight.
    + step_r. destruct (appendHistory (r :: results) (store w)) as [[h|err] store'];
        cbn.
      * split; [done|split].
        -- intros k Hk. rewrite !entry_of_insert. by rewrite !decide_False by done.
        -- split; [|by eexists].
           rewrite !entry_of_insert, !decide_True by done. apply clear_set_history.
      * split; [done|split].
        -- intros k Hk. rewrite !entry_of_insert. by rewrite !decide_False by done.
        -- rewrite !entry_of_insert, !decide_True by done. by apply clear_set_inflight.
  - split; [done|split].
    + intros k Hk. rewrite !entry_of_insert. by rewrite !decide_False by done.
    + rewrite !entry_of_insert, !decide_True by done. by apply clear_set_inflight.
  - split; [done|split].
    + intros k Hk. rewrite !entry_of_insert. by rewrite !decide_False by done.
    + by rewrite !entry_of_insert, !decide_True by done.
Qed.

(** A refresh that starts no round changes nothing. *)
Lemma refreshHistory_not_started env cacheKey allowedIds activeConfigs (w : World) :
  refresh_path (bool_decide (allowedIds = [])) (pollIntervalMs env) (now_refresh env)
    (entry_of cacheKey (cache w)) ≠ Started →
  world_of (refresh env cacheKey allowedIds activeConfigs w) = w ∧
  ∀ w', refresh env cacheKey allowedIds activeConfigs w ≠ Pending w'.
Proof.
  intros Hpath. unfold refreshHistory.
  destruct (refresh_path _ _ _ _); [done..| |done].
  unfold await_promise. by destruct (awaited env p).
Qed.

Lemma refreshHistory_started_promise env cacheKey allowedIds activeConfigs (w : World) :
  refresh_path (bool_decide (allowedIds = [])) (pollIntervalMs env) (now_refresh env)
    (entry_of cacheKey (cache w)) = Started →
  next_promise (world_of (refresh env cacheKey allowedIds activeConfigs w))
  = S (next_promise w).
Proof.
  intros Hpath. unfold refreshHistory. rewrite Hpath. step_r.
  destruct (runProviderChecks activeConfigs (network env) (order env))
    as [[results|err]|]; cbn; [|done..].
  destruct results as [|r results]; step_r.
  - by destruct (loadHistory (store w)).
  - by destruct (appendHistory (r :: results) (store w)) as [[h|err] store'].
Qed.

(** While the round that a call started is in flight, a later call for
    the key joins it. *)
Lemma refresh_path_joins nothing_allowed pollIntervalMs now now' p e :
  refresh_path nothing_allowed pollIntervalMs now e = Started → now ≤ now' →
  refresh_path false pollIntervalMs now' (set_inflight p e) = Joined p.
Proof.
  intros [_ Hstale]%refresh_path_Started Hnow. unfold refresh_path. simpl.
  destruct (history e) as [h|]; [|done].
  specialize (Hstale h eq_refl). by rewrite bool_decide_false by lia.
Qed.

Lemma refresh_path_same_entry nothing_allowed pollIntervalMs now
    (cache cache' : gmap string PingCacheEntry) cacheKey :
  same_entries cache cache' →
  refresh_path nothing_allowed pollIntervalMs now (entry_of cacheKey cache)
  = refresh_path nothing_allowed pollIntervalMs now (entry_of cacheKey cache').
Proof. by intros ->. Qed.

(** C3.  A call of [refreshHistory] for a key with configs to check,
    made in any state [s] that the interleaved calls of the process can
    reach ([w] is the world in that state), at a clock reading not
    before the last.  At most one round of checks is in flight for the
    key.  While one is in flight, the call awaits the promise of that
    round ([return cacheEntry.inflight]) and changes nothing: it starts
    no round.  When the entry holds a history whose [lastPingAt] is
    less than the poll interval before now, the call returns that
    history and changes nothing.  The call runs at most one round of
    checks, and only when none is in flight for the key; it is then the
    events of the process by which a round begins, ends and is cleared
    away, and the world it leaves, or in which it waits while its round
    has not settled, holds the entries of the state of the process after
    these events, the promise of the round in flight while it waits.
    While it waits, every later call for the key awaits that same
    promise and changes nothing, so however many calls are made, one
    round is run. *)
Theorem refresh_is_single_flight env s (w : World) cacheKey allowedIds activeConfigs :
  reachable (pollIntervalMs env) s →
  same_entries (cache w) (entries s) → next_promise w = rounds s →
  clock s ≤ now_refresh env → now_refresh env ≤ now_settled env →
  allowedIds ≠ [] →
  let o := refresh env cacheKey allowedIds activeConfigs w in
  let call := CallRefresh cacheKey false (now_refresh env) in
  let round := next_promise w in
  (length (in_flight cacheKey s) ≤ 1)%nat ∧
  (∀ p, p ∈ in_flight cacheKey s →
     world_of o = w ∧
     returned o = match awaited env p with Normal h => Some h | Throw _ => None end ∧
     ∃ s', step (pollIntervalMs env) call s = Some s' ∧
           running s' = running s ∧ rounds s' = rounds s) ∧
  (∀ h, history (entry_of cacheKey (cache w)) = Some h →
     now_refresh env - lastPingAt (entry_of cacheKey (cache w)) < pollIntervalMs env →
     o = Done h w ∧
     ∃ s', step (pollIntervalMs env) call s = Some s' ∧
           running s' = running s ∧ rounds s' = rounds s) ∧
  (world_of o = w ∨
   (probed (world_of o) = probed w ++ [activeConfigs] ∧
    in_flight cacheKey s = [] ∧
    ∃ evs s',
      run (pollIntervalMs env) (call :: evs) s = Some s' ∧
      same_entries (cache (world_of o)) (entries s') ∧
      next_promise (world_of o) = rounds s' ∧
      match o with
      | Pending _ => evs = [] ∧ in_flight cacheKey s' = [round]
      | Done h _ => evs = [Resolve round h (now_settled env); Finally round]
      | Thrown _ _ => evs = [Reject round; Finally round]
      end)) ∧
  (∀ w1 env' allowedIds' activeConfigs',
     o = Pending w1 →
     pollIntervalMs env' = pollIntervalMs env → now_refresh env ≤ now_refresh env' →
     allowedIds' ≠ [] →
     let o' := refresh env' cacheKey allowedIds' activeConfigs' w1 in
     probed w1 = probed w ++ [activeConfigs] ∧
     world_of o' = w1 ∧
     returned o' = match awaited env' round with Normal h => Some h | Throw _ => None end).
Proof.
  intros Hreach Hsame Hnext Hclock Hsettled Hids o call round.
  pose proof (reachable_coalesced _ _ Hreach) as Hs.
  assert (bool_decide (allowedIds = []) = false) as Hna by (by apply bool_decide_eq_false).
  pose proof (refresh_path_same_entry false (pollIntervalMs env) (now_refresh env)
                _ _ cacheKey Hsame) as Hpaths.
  split_and!.
  - by eapply in_flight_at_most_one.
  - intros p Hp%in_flight_open.
    assert (refresh_path false (pollIntervalMs env) (now_refresh env)
              (entry_of cacheKey (entries s)) = Joined p) as Hpath.
    { unfold refresh_path.
      rewrite (round_is_inflight _ s Hs p cacheKey) by (apply elem_of_app; by left).
      destruct (history (entry_of cacheKey (entries s))) as [h|] eqn:Hh; [|done].
      pose proof (round_not_fresh _ s Hs p cacheKey h Hp Hh).
      by rewrite bool_decide_false by lia. }
    split_and!.
    + subst o. unfold refreshHistory. rewrite Hna, Hpaths, Hpath.
      unfold await_promise. by destruct (awaited env p).
    + subst o. unfold refreshHistory. rewrite Hna, Hpaths, Hpath.
      unfold await_promise. by destruct (awaited env p).
    + subst call. unfold step. rewrite bool_decide_true by done. rewrite Hpath.
      by eexists.
  - intros h Hh Hfresh.
    assert (refresh_path false (pollIntervalMs env) (now_refresh env)
              (entry_of cacheKey (cache w)) = Cached h) as Hpath.
    { unfold refresh_path. rewrite Hh. by rewrite bool_decide_true. }
    split.
    + subst o. unfold refreshHistory. by rewrite Hna, Hpath.
    + subst call. unfold step. rewrite bool_decide_true by done.
      rewrite <- Hpaths, Hpath. by eexists.
  - assert (refresh_path false (pollIntervalMs env) (now_refresh env)
              (entry_of cacheKey (cache w)) = Started ∨
            refresh_path false (pollIntervalMs env) (now_refresh env)
              (entry_of cacheKey (cache w)) ≠ Started)
      as [Hpath|Hpath] by (destruct (refresh_path _ _ _ _); auto).
    2: { left. apply refreshHistory_not_started. by rewrite Hna. }
    right.
    destruct (refreshHistory_started env cacheKey allowedIds activeConfigs w)
      as (Hprobed & Hothers & Hentry); [by rewrite Hna|].
    pose proof (refreshHistory_started_promise env cacheKey allowedIds activeConfigs w)
      as Hpromise.
    rewrite Hna in Hpromise. specialize (Hpromise Hpath).
    fold o in Hprobed, Hothers, Hentry, Hpromise.
    pose proof Hpath as [Hnone Hstale]%refresh_path_Started.
    assert (∀ q, (q, cacheKey) ∉ open_rounds s) as Hfree.
    { intros q Hq. apply (round_is_inflight _ s Hs) in Hq. rewrite <- Hsame in Hq.
      congruence. }
    assert (in_flight cacheKey s = []) as Hidle.
    { apply elem_of_nil_inv. intros q Hq%in_flight_open.
      apply (Hfree q), elem_of_app. by left. }
    split; [done|]. split; [done|].
    set (s1 := {| entries := <[cacheKey := set_inflight (rounds s)
                                             (entry_of cacheKey (entries s))]> (entries s);
                  running := (rounds s, cacheKey) :: running s;
                  ended := ended s;
                  rounds := S (rounds s);
                  clock := now_refresh env |}).
    assert (step (pollIntervalMs env) call s = Some s1) as Hstep.
    { unfold step, call. rewrite bool_decide_true by done. by rewrite <- Hpaths, Hpath. }
    subst round. rewrite Hnext in *.
    destruct o as [h w'|err w'|w'] eqn:Ho; cbn [world_of] in *.
    + eexists _, _. split_and!; [| | |reflexivity].
      * cbn [run]. rewrite Hstep. simpl.
        rewrite bool_decide_true by done. rewrite bool_decide_true by done. simpl.
        rewrite bool_decide_true by done. simpl. reflexivity.
      * intros k. cbn [entries]. rewrite !entry_of_insert.
        destruct (decide (cacheKey = k)) as [<-|Hk].
        -- rewrite !decide_True by done. rewrite clear_set_history. apply Hentry.
        -- rewrite <- Hsame. by apply Hothers.
      * done.
    + eexists _, _. split_and!; [| | |reflexivity].
      * cbn [run]. rewrite Hstep. simpl.
        rewrite bool_decide_true by done. simpl.
        rewrite bool_decide_true by done. simpl. reflexivity.
      * intros k. cbn [entries]. rewrite !entry_of_insert.
        destruct (decide (cacheKey = k)) as [<-|Hk].
        -- rewrite !decide_True by done.
           rewrite clear_set_inflight by (by rewrite <- Hsame). rewrite <- Hsame. apply Hentry.
        -- rewrite <- Hsame. by apply Hothers.
      * done.
    + exists [], s1. split_and!.
      * cbn [run]. by rewrite Hstep.
      * intros k. cbn [entries s1]. rewrite !entry_of_insert.
        destruct (decide (cacheKey = k)) as [<-|Hk].
        -- by rewrite Hentry, Hsame.
        -- rewrite <- Hsame. by apply Hothers.
      * done.
      * done.
      * unfold in_flight in *. cbn [running s1]. rewrite filter_cons. simpl.
        rewrite decide_True by done. rewrite fmap_cons. simpl. by rewrite Hidle.
  - intros w1 env' allowedIds' activeConfigs' Ho Hpoll Hlater Hids' o'.
    assert (refresh_path false (pollIntervalMs env) (now_refresh env)
              (entry_of cacheKey (cache w)) = Started) as Hpath.
    { destruct (refresh_path false (pollIntervalMs env) (now_refresh env)
                  (entry_of cacheKey (cache w))) eqn:E; try done; exfalso;
        (destruct (refreshHistory_not_started env cacheKey allowedIds activeConfigs w)
           as [_ Hnp]; [by rewrite Hna, E|by apply (Hnp w1)]). }
    destruct (refreshHistory_started env cacheKey allowedIds activeConfigs w)
      as (Hprobed & _ & Hentry); [by rewrite Hna|].
    fold o in Hprobed, Hentry. rewrite Ho in Hprobed, Hentry. cbn [world_of] in Hprobed.
    split; [done|].
    assert (refresh_path (bool_decide (allowedIds' = [])) (pollIntervalMs env')
              (now_refresh env') (entry_of cacheKey (cache w1)) = Joined round) as Hjoin.
    { rewrite (bool_decide_eq_false_2 _ Hids'), Hentry, Hpoll.
      by eapply refresh_path_joins. }
    subst o'. unfold refreshHistory. rewrite Hjoin.
    unfold await_promise. by destruct (awaited env' round).
Qed.

(** X20.  A refresh touches the cache entry of its own key only.  When
    it throws, the entry is as it was before the call, so the next call
    tries again; when it returns the history of a round it ran, the
    entry holds that history, stamped with the instant read at the end
    of the round, and no promise in flight; when its round never
    settles, the entry keeps the promise of that round in flight. *)
Theorem refresh_restores_the_cache_entry env cacheKey allowedIds activeConfigs (w : World) :
  let o := refresh env cacheKey allowedIds activeConfigs w in
  (∀ k, k ≠ cacheKey → entry_of k (cache (world_of o)) = entry_of k (cache w)) ∧
  match o with
  | Thrown _ w' => entry_of cacheKey (cache w') = entry_of cacheKey (cache w)
  | Done h w' =>
      (w' = w ∨
       (probed w' = probed w ++ [activeConfigs] ∧
        entry_of cacheKey (cache w')
        = {| history := Some h; lastPingAt := now_settled env; inflight := None |}))
  | Pending w' =>
      inflight (entry_of cacheKey (cache w')) = Some (next_promise w)
  end.
Proof.
  cbv zeta.
  assert (refresh_path (bool_decide (allowedIds = [])) (pollIntervalMs env)
            (now_refresh env) (entry_of cacheKey (cache w)) = Started ∨
          refresh_path (bool_decide (allowedIds = [])) (pollIntervalMs env)
            (now_refresh env) (entry_of cacheKey (cache w)) ≠ Started)
    as [Hpath|Hpath] by (destruct (refresh_path _ _ _ _); auto).
  - destruct (refreshHistory_started env cacheKey allowedIds activeConfigs w Hpath)
      as (Hprobed & Hothers & Hentry).
    split; [done|].
    destruct (refresh env cacheKey allowedIds activeConfigs w) as [h w'|err w'|w'];
      cbn [world_of] in *.
    + right. split; [done|apply Hentry].
    + done.
    + by rewrite Hentry.
  - destruct (refreshHistory_not_started env cacheKey allowedIds activeConfigs w Hpath)
      as [Hw Hnp].
    split; [by rewrite Hw|].
    destruct (refresh env cacheKey allowedIds activeConfigs w) as [h w'|err w'|w'];
      cbn [world_of] in *.
    + by left.
    + by rewrite Hw.
    + by destruct (Hnp w').
Qed.

(** X21.  After a refresh has run a round and returned its history,
    every refresh of the same key that reads the clock within the poll
    interval of the end of that round returns the same history at once,
    without a round of checks and without a change of state. *)
Theorem fresh_history_is_served_from_the_cache
    env env' cacheKey allowedIds activeConfigs activeConfigs' (w w' : World) h :
  refresh env cacheKey allowedIds activeConfigs w = Done h w' →
  probed w' ≠ probed w →
  allowedIds ≠ [] →
  now_refresh env' - now_settled env < pollIntervalMs env' →
  refresh env' cacheKey allowedIds activeConfigs' w' = Done h w'.
Proof.
  intros Hdone Hran Hids Hfresh.
  assert (refresh_path (bool_decide (allowedIds = [])) (pollIntervalMs env)
            (now_refresh env) (entry_of cacheKey (cache w)) = Started ∨
          refresh_path (bool_decide (allowedIds = [])) (pollIntervalMs env)
            (now_refresh env) (entry_of cacheKey (cache w)) ≠ Started)
    as [Hpath|Hpath] by (destruct (refresh_path _ _ _ _); auto).
  2: { destruct (refreshHistory_not_started env cacheKey allowedIds activeConfigs w Hpath)
         as [Hw _].
       rewrite Hdone in Hw. cbn [world_of] in Hw. by subst w'. }
  pose proof (refreshHistory_started env cacheKey allowedIds activeConfigs w Hpath)
    as Hstarted.
  cbv zeta in Hstarted. rewrite Hdone in Hstarted.
  destruct Hstarted as (_ & _ & Hentry & _).
  unfold refreshHistory, refresh_path. rewrite Hentry. cbn [history lastPingAt].
  rewrite bool_decide_false by done. by rewrite bool_decide_true.
Qed.
Lemma filterHistory_within allowedIds stored entry :
  entry ∈ filterHistory allowedIds stored → entry.1 ∈ allowedIds.
Proof.
  unfold filterHistory. destruct allowedIds as [|x l]; [by intros ?%elem_of_nil|].
  by intros [? _]%list_elem_of_filter.
Qed.

(** The call when the stored history can be read, by the history it
    goes on with. *)
Lemma loadGroupDashboardData_history env targetGroupName refreshMode (w : World)
    allConfigs data :
  loadProviderConfigsFromDB (store w) = Normal allConfigs →
  returned (load env targetGroupName refreshMode w) = Some (Some data) →
  let groupConfigs := group_of targetGroupName allConfigs in
  let allowedIds := remove_dups (id <$> active groupConfigs) in
  let cacheKey := cache_key targetGroupName (pollIntervalMs env) allowedIds in
  let w1 := with_cache (getPingCacheEntry cacheKey) w in
  ∃ stored history,
    loadHistory (store w) = Normal stored ∧
    data = assemble rt env targetGroupName (maintained groupConfigs) history ∧
    (history = filterHistory allowedIds stored ∨
     (refreshMode ≠ Some never ∧
      ∃ w', refresh env cacheKey allowedIds (active groupConfigs) w1 = Done history w')).
Proof.
  intros Hconfigs Hret. cbv zeta.
  destruct (decide (group_of targetGroupName allConfigs = [])) as [Hempty|Hgroup].
  { by rewrite (loadGroupDashboardData_empty rt _ _ _ _ _ _ _ _ _ Hconfigs Hempty) in Hret. }
  rewrite (loadGroupDashboardData_unfold rt _ _ _ _ _ _ _ _ _ Hconfigs Hgroup) in Hret.
  cbv zeta in Hret. destruct (loadHistory (store w)) as [stored|]; [|done].
  exists stored.
  destruct refreshMode as [[| |]|]; cbn [default] in Hret.
  - destruct (refresh _ _ _ _ _) as [h w'| |] eqn:Hr; [|done..].
    injection Hret as <-. exists h. split_and!; [done..|]. right. split; [done|by exists w'].
  - destruct (remove_dups _) as [|i ids] eqn:Hids.
    { injection Hret as <-. eexists. split_and!; [done..|]. by left. }
    destruct (filterHistory (i :: ids) stored) as [|entry rest] eqn:Hh.
    + destruct (refresh _ _ _ _ _) as [h w'| |] eqn:Hr; [|done..].
      injection Hret as <-. exists h. split_and!; [done..|].
      right. split; [done|by exists w'].
    + injection Hret as <-. eexists. split_and!; [done..|]. by left.
  - injection Hret as <-. eexists. split_and!; [done..|]. by left.
  - destruct (remove_dups _) as [|i ids] eqn:Hids.
    { injection Hret as <-. eexists. split_and!; [done..|]. by left. }
    destruct (filterHistory (i :: ids) stored) as [|entry rest] eqn:Hh.
    + destruct (refresh _ _ _ _ _) as [h w'| |] eqn:Hr; [|done..].
      injection Hret as <-. exists h. split_and!; [done..|].
      right. split; [done|by exists w'].
    + injection Hret as <-. eexists. split_and!; [done..|]. by left.
Qed.

(** X22.  With [refreshMode] ["never"], and in every mode when the
    process has nothing cached yet, a snapshot shows only the configs
    of its group: a timeline with items stands for an active config of
    the group, a timeline without items for a config of the group in
    maintenance. *)
Theorem a_group_shows_its_own_configs env targetGroupName refreshMode (w : World)
    allConfigs data t :
  loadProviderConfigsFromDB (store w) = Normal allConfigs →
  returned (load env targetGroupName refreshMode w) = Some (Some data) →
  refreshMode = Some never ∨ cache w = ∅ →
  t ∈ providerTimelines data →
  match items t with
  | [] => ∃ c, c ∈ maintained (group_of targetGroupName allConfigs) ∧ t_id t = id c
  | _ :: _ => ∃ c, c ∈ active (group_of targetGroupName allConfigs) ∧ t_id t = id c
  end.
Proof.
  intros Hconfigs Hret Hcold Ht.
  destruct (loadGroupDashboardData_history env targetGroupName refreshMode w allConfigs
              data Hconfigs Hret) as (stored & history & _ & -> & Hhistory).
  set (allowedIds := remove_dups (id <$> active (group_of targetGroupName allConfigs)))
    in *.
  assert (∀ entry, entry ∈ history → entry.1 ∈ allowedIds) as Hwithin.
  { destruct Hhistory as [->|[Hmode (w' & Hrefresh)]].
    { intros entry. apply filterHistory_within. }
    destruct Hcold as [->|Hcold]; [done|].
    set (cacheKey := cache_key _ _ _) in *.
    set (w1 := with_cache _ w) in *.
    assert (entry_of cacheKey (cache w1) = new_entry) as Hentry.
    { subst w1. cbn [cache with_cache]. rewrite Hcold.
      unfold getPingCacheEntry. rewrite lookup_empty.
      unfold entry_of. by rewrite lookup_insert_eq. }
    destruct allowedIds as [|i ids] eqn:Hids.
    { unfold refreshHistory, refresh_path in Hrefresh.
      rewrite bool_decide_true in Hrefresh by done.
      injection Hrefresh as <- _. by intros entry ?%elem_of_nil. }
    pose proof (refreshHistory_started env cacheKey (i :: ids)
                  (active (group_of targetGroupName allConfigs)) w1) as Hstarted.
    rewrite Hentry in Hstarted. unfold refresh_path at 1 in Hstarted.
    rewrite bool_decide_false in Hstarted by done.
    specialize (Hstarted eq_refl). cbv zeta in Hstarted.
    rewrite Hrefresh in Hstarted.
    destruct Hstarted as (_ & _ & _ & stored' & ->).
    intros entry. apply filterHistory_within. }
  apply timeline_in_assemble in Ht as [(entry & Hentry & Ht)|(i & c & Hc & ->)].
  - unfold timeline_of in Ht.
    destruct (sort newest_first entry.2) as [|first rest]; [done|].
    injection Ht as <-. cbn [items t_id].
    specialize (Hwithin entry Hentry). subst allowedIds.
    apply elem_of_remove_dups, list_elem_of_fmap in Hwithin as (c & Hid & Hc).
    by exists c.
  - cbn [items maintenance_timeline t_id]. exists c. split; [|done].
    by eapply list_elem_of_lookup_2.
Qed.

(** X23.  In the default mode (["missing"]) a call serves the stored
    history of the active configs of its group, without a round of
    checks and without writing, when that history is not empty or the
    group has no active config; when it is empty, the group has an
    active config and the cache entry of the group is new, the call
    runs one round of checks, over the active configs of the group. *)
Theorem default_mode_probes_only_without_history env targetGroupName refreshMode
    (w : World) allConfigs stored :
  default missing refreshMode = missing →
  loadProviderConfigsFromDB (store w) = Normal allConfigs →
  group_of targetGroupName allConfigs ≠ [] →
  loadHistory (store w) = Normal stored →
  let groupConfigs := group_of targetGroupName allConfigs in
  let allowedIds := remove_dups (id <$> active groupConfigs) in
  let cacheKey := cache_key targetGroupName (pollIntervalMs env) allowedIds in
  let o := load env targetGroupName refreshMode w in
  (allowedIds = [] ∨ filterHistory allowedIds stored ≠ [] →
   returned o = Some (Some (assemble rt env targetGroupName (maintained groupConfigs)
                              (filterHistory allowedIds stored))) ∧
   probed (world_of o) = probed w ∧ written (world_of o) = written w ∧
   store (world_of o) = store w) ∧
  (allowedIds ≠ [] → filterHistory allowedIds stored = [] →
   entry_of cacheKey (cache w) = new_entry →
   probed (world_of o) = probed w ++ [active groupConfigs]).
Proof.
  intros Hmode Hconfigs Hgroup Hstored. cbv zeta.
  rewrite (loadGroupDashboardData_unfold rt _ _ _ _ _ _ _ _ _ Hconfigs Hgroup).
  cbv zeta. rewrite Hstored, Hmode.
  set (allowedIds := remove_dups _). set (cacheKey := cache_key _ _ _).
  split.
  - intros Hserved. destruct allowedIds as [|i ids]; [done|].
    destruct (filterHistory (i :: ids) stored) as [|entry rest]; [|done].
    by destruct Hserved.
  - intros Hids Hnone Hentry. destruct allowedIds as [|i ids] eqn:Ei; [done|].
    rewrite Hnone.
    set (w1 := with_cache _ w).
    pose proof (refreshHistory_started env cacheKey (i :: ids)
                  (active (group_of targetGroupName allConfigs)) w1) as Hstarted.
    assert (entry_of cacheKey (cache w1) = new_entry) as Hentry1.
    { subst w1. cbn [cache with_cache]. by rewrite entry_of_getPingCacheEntry. }
    rewrite Hentry1 in Hstarted. unfold refresh_path at 1 in Hstarted.
    rewrite bool_decide_false in Hstarted by done.
    destruct (Hstarted eq_refl) as (Hprobed & _).
    by destruct (refresh env cacheKey (i :: ids) _ w1).
Qed.
End RefreshFacts.

Section OnSampleCache.
Import GroupData Sample.

Local Abbreviation refresh_main env :=
  (refreshHistory db_load_history db_append
     (Checks.runProviderChecks Reference.runtime) env "group:main"
     ["g"; "a"] [config_g; config_a]).
Local Abbreviation first_refresh := (refresh_main (env_at 100000 0) world_main).

Local Abbreviation refresh_k env :=
  (refreshHistory db_load_history db_append
     (Checks.runProviderChecks Reference.runtime) env "k"
     ["g"; "a"] [config_g; config_a]).

(** C3, witness: while the round of the first call is in flight, a
    second call at a later instant joins it and changes nothing; and a
    call that begins a round on an empty cache waits for it, with one
    round of checks logged, while a later call changes nothing. *)
Lemma refresh_is_single_flight_witness :
  (length (in_flight "k" process_busy) ≤ 1)%nat ∧
  world_of (refresh_k (env_at 2000 0) world_busy) = world_busy ∧
  ∃ w1, refresh_k (env_waiting 1000) world_main = Pending w1 ∧
        probed w1 = [[config_g; config_a]] ∧
        world_of (refresh_k (env_at 2000 0) w1) = w1.
Proof.
  destruct (refresh_is_single_flight db_load_history db_append
              (Checks.runProviderChecks Reference.runtime)
              (env_at 2000 0) process_busy world_busy "k" ["g"; "a"]
              [config_g; config_a]) as (Hone & Hjoin & _).
  { exists [CallRefresh "k" false 1000]. vm_compute. reflexivity. }
  { intros k. reflexivity. }
  { reflexivity. }
  { vm_compute. discriminate. }
  { vm_compute. discriminate. }
  { discriminate. }
  destruct (refresh_is_single_flight db_load_history db_append
              (Checks.runProviderChecks Reference.runtime)
              (env_waiting 1000) started_process world_main "k" ["g"; "a"]
              [config_g; config_a]) as (_ & _ & _ & _ & Hlater).
  { exists []. reflexivity. }
  { intros k. reflexivity. }
  { reflexivity. }
  { vm_compute. discriminate. }
  { vm_compute. discriminate. }
  { discriminate. }
  split; [exact Hone|]. split.
  - apply (Hjoin 0%nat). apply (bool_decide_unpack _). vm_compute. exact I.
  - assert (∃ w1, refresh_k (env_waiting 1000) world_main = Pending w1) as [w1 Hw1].
    { eexists. vm_compute. reflexivity. }
    destruct (Hlater w1 (env_at 2000 0) ["g"; "a"] [config_g; config_a] Hw1)
      as (Hprobed & Hworld & _).
    + reflexivity.
    + vm_compute. discriminate.
    + discriminate.
    + exists w1. split; [exact Hw1|]. split; [exact Hprobed|exact Hworld].
Defined.

(** X20, witness: a first refresh leaves the entries of other keys alone. *)
Lemma refresh_restores_the_cache_entry_witness :
  entry_of "group:other" (cache (world_of first_refresh))
  = entry_of "group:other" (cache world_main).
Proof.
  destruct (refresh_restores_the_cache_entry db_load_history db_append
              (Checks.runProviderChecks Reference.runtime)
              (env_at 100000 0) "group:main" ["g"; "a"] [config_g; config_a] world_main)
    as [Hothers _].
  apply Hothers. discriminate.
Defined.

(** X21, witness: a second refresh, 30 seconds after the first. *)
Lemma fresh_history_is_served_from_the_cache_witness :
  refresh_main (env_at 130000 0) (world_of first_refresh)
  = Done (default [] (returned first_refresh)) (world_of first_refresh).
Proof.
  apply (fresh_history_is_served_from_the_cache db_load_history db_append
              (Checks.runProviderChecks Reference.runtime) (env_at 100000 0) (env_at 130000 0) "group:main" ["g"; "a"]
           [config_g; config_a] [config_g; config_a] world_main).
  - vm_compute. reflexivity.
  - vm_compute. discriminate.
  - discriminate.
  - simpl. lia.
Defined.
End OnSampleCache.

Section OnSampleSnapshots.
Import GroupData Sample.

(** X22, witness: the timeline of the sample config in maintenance. *)
Lemma a_group_shows_its_own_configs_witness :
  ∃ c, c ∈ maintained (group_of "main" (db_configs db_main)) ∧ "b" = id c.
Proof.
  apply (a_group_shows_its_own_configs Reference.runtime db_load_configs db_load_history
           db_append
              (Checks.runProviderChecks Reference.runtime) (env_at 100000 0) "main" (Some never) world_main
           (db_configs db_main)
           (assemble Reference.runtime (env_at 100000 0) "main" [config_b] [])
           (maintenance_timeline (env_at 100000 0) 0 config_b)).
  - reflexivity.
  - vm_compute. reflexivity.
  - by left.
  - vm_compute. left.
Defined.

(** X23, witness: the first call for the sample group, whose history
    is empty, probes its two active configs. *)
Lemma default_mode_probes_only_without_history_witness :
  probed (world_of (loadGroupDashboardData Reference.runtime db_load_configs
                      db_load_history db_append
                      (Checks.runProviderChecks Reference.runtime)
                      (env_at 100000 0) "main" None
                      world_main))
  = [[config_g; config_a]].
Proof.
  pose proof (default_mode_probes_only_without_history Reference.runtime
                db_load_configs db_load_history db_append
              (Checks.runProviderChecks Reference.runtime) (env_at 100000 0) "main"
                None world_main (db_configs db_main) [] eq_refl eq_refl) as H.
  destruct H as [_ H]; [vm_compute; discriminate|reflexivity|].
  apply H; [vm_compute; discriminate|reflexivity|reflexivity].
Defined.
End OnSampleSnapshots.

Section OnSampleHistory.
Import GroupData Sample.

Local Abbreviation world_later :=
  (world_of (load_main (env_at 100000 0) always world_main)).
Local Abbreviation data_later :=
  (assemble Reference.runtime (env_at 200000 0) "main" [config_b]
     (filterHistory ["g"; "a"] (db_history (store world_later)))).
Local Abbreviation first_timeline :=
  (default (maintenance_timeline (env_at 200000 0) 0 config_b)
     (head (providerTimelines data_later))).

Lemma data_later_returned :
  returned (load_main (env_at 200000 0) never world_later) = Some (Some data_later).
Proof. vm_compute. reflexivity. Qed.

(** X18, witness: after one round of checks stamped at instant 1000,
    the newest item of the snapshot is of that instant. *)
Lemma last_updated_is_the_newest_item_witness :
  ∃ t r, t ∈ providerTimelines data_later ∧ r ∈ items t ∧ checkedAt r = 1000.
Proof.
  exact (proj1 (proj2 (last_updated_is_the_newest_item Reference.runtime
                         db_load_configs db_load_history db_append
              (Checks.runProviderChecks Reference.runtime)
                         (env_at 200000 0) "main" (Some never) world_later
                         data_later data_later_returned))).
Defined.

(** X19, witness: the first timeline of that snapshot. *)
Lemma timelines_are_newest_first_witness :
  ascending newest_first (items first_timeline).
Proof.
  refine (proj1 (timelines_are_newest_first Reference.runtime db_load_configs
                   db_load_history db_append
              (Checks.runProviderChecks Reference.runtime) (env_at 200000 0) "main"
                   (Some never) world_later data_later first_timeline
                   data_later_returned _)).
  vm_compute. left.
Defined.
End OnSampleHistory.

(** ** Pruning and reading the history table together *)

Section SortFilter.
Context {A : Type} (cmp : A → A → Z) (P : A → Prop) `{∀ x, Decision (P x)}.

Lemma insert_sorted_first x (l : list A) :
  Forall (λ z, cmp x z ≤ 0) l → insert_sorted cmp x l = x :: l.
Proof.
  destruct l as [|y l]; [done|]. intros [Hy _]%Forall_cons. simpl.
  by rewrite bool_decide_true.
Qed.

Lemma insert_sorted_filter x (l : list A) :
  consistent cmp → ascending cmp l → P x →
  filter P (insert_sorted cmp x l) = insert_sorted cmp x (filter P l).
Proof.
  intros [Htot Htrans] Hl Hx. induction Hl as [|y l Hl IH Hy]; simpl.
  - by rewrite filter_cons, decide_True.
  - case_bool_decide as Hxy.
    + rewrite filter_cons, decide_True by done.
      rewrite insert_sorted_first; [done|].
      apply Forall_forall. intros z Hz%list_elem_of_filter.
      destruct Hz as [_ [->|Hz]%elem_of_cons]; [done|].
      rewrite Forall_forall in Hy. eapply Htrans; [exact Hxy|by apply Hy].
    + rewrite !(filter_cons _ y). destruct (decide (P y)); [|exact IH].
      simpl. rewrite bool_decide_false by done. by rewrite IH.
Qed.

Lemma sort_filter (l : list A) :
  consistent cmp → sort cmp (filter P l) = filter P (sort cmp l).
Proof.
  intros Hc. induction l as [|x l IH]; [done|].
  rewrite filter_cons. destruct (decide (P x)) as [Hx|Hx]; simpl.
  - rewrite insert_sorted_filter, IH; [done..| |done]. by apply sort_ascending.
  - rewrite IH. clear IH. generalize (sort cmp l). intros s.
    induction s as [|y s IH]; simpl.
    + by rewrite filter_cons, decide_False.
    + case_bool_decide.
      * by rewrite (filter_cons _ x), decide_False.
      * rewrite !(filter_cons _ y). destruct (decide (P y)); by rewrite IH.
Qed.
End SortFilter.

Section PruneFacts.
Import HistorySql.
Implicit Types (rows : list HistoryRow) (r : HistoryRow) (c : string).

Lemma prune_as_filter (limit_per_config : Z) rows :
  NoDup (history_id <$> rows) →
  prune_check_history limit_per_config rows
  = filter (λ r, r ∈ take (Z.to_nat limit_per_config)
                       (sort newest_first (of_config (config_id r) rows))) rows.
Proof.
  intros Hnd. unfold prune_check_history. apply filter_ext_elem_of.
  intros r Hr. by apply kept_iff_among_newest.
Qed.

Lemma prune_NoDup (limit_per_config : Z) rows :
  NoDup (history_id <$> rows) →
  NoDup (history_id <$> prune_check_history limit_per_config rows).
Proof.
  intros Hnd. eapply sublist_NoDup; [exact Hnd|].
  apply fmap_sublist. unfold prune_check_history. apply sublist_filter.
Qed.

Lemma sort_of_config_prune c (limit_per_config : Z) rows :
  NoDup (history_id <$> rows) →
  sort newest_first (of_config c (prune_check_history limit_per_config rows))
  = take (Z.to_nat limit_per_config) (sort newest_first (of_config c rows)).
Proof.
  intros Hnd.
  assert (of_config c (prune_check_history limit_per_config rows)
          = filter (λ r, r ∈ take (Z.to_nat limit_per_config)
                               (sort newest_first (of_config c rows)))
              (of_config c rows)) as ->.
  { rewrite prune_as_filter by done. unfold of_config. rewrite !list_filter_filter.
    apply filter_ext_elem_of. intros r _. simpl. split.
    - intros [<- ?]. done.
    - intros [? <-]. done. }
  rewrite sort_filter by apply newest_first_consistent.
  apply filter_elem_of_take. rewrite sort_Permutation. by apply of_config_NoDup.
Qed.

Lemma ascending_unique {A} (cmp : A → A → Z) (l1 l2 : list A) :
  ascending cmp l1 → ascending cmp l2 → l1 ≡ₚ l2 →
  (∀ x y, x ∈ l1 → y ∈ l1 → cmp x y ≤ 0 → cmp y x ≤ 0 → x = y) → l1 = l2.
Proof.
  unfold ascending. intros H1. revert l2.
  induction H1 as [|x l1 H1 IH Hx]; intros l2 H2 Hp Hanti.
  - by apply Permutation_nil_l in Hp.
  - destruct H2 as [|y l2 H2 Hy]; [by apply Permutation_nil_r in Hp|].
    rewrite Forall_forall in Hx, Hy.
    assert (x = y) as <-.
    { assert (x ∈ y :: l2) as Hin by (rewrite <- Hp; by left).
      assert (y ∈ x :: l1) as Hin' by (rewrite Hp; by left).
      apply elem_of_cons in Hin as [?|Hin]; [done|].
      apply elem_of_cons in Hin' as [?|Hin']; [done|].
      apply Hanti; [by left|by right|by apply Hx|by apply Hy]. }
    f_equal. apply IH; [done|by apply Permutation_cons_inv in Hp|].
    intros a b Ha Hb. apply Hanti; by right.
Qed.

Lemma untied_same_row rows r r' :
  untied rows → r ∈ rows → r' ∈ rows →
  config_id r = config_id r' → checked_at r = checked_at r' → r = r'.
Proof.
  intros Hnd (i & Hi)%list_elem_of_lookup (j & Hj)%list_elem_of_lookup Hc Ht.
  assert (i = j) as ->; [|congruence].
  eapply (NoDup_lookup _ _ _ (config_id r, checked_at r) Hnd); rewrite list_lookup_fmap.
  - by rewrite Hi.
  - by rewrite Hj, Hc, Ht.
Qed.

Lemma untied_Permutation rows rows' : rows' ≡ₚ rows → untied rows → untied rows'.
Proof. unfold untied. by intros ->. Qed.

Lemma untied_prune (limit_per_config : Z) rows :
  untied rows → untied (prune_check_history limit_per_config rows).
Proof.
  intros Hnd. eapply sublist_NoDup; [exact Hnd|].
  apply fmap_sublist. unfold prune_check_history. apply sublist_filter.
Qed.

(** Without ties the order of the rows in the table has no part in the
    ranking. *)
Lemma sort_of_config_Permutation c rows rows' :
  untied rows → rows' ≡ₚ rows →
  sort newest_first (of_config c rows') = sort newest_first (of_config c rows).
Proof.
  intros Hnd Hp. apply (ascending_unique newest_first).
  - apply sort_ascending, newest_first_consistent.
  - apply sort_ascending, newest_first_consistent.
  - rewrite !sort_Permutation. unfold of_config. by rewrite Hp.
  - intros x y [Hx Hx']%elem_of_sort%elem_of_of_config
               [Hy Hy']%elem_of_sort%elem_of_of_config.
    unfold newest_first. intros H1 H2.
    apply (untied_same_row rows'); [by eapply untied_Permutation|done|done|congruence|lia].
Qed.

Lemma prune_Permutation (limit_per_config : Z) rows rows' :
  NoDup (history_id <$> rows) → untied rows → rows' ≡ₚ rows →
  prune_check_history limit_per_config rows'
  ≡ₚ prune_check_history limit_per_config rows.
Proof.
  intros Hnd Hun Hp.
  rewrite (prune_as_filter _ rows') by (by rewrite Hp).
  rewrite (prune_as_filter _ rows) by done.
  rewrite <- Hp. apply reflexive_eq, filter_ext_elem_of.
  intros r _. by rewrite (sort_of_config_Permutation _ rows rows').
Qed.

(** X24.  Over a table whose row ids are distinct: a limit of zero or
    less empties the table, and a limit that no config exceeds deletes
    nothing.  When moreover no two rows of a config have the same
    [checked_at], so that the ranking has no tie to break: pruning does
    not depend on the order in which the table holds its rows; and
    pruning to one limit and then to another leaves what pruning to the
    smaller limit leaves, also when the table is held in another order
    for the second pruning, so pruning twice to the same limit changes
    nothing more. *)
Theorem pruning_composes rows :
  NoDup (history_id <$> rows) →
  (∀ n : Z, n ≤ 0 → prune_check_history n rows = []) ∧
  (∀ n : Z, (∀ c, Z.of_nat (length (of_config c rows)) ≤ n) →
            prune_check_history n rows = rows) ∧
  (untied rows →
   (∀ (n : Z) rows', rows' ≡ₚ rows →
      prune_check_history n rows' ≡ₚ prune_check_history n rows) ∧
   (∀ m n : Z, prune_check_history m (prune_check_history n rows)
               = prune_check_history (Z.min m n) rows) ∧
   (∀ (m n : Z) pruned, pruned ≡ₚ prune_check_history n rows →
      prune_check_history m pruned ≡ₚ prune_check_history (Z.min m n) rows)).
Proof.
  intros Hnd.
  assert (∀ m n : Z, prune_check_history m (prune_check_history n rows)
                     = prune_check_history (Z.min m n) rows) as Hcomposed.
  { intros m n.
    rewrite (prune_as_filter m) by (by apply prune_NoDup).
    rewrite (prune_as_filter n rows), (prune_as_filter (Z.min m n) rows) by done.
    rewrite list_filter_filter. apply filter_ext_elem_of. intros r _. simpl.
    rewrite <- (prune_as_filter n rows) by done.
    rewrite sort_of_config_prune by done.
    rewrite take_take, Z2Nat.inj_min. split; [tauto|].
    intros Hr. split; [done|].
    apply elem_of_take in Hr as (i & Hi & Hlt). apply elem_of_take. exists i.
    split; [done|lia]. }
  split_and!.
  - intros n Hn. rewrite prune_as_filter by done. apply filter_none.
    intros r _. replace (Z.to_nat n) with 0%nat by lia. by intros ?%elem_of_nil.
  - intros n Hn. rewrite prune_as_filter by done. apply filter_all.
    intros r Hr. rewrite take_ge.
    + apply elem_of_sort, elem_of_of_config. done.
    + rewrite length_sort. specialize (Hn (config_id r)). lia.
  - intros Hun. split_and!.
    + intros n rows' Hp. by apply prune_Permutation.
    + exact Hcomposed.
    + intros m n pruned Hp. rewrite <- Hcomposed.
      apply prune_Permutation; [by apply prune_NoDup|by apply untied_prune|done].
Qed.

Lemma permutation_by_key {A K} `{EqDecision K} (key : A → K) (l1 l2 : list A) :
  (∀ k, filter (λ x, key x = k) l1 ≡ₚ filter (λ x, key x = k) l2) → l1 ≡ₚ l2.
Proof.
  revert l2. induction l1 as [|x l1 IH]; intros l2 Hk.
  - destruct l2 as [|y l2]; [done|]. specialize (Hk (key y)).
    rewrite filter_nil, filter_cons, decide_True in Hk by done.
    by apply Permutation_nil_cons in Hk.
  - assert (x ∈ l2) as Hx.
    { specialize (Hk (key x)). rewrite filter_cons, decide_True in Hk by done.
      assert (x ∈ filter (λ y, key y = key x) l2) as Hin by (rewrite <- Hk; by left).
      by apply list_elem_of_filter in Hin as [_ ?]. }
    apply elem_of_Permutation in Hx as (l2' & Hl2). rewrite Hl2. f_equiv.
    apply IH. intros k. specialize (Hk k). rewrite Hl2 in Hk.
    rewrite !(filter_cons _ x) in Hk. destruct (decide (key x = k)); [|done].
    by apply Permutation_cons_inv in Hk.
Qed.

Lemma of_config_targeted c target_config_ids rows :
  of_config c (filter (λ h, targeted target_config_ids h = true) rows)
  = if match target_config_ids with
       | None => true
       | Some ids => bool_decide (c ∈ ids)
       end
    then of_config c rows else [].
Proof.
  unfold of_config. rewrite list_filter_filter.
  destruct (match target_config_ids with
            | None => true | Some ids => bool_decide (c ∈ ids) end) eqn:Ht.
  - apply filter_ext_elem_of. intros r _. simpl. split; [tauto|].
    intros <-. split; [done|]. unfold targeted. by destruct target_config_ids.
  - apply filter_none. intros r _ [<- Hr]. unfold targeted in Hr.
    destruct target_config_ids; congruence.
Qed.

(** X25.  Over a table whose row ids are distinct and in which no two
    rows of a config have the same [checked_at], pruning the table to a
    limit does not change the rows that [get_recent_check_history]
    returns for an equal or smaller limit: it returns the same rows,
    whatever the target configs, and whatever the order in which the
    table holds its rows when it is pruned. *)
Theorem reading_ignores_pruning collate (limit_per_config pruned_to : Z)
    target_config_ids rows rows' check_configs :
  NoDup (history_id <$> rows) → untied rows → rows' ≡ₚ rows →
  limit_per_config ≤ pruned_to →
  get_recent_check_history collate limit_per_config target_config_ids
    (prune_check_history pruned_to rows') check_configs
  ≡ₚ get_recent_check_history collate limit_per_config target_config_ids
       rows check_configs.
Proof.
  intros Hnd Hun Hp Hle. apply (permutation_by_key o_config_id). intros c.
  rewrite !recent_of_config, !of_config_targeted.
  destruct (match target_config_ids with
            | None => true | Some ids => bool_decide (c ∈ ids) end); [|done].
  rewrite sort_of_config_prune by (by rewrite Hp).
  rewrite (sort_of_config_Permutation c rows rows') by done.
  rewrite take_take. by replace (Z.to_nat limit_per_config `min` Z.to_nat pruned_to)%nat
    with (Z.to_nat limit_per_config) by lia.
Qed.
End PruneFacts.

Section OnSampleTable.
Import HistorySql Sample.

(** X24, witness: four rows pruned to two, then to one, per config. *)
Lemma pruning_composes_witness :
  prune_check_history 1 (prune_check_history 2 table)
  = prune_check_history (Z.min 1 2) table.
Proof.
  destruct (pruning_composes table) as (_ & _ & Huntied).
  - apply (bool_decide_unpack _). vm_compute. reflexivity.
  - destruct Huntied as (_ & Hcomposed & _).
    + apply (bool_decide_unpack _). vm_compute. reflexivity.
    + apply Hcomposed.
Defined.

(** X25, witness: the newest row of each config, before and after the
    table, held in reverse order, is pruned to two rows per config. *)
Lemma reading_ignores_pruning_witness :
  get_recent_check_history compare_code_units 1 None
    (prune_check_history 2 (reverse table))
    [config_row "a" "Alpha"; config_row "g" "Gamma"]
  ≡ₚ get_recent_check_history compare_code_units 1 None table
       [config_row "a" "Alpha"; config_row "g" "Gamma"].
Proof.
  apply reading_ignores_pruning.
  - apply (bool_decide_unpack _). vm_compute. reflexivity.
  - apply (bool_decide_unpack _). vm_compute. reflexivity.
  - apply reverse_Permutation.
  - lia.
Defined.
End OnSampleTable.

(** ** Tag lists and tag colours *)


Section TagFacts.
Import JsString Tags.

(** X26.  [parseTagList] returns no tag for a missing or empty list;
    every tag it returns is one of the comma-separated items of the
    list, trimmed: it is not empty, has no white space at either end
    and holds no comma. *)
Theorem tags_are_trimmed_items :
  parseTagList None = [] ∧ parseTagList (Some "") = [] ∧
  ∀ tags tag, tag ∈ parseTagList (Some tags) →
    (∃ item, item ∈ split "," tags ∧ tag = trim item) ∧
    tag ≠ "" ∧ trim tag = tag ∧ includes tag "," = false.
Proof.
  split_and!; [done..|]. intros tags tag Htag.
  assert (tag ∈ filter (λ tag, nonempty tag = true) (trim <$> split "," tags)) as Hin.
  { unfold parseTagList in Htag. destruct tags; [by apply elem_of_nil in Htag|done]. }
  split; [|by apply kept_items in Hin].
  apply list_elem_of_filter in Hin as [_ (item & -> & Hitem)%list_elem_of_fmap].
  by exists item.
Qed.

Lemma to_int32_range x : - 2 ^ 31 ≤ to_int32 x < 2 ^ 31.
Proof.
  unfold to_int32. pose proof (Z.mod_pos_bound (x + 2 ^ 31) (2 ^ 32)). lia.
Qed.

Lemma hashTag_loop_range value hash :
  - 2 ^ 31 ≤ hash < 2 ^ 31 → - 2 ^ 31 ≤ hashTag_loop value hash < 2 ^ 31.
Proof.
  revert hash. induction value as [|c value IH]; intros hash Hh; [done|].
  simpl. apply IH, to_int32_range.
Qed.

(** X27.  For every sequence of code units, [hashTag] is between 0
    and 2^31, and [getTagColorClass] returns one of the eight colour
    classes: its index is never outside the array.  The two tags that
    the comments of [TAG_COLOR_CLASSES] name, "商业" and "公益", get the
    classes with those comments. *)
Theorem every_tag_has_a_colour (tag : CodeUnits) :
  0 ≤ hashTag tag ≤ 2 ^ 31 ∧
  (∃ class, getTagColorClass tag = Some class ∧ class ∈ TAG_COLOR_CLASSES) ∧
  hashTag [21830; 19994] = 696724 ∧
  getTagColorClass [21830; 19994] = TAG_COLOR_CLASSES !! 4%nat ∧
  getTagColorClass [20844; 30410] = TAG_COLOR_CLASSES !! 6%nat.
Proof.
  assert (0 ≤ hashTag tag ≤ 2 ^ 31) as Hrange.
  { unfold hashTag. pose proof (hashTag_loop_range tag 0). lia. }
  split; [done|]. split; [|by vm_compute].
  unfold getTagColorClass. destruct tag as [|unit rest] eqn:Etag.
  - eexists. split; [done|]. by left.
  - rewrite <- Etag in *. clear Etag.
    change (Z.of_nat (length TAG_COLOR_CLASSES)) with 8.
    pose proof (Z.rem_bound_pos (hashTag tag) 8) as Hrem.
    rewrite bool_decide_true by lia.
    destruct (TAG_COLOR_CLASSES !! Z.to_nat (Z.rem (hashTag tag) 8)) as [class|] eqn:E.
    + exists class. split; [done|]. by eapply list_elem_of_lookup_2.
    + apply lookup_ge_None in E. change (length TAG_COLOR_CLASSES) with 8%nat in E. lia.
Qed.
End TagFacts.

(** X26, witness: a list with blanks and an empty item. *)
Lemma tags_are_trimmed_items_witness :
  JsString.trim "prod" = "prod" ∧ JsString.includes "prod" "," = false.
Proof.
  destruct tags_are_trimmed_items as (_ & _ & Htags).
  destruct (Htags " core , prod,, " "prod") as (_ & _ & Htrim & Hcomma).
  - apply (bool_decide_unpack _). vm_compute. reflexivity.
  - split; [exact Htrim|exact Hcomma].
Defined.

(** ** The countdown of the dashboard *)

Section CountdownFacts.
Import GroupData DashboardView.

Lemma foldl_max_spec (t : Z) (ts : list Z) :
  foldl Z.max t ts ∈ t :: ts ∧ ∀ x, x ∈ t :: ts → x ≤ foldl Z.max t ts.
Proof.
  revert t. induction ts as [|y ts IH]; intros t; simpl.
  - split; [by left|]. intros x ->%list_elem_of_singleton. lia.
  - destruct (IH (Z.max t y)) as [Hin Hmax]. split.
    + apply elem_of_cons in Hin as [Hin|Hin]; [|by do 2 right].
      rewrite Hin. destruct (Z.max_spec t y) as [[_ ->]|[_ ->]]; [right|]; by left.
    + intros x [->|[->|Hx]%elem_of_cons]%elem_of_cons.
      * etrans; [|apply Hmax; by left]. lia.
      * etrans; [|apply Hmax; by left]. lia.
      * apply Hmax. by right.
Qed.

(** X28.  [getLatestCheckTimestamp] is the newest [latest.checkedAt]
    of the timelines, and [null] exactly when there is none.  The
    countdown [computeRemainingMs] is [null] exactly when there is no
    positive poll interval or no timestamp; otherwise it is never
    negative, it is zero once a whole interval has passed since the
    timestamp, and it does not exceed the interval when the clock is
    not behind the timestamp. *)
Theorem the_countdown_stays_within_the_interval :
  (∀ timelines,
     match getLatestCheckTimestamp timelines with
     | None => timelines = []
     | Some newest =>
         (∃ t, t ∈ timelines ∧ checkedAt (latest t) = newest) ∧
         ∀ t, t ∈ timelines → checkedAt (latest t) ≤ newest
     end) ∧
  (∀ pollIntervalMs latestCheckTimestamp clock,
     match computeRemainingMs pollIntervalMs latestCheckTimestamp clock with
     | None =>
         latestCheckTimestamp = None ∨ pollIntervalMs = None ∨
         ∃ interval, pollIntervalMs = Some interval ∧ interval ≤ 0
     | Some remaining =>
         ∃ interval newest,
           pollIntervalMs = Some interval ∧ latestCheckTimestamp = Some newest ∧
           0 < interval ∧ 0 ≤ remaining ∧
           (interval ≤ clock - newest → remaining = 0) ∧
           (newest ≤ clock → remaining ≤ interval) ∧
           (clock - newest ≤ interval → remaining = interval - (clock - newest))
     end).
Proof.
  split.
  - intros timelines. unfold getLatestCheckTimestamp.
    destruct timelines as [|t0 ts]; [done|]. rewrite fmap_cons.
    destruct (foldl_max_spec (checkedAt (latest t0))
                ((λ timeline, checkedAt (latest timeline)) <$> ts)) as [Hin Hmax].
    cbn [foldl]. split.
    + apply elem_of_cons in Hin as [Hin|(t & Ht & Hin)%list_elem_of_fmap].
      * exists t0. split; [by left|done].
      * exists t. split; [by right|done].
    + intros t [->|Ht]%elem_of_cons; apply Hmax; [by left|].
      right. apply list_elem_of_fmap. by exists t.
  - intros [interval|] [newest|] clock; simpl; auto.
    destruct (bool_decide (interval = 0)) eqn:E0; simpl.
    { apply bool_decide_eq_true in E0. right; right. exists interval. split; [done|lia]. }
    apply bool_decide_eq_false in E0. case_bool_decide as Hle.
    { right; right. by exists interval. }
    exists interval, newest. split_and!; try done; lia.
Qed.
End CountdownFacts.

(** ** The URL of the Gemini check *)

Section GeminiUrlFacts.
Import JsString Checks.

Lemma endsWith_includes s t : endsWith s t = true → includes s t = true.
Proof.
  intros (u & ->)%endsWith_split. apply includes_append_r, includes_here, prefix_refl.
Qed.

Lemma includes_replace pattern by_ s :
  includes s pattern = true → includes (replace pattern by_ s) by_ = true.
Proof.
  induction s as [|c s IH]; cbn [includes replace].
  - destruct (String.prefix pattern ""); [|done].
    intros _. apply includes_append_l, includes_here, prefix_refl.
  - destruct (String.prefix pattern (String c s)).
    + intros _. apply includes_append_l, includes_here, prefix_refl.
    + intros Hs. cbn [includes]. rewrite (IH Hs). apply orb_true_r.
Qed.

(** X30.  The URL that [checkGemini] requests names the streaming
    method [":streamGenerateContent"], whatever the endpoint of the
    config, and carries the key as its last query parameter. *)
Theorem gemini_url_streams config :
  includes (gemini_url config) ":streamGenerateContent" = true ∧
  includes (gemini_url config) "?" = true ∧
  endsWith (gemini_url config) ("key=" +:+ apiKey config) = true.
Proof.
  unfold gemini_url.
  set (normalized := if endsWith (endpoint config) ":streamGenerateContent" then _ else _).
  assert (includes normalized ":streamGenerateContent" = true) as Hn.
  { subst normalized.
    destruct (endsWith (endpoint config) ":streamGenerateContent") eqn:E1;
      [by apply endsWith_includes|].
    destruct (endsWith (endpoint config) ":generateContent") eqn:E2.
    - by apply includes_replace, endsWith_includes.
    - rewrite <- !append_assoc. apply includes_append_r, includes_here, prefix_refl. }
  clearbody normalized. split_and!.
  - unfold appendQuery. destruct (includes normalized "?"); by apply includes_append_l.
  - apply appendQuery_includes.
  - unfold appendQuery.
    destruct (includes normalized "?"); rewrite <- append_assoc; apply endsWith_append.
Qed.
End GeminiUrlFacts.

(** X29, witness: the sample environment has one complete group. *)
Lemma checks_cover_the_complete_groups_witness :
  ∃ results,
    Checks.runProviderChecks Reference.runtime
      (Checks.loadProviderConfigs Sample.upper Sample.lower Sample.env_groups).1
      (λ _, Sample.streamed 3000) [0%nat] = Some (Normal results) ∧
    r_id <$> results ⊆+ ["main"; "backup"; "spare"].
Proof.
  destruct (checks_cover_the_complete_groups Sample.upper Sample.lower Sample.env_groups
              Reference.runtime) as [Hsettled _].
  destruct (Hsettled (λ _, Sample.streamed 3000) [0%nat]
              (default (Normal [])
                 (Checks.runProviderChecks Reference.runtime
                    (Checks.loadProviderConfigs Sample.upper Sample.lower
                       Sample.env_groups).1
                    (λ _, Sample.streamed 3000) [0%nat])))
    as (results & Hresults & _ & Hsub).
  { vm_compute. reflexivity. }
  exists results. split; [|exact Hsub].
  rewrite <- Hresults. vm_compute. reflexivity.
Defined.
